(** * Basecode bootstrap compiler: type checks, variable flags and the
      byte-code emitter's lowering contracts.

    The development embeds three parts of the compiler:
    - [Types]: the type hierarchy ([type.cpp], [numeric_type.h],
      [pointer_type.cpp], [composite_type.cpp], [tuple_type.cpp]) with its
      virtual [on_type_check], [number_class] and size queries;
    - [CompilerVariable]: the flag protocol of [compiler::variable] ([variable.cpp]);
    - [Emitter]: [byte_code_emitter::emit_element] and its helpers
      ([byte_code_emitter.cpp], the implementation that builds labelled
      basic blocks). *)

From Stdlib Require Import ZArith List Bool Lia.
From stdpp Require Import base option list gmap strings pretty.

Set Warnings "-register-all".

Local Open Scope string_scope.
Local Open Scope list_scope.
Local Open Scope Z_scope.

(* ===================================================================== *)
(** ** Types *)
(* ===================================================================== *)

Module Types.

(** [number_class_t] of [compiler_types.h], as used by [type::number_class]. *)
Inductive number_class_t := nc_none | nc_integer | nc_floating_point.

#[global] Instance number_class_eq_dec : EqDecision number_class_t.
Proof. solve_decision. Defined.

(** The element kinds ([element_type_t]) that the emitter dispatches on. *)
Inductive element_type_t :=
| et_element | et_cast | et_if_e | et_with | et_for_e | et_label | et_block
| et_field | et_defer | et_symbol | et_module | et_case_e | et_break_e
| et_comment | et_program | et_while_e | et_return_e | et_import_e
| et_switch_e | et_raw_block | et_intrinsic | et_directive | et_attribute
| et_statement | et_proc_call | et_transmute | et_continue_e | et_identifier
| et_expression | et_assignment | et_declaration | et_namespace_e
| et_initializer | et_fallthrough | et_nil_literal | et_type_literal
| et_float_literal | et_string_literal | et_boolean_literal
| et_integer_literal | et_character_literal | et_uninitialized_literal
| et_rune_type | et_proc_type | et_bool_type | et_tuple_type | et_array_type
| et_module_type | et_family_type | et_unknown_type | et_numeric_type
| et_pointer_type | et_generic_type | et_namespace_type | et_composite_type
| et_argument_pair | et_argument_list | et_proc_instance | et_assembly_label
| et_unary_operator | et_type_reference | et_binary_operator
| et_spread_operator | et_label_reference | et_module_reference
| et_unknown_identifier | et_identifier_reference
| et_assembly_literal_label.

#[global] Instance element_type_eq_dec : EqDecision element_type_t.
Proof. solve_decision. Defined.

(** [numeric_type_properties_t] and the table [s_type_properties] of
    [numeric_type.h]. *)
Record numeric_type_properties_t := {
  name : string;
  min : Z;
  max : Z;
  size_in_bytes : Z;
  is_signed : bool;
  number_class : number_class_t;
}.

Definition UINT8_MAX := 255.
Definition UINT16_MAX := 65535.
Definition UINT32_MAX := 4294967295.
Definition UINT64_MAX := 18446744073709551615.
Definition INT8_MIN := -128.
Definition INT8_MAX := 127.
Definition INT16_MIN := -32768.
Definition INT16_MAX := 32767.
Definition INT32_MIN := -2147483648.
Definition INT32_MAX := 2147483647.
Definition INT64_MIN := -9223372036854775808.
Definition INT64_MAX := 9223372036854775807.

Definition s_type_properties : list numeric_type_properties_t :=
  [ Build_numeric_type_properties_t "u0"  0 0 0 false nc_integer;
    Build_numeric_type_properties_t "u8"  0 UINT8_MAX 1 false nc_integer;
    Build_numeric_type_properties_t "u16" 0 UINT16_MAX 2 false nc_integer;
    Build_numeric_type_properties_t "u32" 0 UINT32_MAX 4 false nc_integer;
    Build_numeric_type_properties_t "u64" 0 UINT64_MAX 8 false nc_integer;
    Build_numeric_type_properties_t "s8"  INT8_MIN INT8_MAX 1 true nc_integer;
    Build_numeric_type_properties_t "s16" INT16_MIN INT16_MAX 2 true nc_integer;
    Build_numeric_type_properties_t "s32" INT32_MIN INT32_MAX 4 true nc_integer;
    Build_numeric_type_properties_t "s64" INT64_MIN INT64_MAX 8 true nc_integer;
    Build_numeric_type_properties_t "f32" 0 UINT32_MAX 4 true nc_floating_point;
    Build_numeric_type_properties_t "f64" 0 UINT64_MAX 8 true nc_floating_point ].

(** The eleven built-in numeric types; [s_types_map] sends each name to its
    row of [s_type_properties]. *)
Inductive numeric_kind := u0 | u8 | u16 | u32 | u64 | s8 | s16 | s32 | s64 | f32 | f64.

#[global] Instance numeric_kind_eq_dec : EqDecision numeric_kind.
Proof. solve_decision. Defined.

Definition s_types_index (k : numeric_kind) : nat :=
  match k with
  | u0 => 0 | u8 => 1 | u16 => 2 | u32 => 3 | u64 => 4
  | s8 => 5 | s16 => 6 | s32 => 7 | s64 => 8 | f32 => 9 | f64 => 10
  end%nat.

Definition properties (k : numeric_kind) : numeric_type_properties_t :=
  nth (s_types_index k) s_type_properties
      (Build_numeric_type_properties_t "" 0 0 0 false nc_none).

(** The subclasses of [compiler::type] whose code is not part of the
    sources; they keep the defaults of [type]. *)
Inductive other_type_kind :=
| bool_type | rune_type | proc_type | module_type | family_type
| unknown_type | generic_type | namespace_type.

#[global] Instance other_type_kind_eq_dec : EqDecision other_type_kind.
Proof. solve_decision. Defined.

(** A field of a composite type's field map: its name, size and start
    offset. *)
Record field_t := {
  field_name : string;
  field_size_in_bytes : Z;
  field_start_offset : Z;
}.

#[global] Instance field_eq_dec : EqDecision field_t.
Proof. solve_decision. Defined.

(** A [compiler::type].  The classes whose code is part of the sources
    get a constructor of their own. *)
Inductive type :=
| numeric_type (k : numeric_kind)
| pointer_type (base_type : type) (base_is_void : bool)
| composite_type (symbol : string) (fields : list field_t)
| tuple_type (id : N) (symbol : string) (fields : list field_t)
| array_type (symbol : string) (size : Z)
| other_type (kind : other_type_kind) (symbol : string) (size : Z).

#[global] Instance type_eq_dec : EqDecision type.
Proof. solve_decision. Defined.

Definition element_type (t : type) : element_type_t :=
  match t with
  | numeric_type _ => et_numeric_type
  | pointer_type _ _ => et_pointer_type
  | composite_type _ _ => et_composite_type
  | tuple_type _ _ _ => et_tuple_type
  | array_type _ _ => et_array_type
  | other_type bool_type _ _ => et_bool_type
  | other_type rune_type _ _ => et_rune_type
  | other_type proc_type _ _ => et_proc_type
  | other_type module_type _ _ => et_module_type
  | other_type family_type _ _ => et_family_type
  | other_type unknown_type _ _ => et_unknown_type
  | other_type generic_type _ _ => et_generic_type
  | other_type namespace_type _ _ => et_namespace_type
  end.

(** Modelled from the spec: [type_name_builder::format] is not part of the
    sources; the parts are joined with underscores between two double
    underscores. *)
Definition type_name_builder_format (parts : list string) : string :=
  "__" +:+ String.concat "_" parts +:+ "__".

(** [symbol()->name()] of a type; [pointer_type::name_for_pointer] builds
    the pointer's. *)
Fixpoint symbol_name (t : type) : string :=
  match t with
  | numeric_type k => name (properties k)
  | pointer_type b _ => type_name_builder_format ["ptr"; symbol_name b]
  | composite_type s _ => s
  | tuple_type _ s _ => s
  | array_type s _ => s
  | other_type _ s _ => s
  end.

(** [type::size_in_bytes]: set by each class's [on_initialize]
    ([pointer_type]: [sizeof(uint64_t)]; [composite_type]: the sum of the
    field sizes, inherited by [tuple_type]). *)
Definition type_size_in_bytes (t : type) : Z :=
  match t with
  | numeric_type k => size_in_bytes (properties k)
  | pointer_type _ _ => 8
  | composite_type _ fs => fold_left Z.add (map field_size_in_bytes fs) 0
  | tuple_type _ _ fs => fold_left Z.add (map field_size_in_bytes fs) 0
  | array_type _ sz => sz
  | other_type _ _ sz => sz
  end.

(** [type::number_class] calls the virtual [on_number_class]; the default
    of [type] is [none], [pointer_type] answers [integer]. *)
Definition type_number_class (t : type) : number_class_t :=
  match t with
  | numeric_type k => number_class (properties k)
  | pointer_type _ _ => nc_integer
  | _ => nc_none
  end.

(** [type::is_signed] is false unless [numeric_type] overrides it. *)
Definition type_is_signed (t : type) : bool :=
  match t with
  | numeric_type k => is_signed (properties k)
  | _ => false
  end.

Definition is_pointer_type (t : type) : bool :=
  match t with pointer_type _ _ => true | _ => false end.

(** [composite_type::is_composite_type] is true (and inherited by
    [tuple_type]); [pointer_type::is_composite_type] asks the base type. *)
Fixpoint is_composite_type (t : type) : bool :=
  match t with
  | composite_type _ _ => true
  | tuple_type _ _ _ => true
  | pointer_type b _ => is_composite_type b
  | _ => false
  end.

(** [field_map_t::find_by_name]. *)
Definition find_by_name (fs : list field_t) (n : string) : option field_t :=
  List.find (fun f => bool_decide (field_name f = n)) fs.

(** [dynamic_cast<compiler::composite_type*>]: the field map of a
    composite (or tuple) type. *)
Definition as_composite_type (t : type) : option (list field_t) :=
  match t with
  | composite_type _ fs => Some fs
  | tuple_type _ _ fs => Some fs
  | _ => None
  end.

(** [pointer_type::base_type_ref]: the first base that is not itself a
    pointer. *)
Fixpoint base_type_ref (base : type) : type :=
  match base with
  | pointer_type b _ => base_type_ref b
  | _ => base
  end.

(** [dynamic_cast<compiler::numeric_type*>]. *)
Definition as_numeric_type (t : type) : option numeric_kind :=
  match t with numeric_type k => Some k | _ => None end.

(** Modelled from the spec: [numeric_type::on_type_check] is declared in
    [numeric_type.h] but its body is not part of the sources.  Both
    integer: the other type's range fits; both float: the other type is not
    wider; cross-class never. *)
Definition numeric_on_type_check (a : numeric_kind) (other : option type) : bool :=
  match other with
  | Some (numeric_type b) =>
      let pa := properties a in
      let pb := properties b in
      match number_class pa, number_class pb with
      | nc_integer, nc_integer =>
          (min pa <=? min pb) && (max pb <=? max pa)
      | nc_floating_point, nc_floating_point =>
          size_in_bytes pb <=? size_in_bytes pa
      | _, _ => false
      end
  | _ => false
  end.

(** [type::type_check] dispatches to the virtual [on_type_check]:
    [pointer_type::on_type_check], [composite_type::on_type_check],
    [tuple_type::on_type_check], and [type::on_type_check] (false) for
    every class without an override in the sources.  [other = None] is the
    null pointer.  [tuple_type::on_type_check] compares element ids; of the
    types only a tuple carries its id here, and no two elements of a session
    have the same id, so a type of another class never has the tuple's id
    and the comparison is false for it. *)
Fixpoint type_check (t : type) (other : option type) : bool :=
  match t with
  | pointer_type base _ =>
      match other with
      | None => false
      | Some o =>
          match o with
          | pointer_type other_base other_base_is_void =>
              if other_base_is_void then true
              else type_check base (Some other_base)
          | numeric_type k => size_in_bytes (properties k) =? 8
          | _ => false
          end
      end
  | composite_type s _ =>
      match other with
      | None => false
      | Some o => bool_decide (symbol_name o = s)
      end
  | tuple_type i _ _ =>
      match other with
      | Some (tuple_type j _ _) => bool_decide (j = i)
      | _ => false
      end
  | numeric_type k => numeric_on_type_check k other
  | array_type _ _ => false
  | other_type _ _ _ => false
  end.

(** [vm::ffi_types_t], the types of the foreign function interface. *)
Inductive ffi_types_t :=
| ffi_void_type | ffi_bool_type | ffi_char_type | ffi_short_type | ffi_int_type
| ffi_long_long_type | ffi_float_type | ffi_double_type
| ffi_pointer_type | ffi_struct_type.

#[global] Instance ffi_types_eq_dec : EqDecision ffi_types_t.
Proof. solve_decision. Defined.

(** [type::to_ffi_type]. *)
Definition to_ffi_type (t : type) : ffi_types_t :=
  match element_type t with
  | et_rune_type => ffi_char_type
  | et_numeric_type =>
      match as_numeric_type t with
      | Some k =>
          match number_class (properties k) with
          | nc_integer =>
              match type_size_in_bytes t with
              | 1 => ffi_char_type
              | 2 => ffi_short_type
              | 4 => ffi_int_type
              | 8 => ffi_long_long_type
              | _ => ffi_void_type
              end
          | nc_floating_point =>
              match type_size_in_bytes t with
              | 4 => ffi_float_type
              | 8 => ffi_double_type
              | _ => ffi_void_type
              end
          | nc_none => ffi_void_type
          end
      | None => ffi_void_type
      end
  | et_bool_type => ffi_bool_type
  | et_pointer_type => ffi_pointer_type
  | et_composite_type =>
      if type_size_in_bytes t <=? 16 then ffi_struct_type else ffi_pointer_type
  | _ => ffi_void_type
  end.

End Types.

(* ===================================================================== *)
(** ** Variables: the flag protocol of [compiler::variable] *)
(* ===================================================================== *)

Module CompilerVariable.

(** [variable::flags_t] is declared in [variable.h], which is not part of
    the sources: the bit masks are parameters. *)
Class flags_t := {
  f_read : Z;
  f_copied : Z;
  f_written : Z;
  f_activated : Z;
  f_addressed : Z;
}.

Inductive op_sizes := none | byte | word | dword | qword.

#[global] Instance op_sizes_eq_dec : EqDecision op_sizes.
Proof. solve_decision. Defined.

Record register_t := {
  number : Z;
  size : op_sizes;
  floating_point : bool;
}.

(** What [variable.cpp] appends to a [vm::instruction_block]. *)
Inductive block_entry :=
| comment (text : string) (indent : Z)
| clr (sz : op_sizes) (reg : register_t)
| load_to_reg (dst addr : register_t) (offset : Z)
| store_from_reg (addr src : register_t) (offset : Z)
| move_label_to_reg (dst : register_t) (label : string)
| move_constant_to_reg (dst : register_t) (value : Z).

(** The element a variable stands for: an identifier, or any other element
    together with the entries its own [emit] appends. *)
Inductive element :=
| identifier (symbol : string)
| other_element (emitted : list block_entry).

Record field_t := {
  start_offset : Z;
  field_name : string;
}.

Inductive variable :=
| Build_variable (flags : Z) (elem : element)
                 (parent : option variable) (fld : option field_t)
                 (value address : register_t).

Definition _flags (v : variable) : Z :=
  match v with Build_variable f _ _ _ _ _ => f end.
Definition _element (v : variable) : element :=
  match v with Build_variable _ e _ _ _ _ => e end.
Definition _parent (v : variable) : option variable :=
  match v with Build_variable _ _ p _ _ _ => p end.
Definition _field (v : variable) : option field_t :=
  match v with Build_variable _ _ _ f _ _ => f end.
Definition _value (v : variable) : register_t :=
  match v with Build_variable _ _ _ _ r _ => r end.
Definition _address (v : variable) : register_t :=
  match v with Build_variable _ _ _ _ _ r => r end.

Definition with_flags (v : variable) (f : Z) : variable :=
  match v with Build_variable _ e p fl r a => Build_variable f e p fl r a end.

(** The assembler as far as [variable] uses it: the current block (if any)
    and the stack of target registers. *)
Record assembler := {
  current_block : option (list block_entry);
  target_registers : list register_t;
}.

Definition append (es : list block_entry) (a : assembler) : assembler :=
  {| current_block := (fun b => b ++ es) <$> current_block a;
     target_registers := target_registers a |}.

Record root_and_offset_t := {
  rot_identifier : option string;
  rot_path : string;
  rot_offset : Z;
}.

Definition empty_rot : root_and_offset_t :=
  {| rot_identifier := None; rot_path := ""; rot_offset := 0 |}.

(** The loop of [walk_to_root_and_calculate_offset]: [names] is the stack
    of field names (top first).  [None] stands for following a null
    [_parent]. *)
Fixpoint walk_fields (current : variable) (offset : Z) (names : list string)
  : option (variable * Z * list string) :=
  match current with
  | Build_variable _ _ p f _ _ =>
      match f with
      | None => Some (current, offset, names)
      | Some fl =>
          match p with
          | None => None
          | Some p' => walk_fields p' (offset + start_offset fl) (field_name fl :: names)
          end
      end
  end.

(** [variable::walk_to_root_and_calculate_offset]: the boolean result and
    the filled [rot]. *)
Definition walk_to_root_and_calculate_offset (v : variable)
  : option (bool * root_and_offset_t) :=
  match _parent v with
  | None => Some (false, empty_rot)
  | Some _ =>
      '(root, offset, names) ← walk_fields v 0 [];
      Some (true,
            {| rot_identifier :=
                 match _element root with
                 | identifier s => Some s
                 | other_element _ => None
                 end;
               rot_path := String.concat "." names;
               rot_offset := offset |})
  end.

Section Flags.
Context `{F : flags_t}.

(** [bool variable::flag(flags_t f) const]. *)
Definition flag (v : variable) (f : Z) : bool :=
  negb (Z.land (_flags v) f =? 0).

(** [void variable::flag(flags_t f, bool value)]. *)
Definition set_flag (v : variable) (f : Z) (value : bool) : variable :=
  with_flags v (if value then Z.lor (_flags v) f
                else Z.land (_flags v) (Z.lnot f)).

(** The outcome of a member function: its boolean result with the
    variable and the assembler afterwards; [None] when the function
    dereferences a null pointer. *)
Definition result : Type := option (bool * variable * assembler).

(** [variable::address]. *)
Definition address (v : variable) (a : assembler) : result :=
  if flag v f_addressed then Some (false, v, a)
  else
    match current_block a with
    | None => Some (true, v, a)
    | Some _ =>
        '(walked, rot) ← walk_to_root_and_calculate_offset v;
        let var :=
          if (walked : bool) then rot_identifier (rot : root_and_offset_t)
          else match _element v with
               | identifier s => Some s
               | other_element _ => None
               end in
        let a' :=
          match var with
          | Some s =>
              append [comment ("load global address: " +:+ s) 4;
                      move_label_to_reg (_address v) s] a
          | None => a
          end in
        Some (true, set_flag v f_addressed true, a')
    end.

(** [variable::read]. *)
Definition read (v : variable) (a : assembler) : result :=
  if flag v f_read then Some (false, v, a)
  else
    match current_block a with
    | None => Some (true, v, a)
    | Some _ =>
        '(_, v1, a1) ← address v a;
        a2 ← match _element v1 with
             | identifier s =>
                 '(walked, rot) ← walk_to_root_and_calculate_offset v1;
                 let c :=
                   if (walked : bool)
                   then comment ("load field value: " +:+ rot_path (rot : root_and_offset_t)) 4
                   else comment ("load global value: " +:+ s) 4 in
                 let clear :=
                   if decide (size (_value v1) = qword) then []
                   else [clr qword (_value v1)] in
                 Some (append ([c] ++ clear ++
                               [load_to_reg (_value v1) (_address v1) (rot_offset rot)]) a1)
             | other_element emitted =>
                 (* push_target_register; _element->emit; pop_target_register *)
                 Some (append emitted a1)
             end;
        let v2 := set_flag v1 f_read true in
        let v3 := set_flag v2 f_written false in
        Some (true, v3, a2)
    end.

(** [variable::write()]. *)
Definition write (v : variable) (a : assembler) : result :=
  if flag v f_written then Some (false, v, a)
  else
    '(_, v1, a1) ← address v a;
    _ ← current_block a1;
    let target_register :=
      match target_registers a1 with
      | r :: _ => r
      | [] => _value v1
      end in
    '(walked, rot) ← walk_to_root_and_calculate_offset v1;
    c ← (if (walked : bool)
         then Some (comment ("store field value: " +:+ rot_path (rot : root_and_offset_t)) 4)
         else match _element v1 with
              | identifier s => Some (comment ("store global value: " +:+ s) 4)
              | other_element _ => None
              end);
    let a2 := append [c; store_from_reg (_address v1) target_register (rot_offset rot)] a1 in
    let v2 := set_flag v1 f_written true in
    let v3 := set_flag v2 f_read false in
    Some (true, v3, a2).

(** [variable::write(uint64_t value)]: the store of a constant. *)
Definition write_constant (value : Z) (v : variable) (a : assembler) : result :=
  if flag v f_written then Some (false, v, a)
  else
    '(_, v1, a1) ← address v a;
    _ ← current_block a1;
    '(walked, rot) ← walk_to_root_and_calculate_offset v1;
    c ← (if (walked : bool)
         then Some (comment ("store field value: " +:+ rot_path (rot : root_and_offset_t)) 4)
         else match _element v1 with
              | identifier s => Some (comment ("store global value: " +:+ s) 4)
              | other_element _ => None
              end);
    let a2 := append [c; move_constant_to_reg (_value v1) value;
                      store_from_reg (_address v1) (_value v1) (rot_offset rot)] a1 in
    Some (true, set_flag v1 f_written true, a2).

(** A call of [read()] or of [write()]. *)
Inductive operation := op_read | op_write.

Definition run_operation (o : operation) (v : variable) (a : assembler) : result :=
  match o with
  | op_read => read v a
  | op_write => write v a
  end.

(** A sequence of calls on one variable; the boolean results are
    dropped. *)
Fixpoint run_operations (os : list operation) (v : variable) (a : assembler)
  : option (variable * assembler) :=
  match os with
  | [] => Some (v, a)
  | o :: os' =>
      '(_, v', a') ← run_operation o v a;
      run_operations os' v' a'
  end.

(** The bit masks are usable as flags: each has a bit, and no two of
    the ones [read], [write] and [address] touch share one. *)
Record flags_wf : Prop := {
  read_nonzero : f_read <> 0;
  written_nonzero : f_written <> 0;
  read_written_disjoint : Z.land f_read f_written = 0;
  read_addressed_disjoint : Z.land f_read f_addressed = 0;
  written_addressed_disjoint : Z.land f_written f_addressed = 0;
}.

End Flags.

(** The usual one-bit-per-flag layout. *)
Definition one_bit_flags : flags_t :=
  {| f_read := 1; f_copied := 2; f_written := 4; f_activated := 8; f_addressed := 16 |}.

(** A variable for a field: what it holds besides its parent. *)
Record layer_t := {
  layer_flags : Z;
  layer_element : element;
  layer_field : field_t;
  layer_value : register_t;
  layer_address : register_t;
}.

(** The variable reached from [root] through the fields of [layers], the
    first being a field of the root. *)
Fixpoint nest (root : variable) (layers : list layer_t) : variable :=
  match layers with
  | [] => root
  | l :: ls =>
      nest (Build_variable (layer_flags l) (layer_element l) (Some root)
                           (Some (layer_field l)) (layer_value l) (layer_address l))
           ls
  end.

(** The identifier [dynamic_cast<compiler::identifier*>] finds in a
    variable's element. *)
Definition identifier_of (v : variable) : option string :=
  match _element v with
  | identifier s => Some s
  | other_element _ => None
  end.

(** The sum of the start offsets and the names of the fields of [layers]. *)
Definition offsets (layers : list layer_t) : Z :=
  foldr Z.add 0 (map (fun l => start_offset (layer_field l)) layers).

Definition names (layers : list layer_t) : list string :=
  map (fun l => field_name (layer_field l)) layers.

(** Registers and fields used as examples. *)
Definition example_register (n : Z) : register_t :=
  {| number := n; size := qword; floating_point := false |}.

Definition example_layer (name : string) (offset : Z) : layer_t :=
  {| layer_flags := 0; layer_element := identifier name;
     layer_field := {| start_offset := offset; field_name := name |};
     layer_value := example_register 2; layer_address := example_register 3 |}.

End CompilerVariable.

(* ===================================================================== *)
(** ** The byte-code emitter *)
(* ===================================================================== *)

Module Emitter.
Import Types.

(** *** The virtual machine's instruction vocabulary

    Modelled from the spec: the [vm] namespace ([basic_block],
    [instruction_operand_t], [assembler], [label_map]) is not part of the
    sources.  A basic block holds labels, comments, a linear sequence of
    instructions, and predecessor/successor edges; operand sizes are
    byte, word, dword and qword. *)

Inductive op_sizes := none | byte | word | dword | qword.

#[global] Instance op_sizes_eq_dec : EqDecision op_sizes.
Proof. solve_decision. Defined.

Definition op_size_for_byte_size (size : Z) : op_sizes :=
  if size =? 1 then byte
  else if size =? 2 then word
  else if size =? 4 then dword
  else if size =? 8 then qword
  else none.

Inductive assembler_named_ref_type_t := ref_local | ref_label | ref_offset.

#[global] Instance assembler_named_ref_type_eq_dec : EqDecision assembler_named_ref_type_t.
Proof. solve_decision. Defined.

Record assembler_named_ref_t := {
  ref_type : assembler_named_ref_type_t;
  ref_name : string;
  ref_size : op_sizes;
}.

#[global] Instance assembler_named_ref_eq_dec : EqDecision assembler_named_ref_t.
Proof. solve_decision. Defined.

(** [assembler::make_named_ref]; the size defaults to a qword. *)
Definition make_named_ref (t : assembler_named_ref_type_t) (n : string) (s : op_sizes)
  : assembler_named_ref_t :=
  {| ref_type := t; ref_name := n; ref_size := s |}.

Inductive instruction_operand_t :=
| operand_empty
| operand_named_ref (r : assembler_named_ref_t)
| operand_integer (value : Z) (size : op_sizes)
| operand_float (single : bool) (bits : Z)
| operand_address (value : Z)
| operand_sp
| operand_fp
| operand_offset (value : Z) (size : op_sizes).

#[global] Instance instruction_operand_eq_dec : EqDecision instruction_operand_t.
Proof. solve_decision. Defined.

Definition operand_size (o : instruction_operand_t) : op_sizes :=
  match o with
  | operand_named_ref r => ref_size r
  | operand_integer _ s => s
  | operand_float single _ => if single then dword else qword
  | operand_offset _ s => s
  | operand_empty => none
  | _ => qword
  end.

Inductive op_codes :=
| nop | alloc | free | load | store | copy | convert | fill | clr
| move | moves | movez | push | pop
| neg | not_op | cmp
| setz | setnz | seta | setae | setb | setbe | setl | setle | setg | setge
| bz | bnz | jmp | jsr | ffi | rts
| add | sub | mul | div | mod_op | pow
| or_op | and_op | xor_op | shl | shr | rol | ror.

#[global] Instance op_codes_eq_dec : EqDecision op_codes.
Proof. solve_decision. Defined.

Record instruction_t := {
  op : op_codes;
  size : op_sizes;
  operands : list instruction_operand_t;
}.

#[global] Instance instruction_eq_dec : EqDecision instruction_t.
Proof. solve_decision. Defined.

Definition inst (o : op_codes) (ops : list instruction_operand_t) : instruction_t :=
  {| op := o; size := none; operands := ops |}.

Definition sized_inst (o : op_codes) (s : op_sizes) (ops : list instruction_operand_t)
  : instruction_t :=
  {| op := o; size := s; operands := ops |}.

(** [basic_block::jump_direct] issues [jmp]; [call] issues [jsr];
    [call_foreign] issues [ffi]. *)
Definition jump_direct (target : instruction_operand_t) : instruction_t :=
  inst jmp [target].

Inductive directive_t := meta_begin | meta_end.

Record basic_block := {
  bb_labels : list string;
  bb_comments : list string;
  bb_instructions : list instruction_t;
  bb_directives : list directive_t;
  bb_locals : list string;
  bb_predecessors : list nat;
  bb_successors : list nat;
}.

Definition empty_block : basic_block :=
  {| bb_labels := []; bb_comments := []; bb_instructions := [];
     bb_directives := []; bb_locals := [];
     bb_predecessors := []; bb_successors := [] |}.

(** [basic_block::is_current_instruction]: the block's last instruction has
    the given op code. *)
Definition is_current_instruction (b : basic_block) (o : op_codes) : bool :=
  match last (bb_instructions b) with
  | Some i => bool_decide (op i = o)
  | None => false
  end.

(** *** Elements *)

Inductive operator_type_t :=
| negate | binary_not | logical_not | pointer_dereference
| assignment | logical_or | logical_and | binary_or | binary_and
| binary_xor | shift_right | shift_left | rotate_left | rotate_right
| exponent | op_add | subtract | multiply | divide | modulo
| equals | not_equals | greater_than | less_than
| greater_than_or_equal | less_than_or_equal
| member_access | subscript.

#[global] Instance operator_type_eq_dec : EqDecision operator_type_t.
Proof. solve_decision. Defined.

(** What every element carries: its id, its label name, and the type that
    [infer_type] yields for it ([None] when inference fails and leaves the
    caller's result untouched). *)
Record element_header := {
  id : N;
  label_name : string;
  inferred_type : option type;
}.

(** [compiler::procedure_type] as the call site reads it.
    [return_type] is the field [return_type()], holding
    [identifier()->type_ref()->type()] (which may be null). *)
Record procedure_type_t := {
  is_foreign : bool;
  return_type : option (option type);
  foreign_address : Z;
}.

Inductive element :=
| cast (h : element_header) (type_ref : type) (expr : element)
| if_e (h : element_header) (predicate true_branch : element)
       (false_branch : option element)
| with_e (h : element_header) (body : option element)
| for_e (h : element_header) (induction_decl_identifier : element)
        (expression : element) (body : element)
| label (h : element_header)
| block (h : element_header) (has_stack_frame parent_is_directive : bool)
        (statements : list element) (defer_stack : list element)
| field (h : element_header) (declaration : option element)
| defer_e (h : element_header) (expr : option element)
| module_e (h : element_header) (scope : option element)
| case_e (h : element_header) (expr : option element) (scope : element)
| break_e (h : element_header) (lbl : option element)
| while_e (h : element_header) (predicate body : element)
| return_e (h : element_header) (return_field : option string)
           (expressions : list element)
| switch_e (h : element_header) (expr : option element) (scope : element)
| intrinsic (h : element_header) (name : string) (args : list element)
| range_intrinsic (h : element_header) (start stop step dir kind : element)
| assembly_directive (h : element_header) (assembled : option (list instruction_t))
| if_directive (h : element_header) (true_body : option element)
| run_directive (h : element_header) (expr : element)
| directive (h : element_header) (name : string)
| statement (h : element_header) (labels : list element) (expr : option element)
| proc_call (h : element_header) (procedure_type : procedure_type_t)
            (identifier_label_name : string) (arguments : option element)
| transmute (h : element_header) (type_ref : type) (expr : element)
| continue_e (h : element_header) (lbl : option element)
| identifier (h : element_header)
| expression (h : element_header) (root : option element)
| assignment_e (h : element_header) (expressions : list element)
| declaration (h : element_header) (assignment : option element)
| namespace_e (h : element_header) (expr : option element)
| initializer (h : element_header) (expr : option element)
| fallthrough (h : element_header)
| nil_literal (h : element_header)
| type_literal (h : element_header)
| float_literal (h : element_header) (narrows_to_f32 : bool) (bits : Z)
| string_literal (h : element_header)
| boolean_literal (h : element_header) (value : bool)
| integer_literal (h : element_header) (value : Z)
| character_literal (h : element_header) (rune : Z)
| argument_list (h : element_header) (is_foreign_call : bool)
                (ffi_arguments : option (list Z)) (elements : list element)
| assembly_label (h : element_header) (name : string)
| unary_operator (h : element_header) (operator_type : operator_type_t)
                 (rhs : element)
| binary_operator (h : element_header) (operator_type : operator_type_t)
                  (lhs rhs : element) (non_owning : bool)
| identifier_reference (h : element_header) (symbol : string)
                       (ident : option element)
| assembly_literal_label (h : element_header) (name : string)
| other_element (h : element_header) (kind : element_type_t).

Definition header (e : element) : element_header :=
  match e with
  | cast h _ _ | if_e h _ _ _ | with_e h _ | for_e h _ _ _ | label h
  | block h _ _ _ _ | field h _ | defer_e h _ | module_e h _ | case_e h _ _
  | break_e h _ | while_e h _ _ | return_e h _ _ | switch_e h _ _
  | intrinsic h _ _ | range_intrinsic h _ _ _ _ _ | assembly_directive h _
  | if_directive h _ | run_directive h _ | directive h _ | statement h _ _
  | proc_call h _ _ _ | transmute h _ _ | continue_e h _ | identifier h
  | expression h _ | assignment_e h _ | declaration h _ | namespace_e h _
  | initializer h _ | fallthrough h | nil_literal h | type_literal h
  | float_literal h _ _ | string_literal h | boolean_literal h _
  | integer_literal h _ | character_literal h _ | argument_list h _ _ _
  | assembly_label h _ | unary_operator h _ _ | binary_operator h _ _ _ _
  | identifier_reference h _ _ | assembly_literal_label h _
  | other_element h _ => h
  end.

Definition element_id (e : element) : N := id (header e).
Definition element_label_name (e : element) : string := label_name (header e).

(** [element::element_type]. *)
Definition element_kind (e : element) : element_type_t :=
  match e with
  | cast _ _ _ => et_cast | if_e _ _ _ _ => et_if_e | with_e _ _ => et_with
  | for_e _ _ _ _ => et_for_e | label _ => et_label
  | block _ _ _ _ _ => et_block | field _ _ => et_field
  | defer_e _ _ => et_defer | module_e _ _ => et_module
  | case_e _ _ _ => et_case_e | break_e _ _ => et_break_e
  | while_e _ _ _ => et_while_e | return_e _ _ _ => et_return_e
  | switch_e _ _ _ => et_switch_e | intrinsic _ _ _ => et_intrinsic
  | range_intrinsic _ _ _ _ _ _ => et_intrinsic
  | assembly_directive _ _ | if_directive _ _ | run_directive _ _
  | directive _ _ => et_directive
  | statement _ _ _ => et_statement | proc_call _ _ _ _ => et_proc_call
  | transmute _ _ _ => et_transmute | continue_e _ _ => et_continue_e
  | identifier _ => et_identifier | expression _ _ => et_expression
  | assignment_e _ _ => et_assignment | declaration _ _ => et_declaration
  | namespace_e _ _ => et_namespace_e | initializer _ _ => et_initializer
  | fallthrough _ => et_fallthrough | nil_literal _ => et_nil_literal
  | type_literal _ => et_type_literal | float_literal _ _ _ => et_float_literal
  | string_literal _ => et_string_literal
  | boolean_literal _ _ => et_boolean_literal
  | integer_literal _ _ => et_integer_literal
  | character_literal _ _ => et_character_literal
  | argument_list _ _ _ _ => et_argument_list
  | assembly_label _ _ => et_assembly_label
  | unary_operator _ _ _ => et_unary_operator
  | binary_operator _ _ _ _ _ => et_binary_operator
  | identifier_reference _ _ _ => et_identifier_reference
  | assembly_literal_label _ _ => et_assembly_literal_label
  | other_element _ k => k
  end.

(** [element::as_integer]: only an integer literal answers. *)
Definition as_integer (e : element) : option Z :=
  match e with
  | integer_literal _ v => Some v
  | _ => None
  end.

(** *** Session and emitter state *)

(** [flow_control_t]: the labels are assembler named references, the
    predecessor a block, and [values] a map from the three keys
    [switch_expression], [next_element] and [previous_element] to element
    pointers (an absent key is [None], a stored null pointer is
    [Some None]). *)
Record flow_control_t := {
  exit_label : option assembler_named_ref_t;
  continue_label : option assembler_named_ref_t;
  fc_fallthrough : bool;
  predecessor : option nat;
  values_switch_expression : option (option element);
  values_next_element : option (option element);
  values_previous_element : option (option element);
}.

Definition make_flow_control (exit continue : option assembler_named_ref_t)
  : flow_control_t :=
  {| exit_label := exit; continue_label := continue;
     fc_fallthrough := false; predecessor := None;
     values_switch_expression := None;
     values_next_element := None;
     values_previous_element := None |}.

Record message_t := {
  code : string;
  message : string;
}.

(** [vm::function_signature_t] as the call site uses it. *)
Record ffi_function_t := {
  is_variadic : bool;
  call_site_arguments : list (N * list Z);
}.

(** Everything [emit_element] reads or writes: the assembler's block list
    (a block is named by its position), the label map, the emitter's
    flow-control stack (the top is the last entry), the session's element
    map with the id pool behind the builder, the collected messages, the
    [allocated_size] of each argument list, the interned strings, the
    foreign functions and the assembler's locals. *)
Record session := {
  blocks : list basic_block;
  labels_map : list (string * nat);
  cfg_edges : list (nat * string);
  control_flow_stack : list flow_control_t;
  elements_map : gmap N element;
  id_pool : N;
  messages : list message_t;
  allocated_sizes : gmap N Z;
  interned_strings : gmap N N;
  ffi_functions : gmap Z ffi_function_t;
  assembler_locals : list string;
}.

Definition set_blocks (f : list basic_block -> list basic_block) (s : session) : session :=
  {| blocks := f (blocks s); labels_map := labels_map s; cfg_edges := cfg_edges s;
     control_flow_stack := control_flow_stack s; elements_map := elements_map s;
     id_pool := id_pool s; messages := messages s;
     allocated_sizes := allocated_sizes s; interned_strings := interned_strings s;
     ffi_functions := ffi_functions s; assembler_locals := assembler_locals s |}.

Definition set_labels_map (f : list (string * nat) -> list (string * nat)) (s : session) : session :=
  {| blocks := blocks s; labels_map := f (labels_map s); cfg_edges := cfg_edges s;
     control_flow_stack := control_flow_stack s; elements_map := elements_map s;
     id_pool := id_pool s; messages := messages s;
     allocated_sizes := allocated_sizes s; interned_strings := interned_strings s;
     ffi_functions := ffi_functions s; assembler_locals := assembler_locals s |}.

Definition set_cfg_edges (f : list (nat * string) -> list (nat * string)) (s : session) : session :=
  {| blocks := blocks s; labels_map := labels_map s; cfg_edges := f (cfg_edges s);
     control_flow_stack := control_flow_stack s; elements_map := elements_map s;
     id_pool := id_pool s; messages := messages s;
     allocated_sizes := allocated_sizes s; interned_strings := interned_strings s;
     ffi_functions := ffi_functions s; assembler_locals := assembler_locals s |}.

Definition set_control_flow_stack (f : list flow_control_t -> list flow_control_t)
           (s : session) : session :=
  {| blocks := blocks s; labels_map := labels_map s; cfg_edges := cfg_edges s;
     control_flow_stack := f (control_flow_stack s); elements_map := elements_map s;
     id_pool := id_pool s; messages := messages s;
     allocated_sizes := allocated_sizes s; interned_strings := interned_strings s;
     ffi_functions := ffi_functions s; assembler_locals := assembler_locals s |}.

Definition set_elements_map (f : gmap N element -> gmap N element) (s : session) : session :=
  {| blocks := blocks s; labels_map := labels_map s; cfg_edges := cfg_edges s;
     control_flow_stack := control_flow_stack s; elements_map := f (elements_map s);
     id_pool := id_pool s; messages := messages s;
     allocated_sizes := allocated_sizes s; interned_strings := interned_strings s;
     ffi_functions := ffi_functions s; assembler_locals := assembler_locals s |}.

Definition set_id_pool (f : N -> N) (s : session) : session :=
  {| blocks := blocks s; labels_map := labels_map s; cfg_edges := cfg_edges s;
     control_flow_stack := control_flow_stack s; elements_map := elements_map s;
     id_pool := f (id_pool s); messages := messages s;
     allocated_sizes := allocated_sizes s; interned_strings := interned_strings s;
     ffi_functions := ffi_functions s; assembler_locals := assembler_locals s |}.

Definition set_messages (f : list message_t -> list message_t) (s : session) : session :=
  {| blocks := blocks s; labels_map := labels_map s; cfg_edges := cfg_edges s;
     control_flow_stack := control_flow_stack s; elements_map := elements_map s;
     id_pool := id_pool s; messages := f (messages s);
     allocated_sizes := allocated_sizes s; interned_strings := interned_strings s;
     ffi_functions := ffi_functions s; assembler_locals := assembler_locals s |}.

Definition set_allocated_sizes (f : gmap N Z -> gmap N Z) (s : session) : session :=
  {| blocks := blocks s; labels_map := labels_map s; cfg_edges := cfg_edges s;
     control_flow_stack := control_flow_stack s; elements_map := elements_map s;
     id_pool := id_pool s; messages := messages s;
     allocated_sizes := f (allocated_sizes s); interned_strings := interned_strings s;
     ffi_functions := ffi_functions s; assembler_locals := assembler_locals s |}.

Definition set_ffi_functions (f : gmap Z ffi_function_t -> gmap Z ffi_function_t)
           (s : session) : session :=
  {| blocks := blocks s; labels_map := labels_map s; cfg_edges := cfg_edges s;
     control_flow_stack := control_flow_stack s; elements_map := elements_map s;
     id_pool := id_pool s; messages := messages s;
     allocated_sizes := allocated_sizes s; interned_strings := interned_strings s;
     ffi_functions := f (ffi_functions s); assembler_locals := assembler_locals s |}.

(** *** The emitter monad

    A member function returns [true] ([Ok]) or [false] ([Failed]) and
    leaves a session behind.  [Undefined] stands for the behaviours C++
    leaves undefined and the emitter never guards: dereferencing a null
    pointer, [back()] or [front()] of an empty vector, a failing
    [boost::any_cast].  [OutOfFuel] belongs to the model only. *)
Inductive outcome (A : Type) :=
| Ok (a : A) (s : session)
| Failed (s : session)
| Undefined
| OutOfFuel.
Arguments Ok {A} a s.
Arguments Failed {A} s.
Arguments Undefined {A}.
Arguments OutOfFuel {A}.

Definition M (A : Type) : Type := session -> outcome A.

Definition ret {A} (a : A) : M A := fun s => Ok a s.

Definition bind {A B} (m : M A) (k : A -> M B) : M B :=
  fun s =>
    match m s with
    | Ok a s' => k a s'
    | Failed s' => Failed s'
    | Undefined => Undefined
    | OutOfFuel => OutOfFuel
    end.

Declare Scope emit_scope.
Delimit Scope emit_scope with emit.
Notation "'do' x <- m ; k" := (bind m (fun x => k))
  (at level 10, x name, m at level 100, k at level 200) : emit_scope.
Notation "'do' ' p <- m ; k" := (bind m (fun x => match x with p => k end))
  (at level 10, p pattern, m at level 100, k at level 200) : emit_scope.
Notation "m ;; k" := (bind m (fun _ => k))
  (at level 100, k at level 200, right associativity) : emit_scope.
Local Open Scope emit_scope.

(** [return false]. *)
Definition fail {A} : M A := fun s => Failed s.
Definition undefined {A} : M A := fun _ => Undefined.
Definition out_of_fuel {A} : M A := fun _ => OutOfFuel.

Definition get {A} (f : session -> A) : M A := fun s => Ok (f s) s.
Definition modify (f : session -> session) : M unit := fun s => Ok tt (f s).

(** Dereferencing a pointer that may be null. *)
Definition deref {A} (o : option A) : M A :=
  match o with
  | Some a => ret a
  | None => undefined
  end.

(** [std::vector::back] and [front]. *)
Definition back {A} (l : list A) : M A := deref (last l).
Definition front {A} (l : list A) : M A := deref (head l).

(** Modelled from the spec: [defer(...)] of [common/defer.h] is not part of
    the sources.  It registers code that runs when the enclosing scope is
    left, on every path out of it ([return true], [return false] or falling
    off the end). *)
Definition with_defer {A} (cleanup : session -> session) (body : M A) : M A :=
  fun s =>
    match body s with
    | Ok a s' => Ok a (cleanup s')
    | Failed s' => Failed (cleanup s')
    | Undefined => Undefined
    | OutOfFuel => OutOfFuel
    end.

(** [session::error]. *)
Definition error (c m : string) : M unit :=
  modify (set_messages (fun ms => ms ++ [{| code := c; message := m |}])).

(** *** Blocks *)

(** [_blocks.make()] followed by [assembler.blocks().emplace_back(..)]. *)
Definition make_block : M nat :=
  fun s => Ok (length (blocks s)) (set_blocks (fun bs => bs ++ [empty_block]) s).

Definition update_block (b : nat) (f : basic_block -> basic_block) : M unit :=
  modify (set_blocks (alter f b)).

Definition get_block (b : nat) : M basic_block :=
  do bs <- get blocks; deref (bs !! b).

Definition append_instructions (ins : list instruction_t) (b : basic_block) : basic_block :=
  {| bb_labels := bb_labels b; bb_comments := bb_comments b;
     bb_instructions := bb_instructions b ++ ins;
     bb_directives := bb_directives b; bb_locals := bb_locals b;
     bb_predecessors := bb_predecessors b; bb_successors := bb_successors b |}.

Definition append_comment (c : string) (b : basic_block) : basic_block :=
  {| bb_labels := bb_labels b; bb_comments := bb_comments b ++ [c];
     bb_instructions := bb_instructions b;
     bb_directives := bb_directives b; bb_locals := bb_locals b;
     bb_predecessors := bb_predecessors b; bb_successors := bb_successors b |}.

Definition append_label (l : string) (b : basic_block) : basic_block :=
  {| bb_labels := bb_labels b ++ [l]; bb_comments := bb_comments b;
     bb_instructions := bb_instructions b;
     bb_directives := bb_directives b; bb_locals := bb_locals b;
     bb_predecessors := bb_predecessors b; bb_successors := bb_successors b |}.

Definition append_directive (d : directive_t) (b : basic_block) : basic_block :=
  {| bb_labels := bb_labels b; bb_comments := bb_comments b;
     bb_instructions := bb_instructions b;
     bb_directives := bb_directives b ++ [d]; bb_locals := bb_locals b;
     bb_predecessors := bb_predecessors b; bb_successors := bb_successors b |}.

Definition append_predecessors (ps : list nat) (b : basic_block) : basic_block :=
  {| bb_labels := bb_labels b; bb_comments := bb_comments b;
     bb_instructions := bb_instructions b;
     bb_directives := bb_directives b; bb_locals := bb_locals b;
     bb_predecessors := bb_predecessors b ++ ps; bb_successors := bb_successors b |}.

Definition append_successors (ss : list nat) (b : basic_block) : basic_block :=
  {| bb_labels := bb_labels b; bb_comments := bb_comments b;
     bb_instructions := bb_instructions b;
     bb_directives := bb_directives b; bb_locals := bb_locals b;
     bb_predecessors := bb_predecessors b; bb_successors := bb_successors b ++ ss |}.

(** One instruction appended to a block ([block->move(..)], [block->bz(..)]
    and so on). *)
Definition instruction (b : nat) (i : instruction_t) : M unit :=
  update_block b (append_instructions [i]).

Definition comment (b : nat) (c : string) : M unit :=
  update_block b (append_comment c).

(** [block->label(labels.make(name, target))]: the label map binds the
    name to [target], the block [b] lists it. *)
Definition block_label (b : nat) (name : string) (target : nat) : M unit :=
  modify (set_labels_map (fun ls => ls ++ [(name, target)])) ;;
  update_block b (append_label name).

Definition add_predecessors (b : nat) (ps : list nat) : M unit :=
  update_block b (append_predecessors ps).

Definition add_successors (b : nat) (ss : list nat) : M unit :=
  update_block b (append_successors ss).

(** [labels.add_cfg_edge(block, label_name)]. *)
Definition add_cfg_edge (b : nat) (name : string) : M unit :=
  modify (set_cfg_edges (fun es => es ++ [(b, name)])).

Definition label_operand (name : string) : instruction_operand_t :=
  operand_named_ref (make_named_ref ref_label name qword).

(** An operand built from a named reference that may be null. *)
Definition ref_operand (r : option assembler_named_ref_t) : instruction_operand_t :=
  match r with
  | Some r' => operand_named_ref r'
  | None => operand_empty
  end.

(** *** The flow-control stack *)

(** [byte_code_emitter::push_flow_control]. *)
Definition push_flow_control (fc : flow_control_t) : session -> session :=
  set_control_flow_stack (fun st => st ++ [fc]).

(** [byte_code_emitter::pop_flow_control]: returns when the stack is empty,
    and returns otherwise as well. *)
Definition pop_flow_control : session -> session :=
  fun s =>
    match control_flow_stack s with
    | [] => s
    | _ => s
    end.

(** [byte_code_emitter::current_flow_control]: a pointer to the top entry,
    here its position, or null. *)
Definition current_flow_control : M (option nat) :=
  do st <- get control_flow_stack;
  ret (match st with
       | [] => None
       | _ => Some (Nat.pred (length st))
       end).

Definition read_flow_control (i : nat) : M flow_control_t :=
  do st <- get control_flow_stack; deref (st !! i).

Definition write_flow_control (i : nat) (f : flow_control_t -> flow_control_t) : M unit :=
  modify (set_control_flow_stack (alter f i)).

Definition set_fallthrough (v : bool) (fc : flow_control_t) : flow_control_t :=
  {| exit_label := exit_label fc; continue_label := continue_label fc;
     fc_fallthrough := v; predecessor := predecessor fc;
     values_switch_expression := values_switch_expression fc;
     values_next_element := values_next_element fc;
     values_previous_element := values_previous_element fc |}.

Definition set_predecessor (p : option nat) (fc : flow_control_t) : flow_control_t :=
  {| exit_label := exit_label fc; continue_label := continue_label fc;
     fc_fallthrough := fc_fallthrough fc; predecessor := p;
     values_switch_expression := values_switch_expression fc;
     values_next_element := values_next_element fc;
     values_previous_element := values_previous_element fc |}.

Definition set_switch_expression (e : option element) (fc : flow_control_t) : flow_control_t :=
  {| exit_label := exit_label fc; continue_label := continue_label fc;
     fc_fallthrough := fc_fallthrough fc; predecessor := predecessor fc;
     values_switch_expression := Some e;
     values_next_element := values_next_element fc;
     values_previous_element := values_previous_element fc |}.

Definition set_next_previous (next prev : option element) (fc : flow_control_t)
  : flow_control_t :=
  {| exit_label := exit_label fc; continue_label := continue_label fc;
     fc_fallthrough := fc_fallthrough fc; predecessor := predecessor fc;
     values_switch_expression := values_switch_expression fc;
     values_next_element := Some next;
     values_previous_element := Some prev |}.

(** *** The element map and the builder

    Modelled from the spec: [element_map], [element_builder] and
    [common::id_pool] are not part of the sources.  The builder stamps a
    fresh id on every element it makes and stores the element in the
    session's element map; [remove(id)] detaches an element and all its
    owned children.  [binary_operator::on_owned_elements] lists both
    operands; [make_non_owning] empties that list. *)

Definition allocate_id : M N :=
  fun s => Ok (id_pool s) (set_id_pool N.succ s).

Definition opt_list {A} (o : option A) : list A :=
  match o with
  | Some a => [a]
  | None => []
  end.

(** A fold over an element and everything below it: [f] gets the element
    and the results for its children. *)
Fixpoint element_fold {A} (f : element -> list A -> A) (e : element) : A :=
  let go := element_fold f in
  let go_opt (o : option element) :=
    match o with
    | Some x => [go x]
    | None => []
    end in
  f e
    match e with
    | cast _ _ x | transmute _ _ x | run_directive _ x
    | unary_operator _ _ x => [go x]
    | if_e _ p t fb => [go p; go t] ++ go_opt fb
    | with_e _ o | field _ o | defer_e _ o | module_e _ o | break_e _ o
    | if_directive _ o | continue_e _ o | expression _ o | declaration _ o
    | namespace_e _ o | initializer _ o | identifier_reference _ _ o
    | proc_call _ _ _ o => go_opt o
    | for_e _ i x b => [go i; go x; go b]
    | block _ _ _ ss ds => map go ss ++ map go ds
    | case_e _ o s | switch_e _ o s => go_opt o ++ [go s]
    | while_e _ p b => [go p; go b]
    | return_e _ _ xs | intrinsic _ _ xs | assignment_e _ xs
    | argument_list _ _ _ xs => map go xs
    | range_intrinsic _ a b c d k => [go a; go b; go c; go d; go k]
    | statement _ ls o => map go ls ++ go_opt o
    | binary_operator _ _ l r _ => [go l; go r]
    | label _ | assembly_directive _ _ | directive _ _ | identifier _
    | fallthrough _ | nil_literal _ | type_literal _ | float_literal _ _ _
    | string_literal _ | boolean_literal _ _ | integer_literal _ _
    | character_literal _ _ | assembly_label _ _
    | assembly_literal_label _ _ | other_element _ _ => []
    end.

(** The ids that [remove] detaches for an element: its own and those of
    its owned children, where a non-owning binary operator owns none. *)
Definition owned_ids : element -> list N :=
  element_fold (fun e below =>
    match e with
    | binary_operator h _ _ _ true => [id h]
    | _ => element_id e :: concat below
    end).

(** [element_map::remove]. *)
Definition remove (i : N) : session -> session :=
  set_elements_map (fun m =>
    match m !! i with
    | Some e => foldr delete m (owned_ids e)
    | None => m
    end).

(** [binary_operator::on_infer_type]. *)
Definition binary_operator_infer_type (o : operator_type_t) (lhs rhs : element)
  : option type :=
  match o with
  | op_add | modulo | divide | subtract | multiply | exponent | binary_or
  | subscript | binary_and | binary_xor | shift_left | shift_right
  | rotate_left | rotate_right => inferred_type (header lhs)
  | member_access => inferred_type (header rhs)
  | equals | less_than | not_equals | logical_or | logical_and
  | greater_than | less_than_or_equal | greater_than_or_equal =>
      Some (other_type bool_type "bool" 1)
  | _ => None
  end.

(** [element_builder::make_binary_operator]. *)
Definition make_binary_operator (o : operator_type_t) (lhs rhs : element) : M element :=
  do i <- allocate_id;
  let e := binary_operator
             {| id := i;
                label_name := "binary_operator_" +:+ pretty i;
                inferred_type := binary_operator_infer_type o lhs rhs |}
             o lhs rhs false in
  modify (set_elements_map (insert i e)) ;;
  ret e.

(** [element::make_non_owning], on the element and on the map's entry
    for it. *)
Definition make_non_owning (e : element) : M element :=
  let e' := match e with
            | binary_operator h o l r _ => binary_operator h o l r true
            | _ => e
            end in
  modify (set_elements_map (alter (fun _ => e') (element_id e))) ;;
  ret e'.

(** *** Emission results *)

(** [emit_result_t]: the inferred type, the operands produced so far, and
    the [skip_read] mark. *)
Record emit_result_t := {
  er_type : option type;
  er_operands : list instruction_operand_t;
  er_skip_read : bool;
}.

Definition empty_result : emit_result_t :=
  {| er_type := None; er_operands := []; er_skip_read := false |}.

Definition emplace_back (o : instruction_operand_t) (r : emit_result_t) : emit_result_t :=
  {| er_type := er_type r; er_operands := er_operands r ++ [o];
     er_skip_read := er_skip_read r |}.

Definition set_operands (os : list instruction_operand_t) (r : emit_result_t) : emit_result_t :=
  {| er_type := er_type r; er_operands := os; er_skip_read := er_skip_read r |}.

Definition set_skip_read (v : bool) (r : emit_result_t) : emit_result_t :=
  {| er_type := er_type r; er_operands := er_operands r; er_skip_read := v |}.

(** [e->infer_type(_session, result.type_result)]. *)
Definition infer_type (e : element) (r : emit_result_t) : emit_result_t :=
  match inferred_type (header e) with
  | Some t => {| er_type := Some t; er_operands := er_operands r;
                 er_skip_read := er_skip_read r |}
  | None => r
  end.

(** [infer_type_result_t::type_name]. *)
Definition type_name (r : emit_result_t) : string :=
  match er_type r with
  | Some t => symbol_name t
  | None => "unknown"
  end.

(** An emitter takes the current block and the caller's result and gives
    back the block it ends in and the updated result. *)
Definition emitter : Type := nat -> emit_result_t -> M (nat * emit_result_t).

(** Emits each element with a result of its own, threading the block. *)
Fixpoint emit_each (emit : element -> emitter) (es : list element) (bb : nat) : M nat :=
  match es with
  | [] => ret bb
  | e :: es' =>
      do '(bb', _) <- emit e bb empty_result;
      emit_each emit es' bb'
  end.

(** Emits an optional child with a result of its own. *)
Definition emit_optional (emit : element -> emitter) (o : option element) (bb : nat) : M nat :=
  match o with
  | Some e => do '(bb', _) <- emit e bb empty_result; ret bb'
  | None => ret bb
  end.

(** *** Casts *)

Inductive cast_mode_t :=
| noop
| integer_truncate
| integer_sign_extend
| integer_zero_extend
| float_extend
| float_truncate
| float_to_integer
| integer_to_float.

#[global] Instance cast_mode_eq_dec : EqDecision cast_mode_t.
Proof. solve_decision. Defined.

(** The mode selection of the [cast] case, entered once both number
    classes are known not to be [none].  [None] is the null result of
    [dynamic_cast<numeric_type*>] being dereferenced. *)
Definition select_cast_mode (source target : type) : option cast_mode_t :=
  let source_number_class := type_number_class source in
  let source_size := type_size_in_bytes source in
  let target_number_class := type_number_class target in
  let target_size := type_size_in_bytes target in
  if bool_decide (source_number_class = nc_integer)
     && bool_decide (target_number_class = nc_integer) then
    if source_size =? target_size then Some integer_truncate
    else if source_size >? target_size then Some integer_truncate
    else
      match as_numeric_type source with
      | Some k => Some (if is_signed (properties k)
                        then integer_sign_extend
                        else integer_zero_extend)
      | None => None
      end
  else if bool_decide (source_number_class = nc_floating_point)
          && bool_decide (target_number_class = nc_floating_point) then
    if source_size =? target_size then Some float_truncate
    else if source_size >? target_size then Some float_truncate
    else Some float_extend
  else
    if bool_decide (source_number_class = nc_integer) then Some integer_to_float
    else Some float_to_integer.

(** The [switch (mode)] that issues the instruction. *)
Definition cast_instruction (mode : cast_mode_t)
           (target_operand : instruction_operand_t)
           (source_operands : list instruction_operand_t) : M (option instruction_t) :=
  match mode with
  | noop => ret None
  | integer_truncate =>
      do o <- back source_operands; ret (Some (inst move [target_operand; o]))
  | integer_sign_extend =>
      do o <- back source_operands; ret (Some (inst moves [target_operand; o]))
  | integer_zero_extend =>
      do o <- back source_operands; ret (Some (inst movez [target_operand; o]))
  | float_extend | float_truncate | integer_to_float | float_to_integer =>
      do o <- back source_operands; ret (Some (inst convert [target_operand; o]))
  end.

Definition emit_cast (emit : element -> emitter)
           (type_ref : type) (expr : element) : emitter :=
  fun current_block result =>
    do '(bb, expr_result) <- emit expr current_block empty_result;
    do source <- deref (er_type expr_result);
    let source_number_class := type_number_class source in
    let target_number_class := type_number_class type_ref in
    let target_size := type_size_in_bytes type_ref in
    if bool_decide (source_number_class = nc_none) then
      error "C073" ("cannot cast from type: " +:+ type_name expr_result) ;;
      fail
    else if bool_decide (target_number_class = nc_none) then
      error "C073" ("cannot cast to type: " +:+ symbol_name type_ref) ;;
      fail
    else
      do mode <- deref (select_cast_mode source type_ref);
      comment current_block
              ("cast<" +:+ symbol_name type_ref +:+ "> from type "
                       +:+ type_name expr_result) ;;
      let target_operand :=
        operand_named_ref
          (make_named_ref ref_local "" (op_size_for_byte_size target_size)) in
      let result := emplace_back target_operand result in
      do i <- cast_instruction mode target_operand (er_operands expr_result);
      match i with
      | Some i' => instruction current_block i'
      | None => ret tt
      end ;;
      ret (bb, result).

(** *** Transmute *)

Definition emit_transmute (emit : element -> emitter)
           (type_ref : type) (expr : element) : emitter :=
  fun current_block result =>
    do '(bb, expr_result) <- emit expr current_block empty_result;
    do source <- deref (er_type expr_result);
    if bool_decide (type_number_class source = nc_none) then
      error "C073" ("cannot transmute from type: " +:+ type_name expr_result) ;;
      fail
    else if bool_decide (type_number_class type_ref = nc_none) then
      error "C073" ("cannot transmute to type: " +:+ symbol_name type_ref) ;;
      fail
    else
      let target_size := type_size_in_bytes type_ref in
      comment current_block ("transmute<" +:+ symbol_name type_ref +:+ ">") ;;
      let target_operand :=
        operand_named_ref
          (make_named_ref ref_local "" (op_size_for_byte_size target_size)) in
      let result := emplace_back target_operand result in
      do o <- back (er_operands expr_result);
      instruction current_block (inst move [target_operand; o; operand_empty]) ;;
      ret (bb, result).

(** *** If *)

Definition emit_if_e (emit : element -> emitter) (h : element_header)
           (predicate true_branch : element) (false_branch : option element)
  : emitter :=
  fun current_block result =>
    let begin_label_name := label_name h +:+ "_entry" in
    let true_label_name := label_name h +:+ "_true" in
    let false_label_name := label_name h +:+ "_false" in
    let end_label_name := label_name h +:+ "_exit" in
    let result_operand := operand_named_ref (make_named_ref ref_local "" qword) in
    let result := emplace_back result_operand result in
    do predicate_block <- make_block;
    add_predecessors predicate_block [current_block] ;;
    add_successors current_block [predicate_block] ;;
    block_label predicate_block begin_label_name predicate_block ;;
    do '(predicate_block, predicate_result) <- emit predicate predicate_block empty_result;
    do o <- back (er_operands predicate_result);
    instruction predicate_block (inst bz [o; label_operand false_label_name]) ;;
    do true_block <- make_block;
    add_predecessors true_block [predicate_block] ;;
    block_label true_block true_label_name true_block ;;
    do '(true_block, _) <- emit true_branch true_block empty_result;
    do tb <- get_block true_block;
    (if negb (is_current_instruction tb jmp) && negb (is_current_instruction tb rts)
     then instruction true_block (jump_direct (label_operand end_label_name))
     else ret tt) ;;
    do false_block <- make_block;
    add_predecessors false_block [predicate_block] ;;
    block_label false_block false_label_name false_block ;;
    do false_block <-
      match false_branch with
      | Some fb => do '(false_block, _) <- emit fb false_block empty_result;
                   ret false_block
      | None => instruction false_block (inst nop []) ;; ret false_block
      end;
    add_successors predicate_block [true_block; false_block] ;;
    do exit_block <- make_block;
    add_predecessors exit_block [true_block; false_block] ;;
    block_label exit_block end_label_name exit_block ;;
    add_successors true_block [exit_block] ;;
    add_successors false_block [exit_block] ;;
    ret (exit_block, result).

(** *** For over a range *)

(** The operators the [for_e] case derives from the [dir] and [kind]
    arguments. *)
Definition step_op_type (dir_value : Z) : operator_type_t :=
  if dir_value =? 0 then op_add else subtract.

Definition cmp_op_type (dir_value kind_value : Z) : operator_type_t :=
  if kind_value =? 0 then
    if dir_value =? 0 then less_than_or_equal
    else if dir_value =? 1 then greater_than_or_equal
    else less_than
  else if kind_value =? 1 then
    if dir_value =? 0 then less_than
    else if dir_value =? 1 then greater_than
    else less_than
  else less_than.

(** [as_integer] on an argument, with [return false] when it fails. *)
Definition integer_argument (e : element) : M Z :=
  match as_integer e with
  | Some v => ret v
  | None => fail
  end.

Definition emit_for_range (emit : element -> emitter) (h : element_header)
           (induction_identifier : element)
           (start stop step dir kind : element) (body : element) : emitter :=
  fun current_block result =>
    let entry_label_name := label_name h +:+ "_entry" in
    let body_label_name := label_name h +:+ "_body" in
    let exit_label_name := label_name h +:+ "_exit" in
    let begin_label_ref := make_named_ref ref_label entry_label_name qword in
    let exit_label_ref := make_named_ref ref_label exit_label_name qword in
    modify (push_flow_control
              (make_flow_control (Some exit_label_ref) (Some begin_label_ref))) ;;
    with_defer pop_flow_control (
      do induction_init <- make_binary_operator assignment induction_identifier start;
      do induction_init <- make_non_owning induction_init;
      with_defer (remove (element_id induction_init)) (
        do init_block <- make_block;
        add_predecessors init_block [current_block] ;;
        add_successors current_block [init_block] ;;
        do '(_, result) <- emit induction_init init_block result;
        do dir_value <- integer_argument dir;
        do kind_value <- integer_argument kind;
        let step_op := step_op_type dir_value in
        let cmp_op := cmp_op_type dir_value kind_value in
        do predicate_block <- make_block;
        add_predecessors predicate_block [init_block] ;;
        add_successors init_block [predicate_block] ;;
        block_label predicate_block entry_label_name predicate_block ;;
        do comparison_op <- make_binary_operator cmp_op induction_identifier stop;
        do comparison_op <- make_non_owning comparison_op;
        with_defer (remove (element_id comparison_op)) (
          do '(_, cmp_result) <- emit comparison_op predicate_block empty_result;
          do o <- back (er_operands cmp_result);
          instruction predicate_block (inst bz [o; operand_named_ref exit_label_ref]) ;;
          do body_block <- make_block;
          add_predecessors body_block [predicate_block] ;;
          block_label body_block body_label_name body_block ;;
          do '(_, result) <- emit body body_block result;
          do step_block <- make_block;
          add_predecessors step_block [body_block] ;;
          add_successors step_block [predicate_block] ;;
          add_successors body_block [step_block] ;;
          do induction_step <- make_binary_operator step_op induction_identifier step;
          do induction_assign <-
            make_binary_operator assignment induction_identifier induction_step;
          do induction_step <- make_non_owning induction_step;
          do induction_assign <- make_non_owning induction_assign;
          with_defer (fun s => remove (element_id induction_step)
                                 (remove (element_id induction_assign) s)) (
            do '(_, result) <- emit induction_assign step_block result;
            instruction step_block (jump_direct (operand_named_ref begin_label_ref)) ;;
            do exit_block <- make_block;
            add_predecessors exit_block [predicate_block] ;;
            block_label exit_block exit_label_name exit_block ;;
            add_successors predicate_block [body_block; exit_block] ;;
            ret (exit_block, result))))).

Definition emit_for_e (emit : element -> emitter) (h : element_header)
           (induction_identifier for_expr body : element) : emitter :=
  fun current_block result =>
    match for_expr with
    | range_intrinsic _ start stop step dir kind =>
        emit_for_range emit h induction_identifier start stop step dir kind body
                       current_block result
    | intrinsic _ name _ =>
        if bool_decide (name = "range") then undefined
        else ret (current_block, result)
    | _ =>
        comment current_block "XXX: unsupported scenario" ;;
        ret (current_block, result)
    end.

(** *** Blocks and statements *)

(** [byte_code_emitter::begin_stack_frame]. *)
Definition begin_stack_frame (current_block : nat)
           (has_stack_frame parent_is_directive : bool) : M unit :=
  if parent_is_directive then ret tt
  else if has_stack_frame then
    instruction current_block (inst push [operand_fp]) ;;
    instruction current_block (inst move [operand_fp; operand_sp])
  else ret tt.

(** [byte_code_emitter::end_stack_frame]; the exit block it makes does not
    become the current block. *)
Definition end_stack_frame (current_block : nat) (has_stack_frame : bool) : M unit :=
  if negb has_stack_frame then ret tt
  else
    do exit_block <- make_block;
    add_predecessors exit_block [current_block] ;;
    do cb <- get_block current_block;
    if negb (is_current_instruction cb rts) && has_stack_frame then
      instruction exit_block (inst move [operand_sp; operand_fp]) ;;
      instruction exit_block (inst pop [operand_fp])
    else ret tt.

(** The statement loop of [emit_block]; [prev] is [statements[index - 1]]. *)
Fixpoint emit_statements (emit : element -> emitter) (prev : option element)
         (stmts : list element) (bb : nat) : M nat :=
  match stmts with
  | [] => ret bb
  | stmt :: rest =>
      match stmt with
      | statement _ lbls expr =>
          do bb <- emit_each emit lbls bb;
          match expr with
          | Some (defer_e _ _) => emit_statements emit (Some stmt) rest bb
          | _ =>
              do flow_control <- current_flow_control;
              match flow_control with
              | Some i => write_flow_control i (set_next_previous (head rest) prev)
              | None => ret tt
              end ;;
              do '(bb, _) <- emit stmt bb empty_result;
              emit_statements emit (Some stmt) rest bb
          end
      | _ => undefined
      end
  end.

(** [byte_code_emitter::emit_block]; [defer_stack] lists the deferred
    elements from the top of the stack down. *)
Definition emit_block (emit : element -> emitter)
           (has_stack_frame parent_is_directive : bool)
           (stmts defer_stack : list element) (bb : nat) : M nat :=
  begin_stack_frame bb has_stack_frame parent_is_directive ;;
  do bb <- emit_statements emit None stmts bb;
  do bb <- emit_each emit defer_stack bb;
  end_stack_frame bb has_stack_frame ;;
  ret bb.

(** *** Switch and case *)

(** The label a [fallthrough] jumps to: the true label of the next
    statement's case. *)
Definition next_case_label (next : option element) : M (option assembler_named_ref_t) :=
  match next with
  | Some (statement _ _ stmt_expr) =>
      do e <- deref stmt_expr;
      match e with
      | case_e nh _ _ =>
          ret (Some (make_named_ref ref_label (label_name nh +:+ "_true") qword))
      | _ => ret None
      end
  | _ => ret None
  end.

Definition emit_case_e (emit : element -> emitter) (h : element_header)
           (case_expr : option element) (scope : element) : emitter :=
  fun current_block result =>
    let true_label_name := label_name h +:+ "_true" in
    let false_label_name := label_name h +:+ "_false" in
    do flow_control <- current_flow_control;
    match flow_control with
    | None => fail
    | Some fc =>
        write_flow_control fc (set_fallthrough false) ;;
        do '(predicate_block, bb, fallthrough_label) <-
          match case_expr with
          | None => ret (None, current_block, None)
          | Some case_expression =>
              do control <- read_flow_control fc;
              do next <- deref (values_next_element control);
              do fallthrough_label <- next_case_label next;
              do switch_expr <- deref (values_switch_expression control);
              do switch_expr <- deref switch_expr;
              do equals_op <- make_binary_operator equals switch_expr case_expression;
              do equals_op <- make_non_owning equals_op;
              with_defer (remove (element_id equals_op)) (
                do predicate_block <- make_block;
                do control <- read_flow_control fc;
                match predecessor control with
                | Some p =>
                    add_successors p [predicate_block] ;;
                    add_predecessors predicate_block [p]
                | None => add_predecessors predicate_block [current_block]
                end ;;
                write_flow_control fc (set_predecessor (Some predicate_block)) ;;
                do '(bb, equals_result) <- emit equals_op predicate_block empty_result;
                do o <- back (er_operands equals_result);
                instruction predicate_block
                            (inst bz [o; label_operand false_label_name]) ;;
                ret (Some predicate_block, bb, fallthrough_label))
          end;
        do true_block <- make_block;
        add_predecessors true_block [bb] ;;
        block_label true_block true_label_name true_block ;;
        do '(_, result) <- emit scope true_block result;
        match case_expr with
        | None => ret tt
        | Some _ =>
            do control <- read_flow_control fc;
            if fc_fallthrough control then
              do target <- deref fallthrough_label;
              instruction true_block (jump_direct (operand_named_ref target)) ;;
              add_cfg_edge true_block (ref_name target)
            else
              instruction true_block (jump_direct (ref_operand (exit_label control)))
        end ;;
        do exit_block <- make_block;
        block_label exit_block false_label_name exit_block ;;
        add_predecessors true_block (opt_list predicate_block) ;;
        add_successors true_block [exit_block] ;;
        add_predecessors exit_block (opt_list predicate_block) ;;
        match predicate_block with
        | Some p => add_successors p [true_block; exit_block]
        | None => ret tt
        end ;;
        ret (exit_block, result)
    end.

Definition emit_switch_e (emit : element -> emitter) (h : element_header)
           (switch_expr : option element) (scope : element) : emitter :=
  fun current_block result =>
    let begin_label_name := label_name h +:+ "_entry" in
    let exit_label_name := label_name h +:+ "_exit" in
    let exit_label_ref := make_named_ref ref_label exit_label_name qword in
    let flow_control :=
      set_switch_expression switch_expr
                            (make_flow_control (Some exit_label_ref) None) in
    modify (push_flow_control flow_control) ;;
    with_defer pop_flow_control (
      do entry_block <- make_block;
      add_successors current_block [entry_block] ;;
      add_predecessors entry_block [current_block] ;;
      block_label entry_block begin_label_name entry_block ;;
      do '(_, result) <- emit scope entry_block result;
      do exit_block <- make_block;
      add_predecessors exit_block [entry_block] ;;
      block_label exit_block exit_label_name exit_block ;;
      instruction exit_block (inst nop []) ;;
      ret (exit_block, result)).

(** *** Break, continue, fallthrough *)

(** The shared shape of [break_e] and [continue_e]: [pick] reads the
    record's exit or continue label, [what] names it in the messages. *)
Definition emit_jump_out (pick : flow_control_t -> option assembler_named_ref_t)
           (what : string) (lbl : option element) : emitter :=
  fun current_block result =>
    do label_ref <-
      match lbl with
      | Some l => ret (make_named_ref ref_label (element_label_name l) qword)
      | None =>
          do flow_control <- current_flow_control;
          match flow_control with
          | None =>
              error "P081" ("no valid " +:+ what +:+ " label on stack.") ;; fail
          | Some fc =>
              do control <- read_flow_control fc;
              match pick control with
              | None =>
                  error "P081" ("no valid " +:+ what +:+ " label on stack.") ;; fail
              | Some r => ret r
              end
          end
      end;
    let label_name := ref_name label_ref in
    do exit_block <- make_block;
    add_predecessors exit_block [current_block] ;;
    comment exit_block
            ((if bool_decide (what = "exit") then "break: " else "continue: ")
               +:+ label_name) ;;
    instruction exit_block (jump_direct (operand_named_ref label_ref)) ;;
    add_cfg_edge exit_block label_name ;;
    ret (exit_block, result).

Definition emit_break_e : option element -> emitter := emit_jump_out exit_label "exit".
Definition emit_continue_e : option element -> emitter :=
  emit_jump_out continue_label "continue".

Definition emit_fallthrough : emitter :=
  fun current_block result =>
    do flow_control <- current_flow_control;
    match flow_control with
    | Some fc =>
        write_flow_control fc (set_fallthrough true) ;;
        ret (current_block, result)
    | None =>
        error "X000" "fallthrough is only valid within a case." ;;
        fail
    end.

(** *** While *)

Definition emit_while_e (emit : element -> emitter) (h : element_header)
           (predicate body : element) : emitter :=
  fun current_block result =>
    let entry_label_name := label_name h +:+ "_entry" in
    let body_label_name := label_name h +:+ "_body" in
    let exit_label_name := label_name h +:+ "_exit" in
    let entry_label_ref := make_named_ref ref_label entry_label_name qword in
    let exit_label_ref := make_named_ref ref_label exit_label_name qword in
    modify (push_flow_control
              (make_flow_control (Some exit_label_ref) (Some entry_label_ref))) ;;
    with_defer pop_flow_control (
      do predicate_block <- make_block;
      add_predecessors predicate_block [current_block] ;;
      block_label predicate_block entry_label_name predicate_block ;;
      do '(_, predicate_result) <- emit predicate predicate_block empty_result;
      do o <- back (er_operands predicate_result);
      instruction predicate_block (inst bz [o; operand_named_ref exit_label_ref]) ;;
      do body_block <- make_block;
      add_predecessors body_block [predicate_block] ;;
      add_successors body_block [predicate_block] ;;
      block_label body_block body_label_name body_block ;;
      do '(_, result) <- emit body body_block result;
      instruction body_block (jump_direct (operand_named_ref entry_label_ref)) ;;
      do exit_block <- make_block;
      add_predecessors exit_block [predicate_block] ;;
      block_label exit_block exit_label_name exit_block ;;
      instruction exit_block (inst nop []) ;;
      add_successors predicate_block [body_block; exit_block] ;;
      ret (exit_block, result)).

(** *** Return *)

Definition emit_return_e (emit : element -> emitter)
           (return_field : option string) (exprs : list element) : emitter :=
  fun current_block result =>
    do return_block <- make_block;
    add_predecessors return_block [current_block] ;;
    add_successors current_block [return_block] ;;
    do bb <-
      match return_field with
      | Some field_label =>
          do first <- front exprs;
          do '(bb, expr_result) <- emit first return_block empty_result;
          do o <- back (er_operands expr_result);
          instruction return_block
                      (inst store [operand_named_ref
                                     (make_named_ref ref_local field_label qword); o]) ;;
          ret bb
      | None => ret return_block
      end;
    instruction return_block (inst move [operand_sp; operand_fp]) ;;
    instruction return_block (inst pop [operand_fp]) ;;
    instruction return_block (inst rts []) ;;
    ret (bb, result).

(** *** Intrinsics and directives *)

Definition is_empty (o : instruction_operand_t) : bool :=
  match o with
  | operand_empty => true
  | _ => false
  end.

Definition emit_intrinsic (emit : element -> emitter) (name : string)
           (args : list element) : emitter :=
  fun current_block result =>
    if bool_decide (name = "address_of") then
      do arg <- deref (args !! 0%nat);
      do '(bb, arg_result) <- emit arg current_block empty_result;
      let has_offset := bool_decide (length (er_operands arg_result) = 2%nat) in
      do temp <- front (er_operands arg_result);
      do offset <- (if has_offset then deref (er_operands arg_result !! 1%nat)
                    else ret operand_empty);
      (if negb (is_empty offset)
       then instruction current_block (inst move [temp; temp; offset])
       else ret tt) ;;
      ret (bb, set_operands [temp] (set_skip_read true result))
    else if bool_decide (name = "alloc") then
      do arg <- deref (args !! 0%nat);
      do '(bb, arg_result) <- emit arg current_block empty_result;
      let result_operand := operand_named_ref (make_named_ref ref_local "" qword) in
      let result := emplace_back result_operand result in
      do o <- back (er_operands arg_result);
      instruction current_block (sized_inst alloc byte [result_operand; o]) ;;
      ret (bb, result)
    else if bool_decide (name = "free") then
      do arg <- deref (args !! 0%nat);
      do '(bb, arg_result) <- emit arg current_block empty_result;
      do o <- back (er_operands arg_result);
      instruction current_block (inst free [o]) ;;
      ret (bb, result)
    else if bool_decide (name = "fill") then
      do dest_arg <- deref (args !! 0%nat);
      do value_arg <- deref (args !! 1%nat);
      do length_arg <- deref (args !! 2%nat);
      do '(bb, dest_arg_result) <- emit dest_arg current_block empty_result;
      do '(bb, value_arg_result) <- emit value_arg bb empty_result;
      do '(bb, length_arg_result) <- emit length_arg bb empty_result;
      do d <- back (er_operands dest_arg_result);
      do v <- back (er_operands value_arg_result);
      do l <- back (er_operands length_arg_result);
      instruction current_block (sized_inst fill byte [d; v; l]) ;;
      ret (bb, result)
    else if bool_decide (name = "copy") then
      do dest_arg <- deref (args !! 0%nat);
      do src_arg <- deref (args !! 1%nat);
      do size_arg <- deref (args !! 2%nat);
      do '(bb, dest_arg_result) <- emit dest_arg current_block empty_result;
      do '(bb, src_arg_result) <- emit src_arg bb empty_result;
      do '(bb, size_arg_result) <- emit size_arg bb empty_result;
      do d <- back (er_operands dest_arg_result);
      do s <- back (er_operands src_arg_result);
      do z <- back (er_operands size_arg_result);
      instruction current_block (sized_inst copy byte [d; s; z]) ;;
      ret (bb, result)
    else ret (current_block, result).

(** The [assembly] directive: [assembled] is what loading and assembling
    the raw block yields, or [None] when either fails. *)
Definition emit_assembly_directive (assembled : option (list instruction_t)) : emitter :=
  fun current_block result =>
    match assembled with
    | Some ins =>
        update_block current_block (append_instructions ins) ;;
        ret (current_block, result)
    | None => fail
    end.

Definition emit_if_directive (emit : element -> emitter)
           (true_body : option element) : emitter :=
  fun current_block result =>
    match true_body with
    | Some true_expr =>
        comment current_block "directive: if/elif/else" ;;
        do '(bb, _) <- emit true_expr current_block empty_result;
        ret (bb, result)
    | None => ret (current_block, result)
    end.

Definition emit_run_directive (emit : element -> emitter) (expr : element) : emitter :=
  fun current_block result =>
    comment current_block "directive: run" ;;
    update_block current_block (append_directive meta_begin) ;;
    do '(bb, _) <- emit expr current_block empty_result;
    update_block current_block (append_directive meta_end) ;;
    ret (bb, result).

(** *** Procedure calls *)

(** Modelled from the spec: [common::align] is not part of the sources;
    it rounds a size up to the next multiple of the alignment. *)
Definition align (size alignment : Z) : Z :=
  if (0 <? alignment) && negb (size mod alignment =? 0)
  then size + (alignment - size mod alignment)
  else size.

(** Modelled from the spec: [basic_block::push_locals] and [pop_locals] are
    not part of the sources.  The prologue pushes the live locals of the
    caller's frame, the epilogue pops them in the reverse order; the local
    that takes the return value is left out. *)
Definition local_operand (name : string) : instruction_operand_t :=
  operand_named_ref (make_named_ref ref_local name qword).

Definition push_locals (b : nat) (locals : list string) (excluded : string) : M unit :=
  update_block b (append_instructions
    (map (fun l => inst push [local_operand l])
         (filter (fun l => l <> excluded) locals))).

Definition pop_locals (b : nat) (locals : list string) (excluded : string) : M unit :=
  update_block b (append_instructions
    (map (fun l => inst pop [local_operand l])
         (rev (filter (fun l => l <> excluded) locals)))).

(** [argument_list::allocated_size], kept per argument list. *)
Definition allocated_size (arg_list : N) : M Z :=
  do m <- get allocated_sizes; ret (default 0 (m !! arg_list)).

Definition set_allocated_size (arg_list : N) (v : Z) : M unit :=
  modify (set_allocated_sizes (insert arg_list v)).

(** The kinds of argument that [emit_arguments] evaluates and pushes. *)
Definition is_pushed_argument (k : element_type_t) : bool :=
  match k with
  | et_cast | et_transmute | et_proc_call | et_intrinsic | et_expression
  | et_nil_literal | et_float_literal | et_string_literal
  | et_unary_operator | et_assembly_label | et_binary_operator
  | et_boolean_literal | et_integer_literal | et_character_literal
  | et_identifier_reference => true
  | _ => false
  end.

(** One trip round the loop of [emit_arguments] for an argument that is
    not itself a list. *)
Definition emit_argument (emit : element -> emitter) (is_foreign_call : bool)
           (arg : element) (bb : nat) : M (nat * option type) :=
  if is_pushed_argument (element_kind arg) then
    do '(bb, arg_result) <- emit arg bb empty_result;
    let current_block := bb in
    if negb is_foreign_call then
      do type <- deref (er_type arg_result);
      match element_type type with
      | et_array_type | et_tuple_type | et_composite_type =>
          let size := align (type_size_in_bytes type) 8 in
          instruction current_block
                      (inst sub [operand_sp; operand_sp; operand_integer size word]) ;;
          do o <- back (er_operands arg_result);
          instruction current_block
                      (sized_inst copy byte [operand_sp; o; operand_integer size word])
      | _ =>
          do o <- back (er_operands arg_result);
          instruction current_block (inst push [o])
      end ;;
      ret (bb, Some type)
    else
      do o <- back (er_operands arg_result);
      instruction current_block (inst push [o]) ;;
      ret (bb, None)
  else ret (bb, None).

(** The loop of [emit_arguments] over the reversed elements. *)
Fixpoint emit_arguments_loop (emit : element -> emitter)
         (emit_args : N -> bool -> list element -> nat -> M nat)
         (arg_list : N) (is_foreign_call : bool)
         (reversed : list element) (bb : nat) : M nat :=
  match reversed with
  | [] => ret bb
  | arg :: rest =>
      do '(bb, type) <-
        match arg with
        | argument_list lh lforeign _ lelements =>
            do bb <- emit_args (id lh) lforeign lelements bb;
            ret (bb, None)
        | _ => emit_argument emit is_foreign_call arg bb
        end;
      match type with
      | Some t =>
          let size := align (type_size_in_bytes t) 8 in
          do old <- allocated_size arg_list;
          set_allocated_size arg_list (old + size)
      | None => ret tt
      end ;;
      emit_arguments_loop emit emit_args arg_list is_foreign_call rest bb
  end.

Definition as_argument_list (e : element)
  : option (element_header * bool * option (list Z) * list element) :=
  match e with
  | argument_list h f a es => Some (h, f, a, es)
  | _ => None
  end.

Definition record_call_site (address : Z) (signature_id : N) (args : list Z)
  : session -> session :=
  set_ffi_functions (alter (fun f =>
    {| is_variadic := is_variadic f;
       call_site_arguments := call_site_arguments f ++ [(signature_id, args)] |})
    address).

Definition emit_proc_call (emit : element -> emitter) (h : element_header)
           (procedure_type : procedure_type_t) (label : string)
           (arguments : option element) : emitter :=
  fun current_block result =>
    let foreign := is_foreign procedure_type in
    let return_temp_name := "" in
    let return_type := default None (return_type procedure_type) in
    let target_size :=
      match return_type with
      | Some t => type_size_in_bytes t
      | None => 8
      end in
    do cb <- get_block current_block;
    let sorted_locals := bb_locals cb in
    do prologue_block <- make_block;
    add_predecessors prologue_block [current_block] ;;
    add_successors current_block [prologue_block] ;;
    block_label prologue_block (label_name h +:+ "_prologue") prologue_block ;;
    (if negb foreign then push_locals prologue_block sorted_locals return_temp_name
     else ret tt) ;;
    do prologue_block <- emit_optional emit arguments prologue_block;
    (if negb foreign && bool_decide (return_type <> None) then
       comment prologue_block "return slot" ;;
       instruction prologue_block
                   (inst sub [operand_sp; operand_sp; operand_integer 8 byte])
     else ret tt) ;;
    do call_block <- make_block;
    add_predecessors call_block [prologue_block] ;;
    add_successors prologue_block [call_block] ;;
    block_label call_block (label_name h +:+ "_invoke") call_block ;;
    (if foreign then
       do functions <- get ffi_functions;
       match functions !! foreign_address procedure_type with
       | None =>
           error "X000" ("unable to find foreign function by address: "
                           +:+ pretty (foreign_address procedure_type)) ;;
           fail
       | Some func =>
           comment call_block ("call: " +:+ label) ;;
           let address_operand := operand_address (foreign_address procedure_type) in
           if is_variadic func then
             do arg_list <- deref arguments;
             do '(_, _, ffi_args, _) <- deref (as_argument_list arg_list);
             match ffi_args with
             | None => fail
             | Some args =>
                 do signature_id <- allocate_id;
                 modify (record_call_site (foreign_address procedure_type)
                                          signature_id args) ;;
                 instruction call_block
                             (inst ffi [address_operand;
                                        operand_integer (Z.of_N signature_id) dword])
             end
           else instruction call_block (inst ffi [address_operand])
       end
     else
       comment call_block ("call: " +:+ label) ;;
       instruction call_block (inst jsr [label_operand label]) ;;
       add_cfg_edge call_block label) ;;
    do epilogue_block <- make_block;
    add_predecessors epilogue_block [call_block] ;;
    add_successors call_block [epilogue_block] ;;
    block_label epilogue_block (label_name h +:+ "_epilogue") epilogue_block ;;
    do result <-
      (if negb (bool_decide (return_temp_name = "")) then
         let result_operand :=
           operand_named_ref
             (make_named_ref ref_local return_temp_name
                             (op_size_for_byte_size target_size)) in
         instruction epilogue_block (inst pop [result_operand]) ;;
         ret (emplace_back result_operand result)
       else ret result);
    do arg_list <- deref arguments;
    do '(ah, _, _, _) <- deref (as_argument_list arg_list);
    do allocated <- allocated_size (id ah);
    (if 0 <? allocated then
       comment epilogue_block "free stack space" ;;
       instruction epilogue_block
                   (inst add [operand_sp; operand_sp; operand_integer allocated word])
     else ret tt) ;;
    (if negb foreign then pop_locals epilogue_block sorted_locals return_temp_name
     else ret tt) ;;
    ret (epilogue_block, result).

(** *** Leaves *)

Definition emit_identifier (h : element_header) : emitter :=
  fun current_block result =>
    let op_size :=
      match er_type result with
      | Some t => if negb (is_composite_type t)
                  then op_size_for_byte_size (type_size_in_bytes t)
                  else qword
      | None => qword
      end in
    ret (current_block,
         emplace_back (operand_named_ref
                         (make_named_ref ref_local (label_name h) op_size)) result).

(** [byte_code_emitter::interned_string_data_label]; an element that was
    never interned leaves [intern_id] indeterminate. *)
Definition interned_string_data_label (element_id : N) : M string :=
  do m <- get interned_strings;
  do intern_id <- deref (m !! element_id);
  ret ("_intern_str_lit_" +:+ pretty intern_id +:+ "_data").

Definition emit_string_literal (h : element_header) : emitter :=
  fun current_block result =>
    do l <- interned_string_data_label (id h);
    ret (current_block, emplace_back (label_operand l) result).

Definition emit_integer_literal (value : Z) : emitter :=
  fun current_block result =>
    do t <- deref (er_type result);
    let size := type_size_in_bytes t in
    ret (current_block,
         emplace_back (operand_integer value (op_size_for_byte_size size)) result).

Definition emit_assembly_label (name : string) : emitter :=
  fun current_block result =>
    do locals <- get assembler_locals;
    if bool_decide (name ∈ locals) then
      ret (current_block,
           emplace_back (operand_named_ref (make_named_ref ref_local name qword)) result)
    else
      ret (current_block,
           emplace_back (operand_named_ref (make_named_ref ref_label name qword)) result).

(** *** Unary operators *)

Definition emit_unary_operator (emit : element -> emitter)
           (op_type : operator_type_t) (rhs : element) : emitter :=
  fun current_block result =>
    do '(bb, rhs_emit_result) <- emit rhs current_block empty_result;
    do rhs_type <- deref (er_type rhs_emit_result);
    let composite := is_composite_type rhs_type in
    do result_type <- deref (er_type result);
    do size <-
      (if bool_decide (op_type = pointer_dereference) && negb composite then
         match result_type with
         | pointer_type base _ =>
             ret (op_size_for_byte_size (type_size_in_bytes (base_type_ref base)))
         | _ => undefined
         end
       else ret (op_size_for_byte_size (type_size_in_bytes result_type)));
    let result_operand := operand_named_ref (make_named_ref ref_local "" size) in
    match op_type with
    | negate =>
        comment current_block "unary_op: negate" ;;
        do o <- back (er_operands rhs_emit_result);
        instruction current_block (inst neg [result_operand; o]) ;;
        ret (bb, emplace_back result_operand result)
    | binary_not =>
        comment current_block "unary_op: binary not" ;;
        do o <- back (er_operands rhs_emit_result);
        instruction current_block (inst not_op [result_operand; o]) ;;
        ret (bb, emplace_back result_operand result)
    | logical_not =>
        comment current_block "unary_op: logical not" ;;
        do o <- back (er_operands rhs_emit_result);
        instruction current_block
                    (sized_inst cmp (operand_size result_operand)
                                [o; operand_integer 1 byte]) ;;
        instruction current_block (inst setnz [result_operand]) ;;
        ret (bb, emplace_back result_operand result)
    | pointer_dereference =>
        do o <- back (er_operands rhs_emit_result);
        if negb composite then
          instruction current_block (inst load [result_operand; o]) ;;
          ret (bb, emplace_back result_operand result)
        else ret (bb, emplace_back o result)
    | _ => ret (bb, result)
    end.

(** *** Binary operators *)

Definition is_logical_conjunction_operator (o : operator_type_t) : bool :=
  match o with
  | logical_or | logical_and => true
  | _ => false
  end.

(** The [set..] instruction of a comparison. *)
Definition comparison_op_code (o : operator_type_t) (signed : bool) : option op_codes :=
  match o with
  | equals => Some setz
  | less_than => Some (if signed then setl else setb)
  | not_equals => Some setnz
  | greater_than => Some (if signed then setg else seta)
  | less_than_or_equal => Some (if signed then setle else setbe)
  | greater_than_or_equal => Some (if signed then setge else setae)
  | _ => None
  end.

(** [byte_code_emitter::emit_relational_operator]. *)
Definition emit_relational_operator (emit : element -> emitter) (h : element_header)
           (op_type : operator_type_t) (lhs rhs : element) : emitter :=
  fun bb result =>
    let exit_label_name := label_name h +:+ "_exit" in
    let exit_label_ref := make_named_ref ref_label exit_label_name qword in
    let result_operand := operand_named_ref (make_named_ref ref_local "" byte) in
    let result := emplace_back result_operand result in
    do '(bb, lhs_result) <- emit lhs bb empty_result;
    do '(bb, rhs_result) <- emit rhs bb empty_result;
    let current_block := bb in
    do lhs_type <- deref (er_type lhs_result);
    let signed := type_is_signed lhs_type in
    do bb <-
      (if is_logical_conjunction_operator op_type then
         let lhs_eval_label_name := label_name h +:+ "_lhs_eval" in
         let rhs_eval_label_name := label_name h +:+ "_rhs_eval" in
         block_label current_block lhs_eval_label_name current_block ;;
         do l <- back (er_operands lhs_result);
         instruction current_block (inst move [result_operand; l]) ;;
         match op_type with
         | logical_or =>
             instruction current_block
                         (inst bnz [result_operand; operand_named_ref exit_label_ref])
         | logical_and =>
             instruction current_block
                         (inst bz [result_operand; operand_named_ref exit_label_ref])
         | _ => ret tt
         end ;;
         do rhs_eval_block <- make_block;
         add_predecessors rhs_eval_block [current_block] ;;
         add_successors current_block [rhs_eval_block] ;;
         add_cfg_edge current_block exit_label_name ;;
         block_label rhs_eval_block rhs_eval_label_name rhs_eval_block ;;
         do r <- back (er_operands rhs_result);
         instruction rhs_eval_block (inst move [result_operand; r]) ;;
         ret rhs_eval_block
       else
         do l <- back (er_operands lhs_result);
         do r <- back (er_operands rhs_result);
         instruction current_block (inst cmp [l; r]) ;;
         match comparison_op_code op_type signed with
         | Some c => instruction current_block (inst c [result_operand])
         | None => ret tt
         end ;;
         ret bb);
    do exit_block <- make_block;
    add_predecessors exit_block [current_block] ;;
    add_successors current_block [exit_block] ;;
    block_label exit_block exit_label_name current_block ;;
    instruction exit_block (inst nop []) ;;
    ret (exit_block, result).

Definition arithmetic_op_code (o : operator_type_t) : option op_codes :=
  match o with
  | op_add => Some add
  | divide => Some div
  | modulo => Some mod_op
  | multiply => Some mul
  | exponent => Some pow
  | subtract => Some sub
  | binary_or => Some or_op
  | shift_left => Some shl
  | binary_and => Some and_op
  | binary_xor => Some xor_op
  | rotate_left => Some rol
  | shift_right => Some shr
  | rotate_right => Some ror
  | _ => None
  end.

(** [byte_code_emitter::emit_arithmetic_operator]. *)
Definition emit_arithmetic_operator (emit : element -> emitter)
           (op_type : operator_type_t) (lhs rhs : element) : emitter :=
  fun bb result =>
    do '(bb, lhs_result) <- emit lhs bb empty_result;
    do '(bb, rhs_result) <- emit rhs bb empty_result;
    let current_block := bb in
    do result_type <- deref (er_type result);
    let size := op_size_for_byte_size (type_size_in_bytes result_type) in
    let result_operand := operand_named_ref (make_named_ref ref_local "" size) in
    let result := emplace_back result_operand result in
    match arithmetic_op_code op_type with
    | Some c =>
        do l <- back (er_operands lhs_result);
        do r <- back (er_operands rhs_result);
        instruction current_block (inst c [result_operand; l; r])
    | None => ret tt
    end ;;
    ret (bb, result).

(** [instruction_operand_t::data<int64_t>()] dereferenced: only an offset
    operand holds one. *)
Definition operand_int64 (o : instruction_operand_t) : M Z :=
  match o with
  | operand_offset v _ => ret v
  | _ => undefined
  end.

Definition resize2 (os : list instruction_operand_t) : list instruction_operand_t :=
  if (length os <? 2)%nat
  then os ++ replicate (2 - length os)%nat operand_empty
  else os.

Definition emit_member_access (emit : element -> emitter) (lhs rhs : element) : emitter :=
  fun current_block result =>
    let result := set_operands (resize2 (er_operands result)) result in
    do '(bb, lhs_result) <- emit lhs current_block empty_result;
    do first <- front (er_operands lhs_result);
    let result := set_operands (<[0%nat := first]> (er_operands result)) result in
    do offset <-
      (if bool_decide (length (er_operands lhs_result) = 2%nat) then
         do offset_operand <- back (er_operands lhs_result);
         if negb (is_empty offset_operand) then operand_int64 offset_operand
         else ret 0
       else ret 0);
    do lhs_type <- deref (er_type lhs_result);
    let type :=
      match lhs_type with
      | pointer_type base _ => base_type_ref base
      | _ => lhs_type
      end in
    do offset <-
      match as_composite_type type with
      | Some fields =>
          match rhs with
          | identifier_reference _ symbol _ =>
              match find_by_name fields symbol with
              | Some f => ret (offset + field_start_offset f)
              | None => ret offset
              end
          | _ => undefined
          end
      | None => ret offset
      end;
    ret (bb, set_operands (<[1%nat := operand_offset offset word]> (er_operands result))
                          result).

Definition emit_assignment (emit : element -> emitter) (lhs rhs : element) : emitter :=
  fun current_block result =>
    do '(bb, rhs_result) <- emit rhs current_block empty_result;
    do '(bb, lhs_result) <- emit lhs bb empty_result;
    do lhs_type <- deref (er_type lhs_result);
    let lhs_is_composite := is_composite_type lhs_type in
    do rhs_type <- deref (er_type rhs_result);
    let rhs_is_composite := is_composite_type rhs_type in
    do copy_required <-
      (if negb (is_pointer_type lhs_type) then
         if lhs_is_composite && negb rhs_is_composite then
           error "X000" "cannot assign scalar to composite type." ;; fail
         else if negb lhs_is_composite && rhs_is_composite then
           error "X000" "cannot assign composite type to scalar." ;; fail
         else ret (lhs_is_composite && rhs_is_composite)
       else ret false);
    let has_offset := bool_decide (length (er_operands lhs_result) = 2%nat) in
    (if copy_required : bool then
       let size := type_size_in_bytes rhs_type in
       if has_offset then
         let temp_target := operand_named_ref (make_named_ref ref_local "" qword) in
         do base <- front (er_operands lhs_result);
         do off <- back (er_operands lhs_result);
         instruction current_block (inst move [temp_target; base; off]) ;;
         do r <- back (er_operands rhs_result);
         instruction current_block
                     (sized_inst copy byte [temp_target; r; operand_integer size qword])
       else
         do l <- back (er_operands lhs_result);
         do r <- back (er_operands rhs_result);
         instruction current_block
                     (sized_inst copy byte [l; r; operand_integer size qword])
     else
       if has_offset then
         do base <- deref (er_operands lhs_result !! 0%nat);
         do r <- back (er_operands rhs_result);
         do off <- deref (er_operands lhs_result !! 1%nat);
         instruction current_block (inst store [base; r; off])
       else
         do l <- back (er_operands lhs_result);
         do r <- back (er_operands rhs_result);
         instruction current_block (inst store [l; r])) ;;
    ret (bb, result).

Definition emit_binary_operator (emit : element -> emitter) (h : element_header)
           (op_type : operator_type_t) (lhs rhs : element) : emitter :=
  fun current_block result =>
    match op_type with
    | op_add | modulo | divide | subtract | multiply | exponent | binary_or
    | shift_left | binary_and | binary_xor | shift_right | rotate_left
    | rotate_right =>
        emit_arithmetic_operator emit op_type lhs rhs current_block result
    | equals | less_than | not_equals | logical_or | logical_and
    | greater_than | less_than_or_equal | greater_than_or_equal =>
        emit_relational_operator emit h op_type lhs rhs current_block result
    | subscript =>
        comment current_block "XXX: implement subscript operator" ;;
        instruction current_block (inst nop []) ;;
        ret (current_block, result)
    | member_access => emit_member_access emit lhs rhs current_block result
    | assignment => emit_assignment emit lhs rhs current_block result
    | _ => ret (current_block, result)
    end.

(** *** [emit_element] *)

(** [byte_code_emitter::emit_arguments]. *)
Definition emit_arguments_body (emit : element -> emitter)
           (emit_args : N -> bool -> list element -> nat -> M nat)
           (arg_list : N) (is_foreign_call : bool)
           (elements : list element) (bb : nat) : M nat :=
  emit_arguments_loop emit emit_args arg_list is_foreign_call (rev elements) bb.

(** The body of [byte_code_emitter::emit_element]: [emit] and [emit_args]
    are the recursive calls. *)
Definition emit_element_body (emit : element -> emitter)
           (emit_args : N -> bool -> list element -> nat -> M nat)
           (e : element) : emitter :=
  fun current_block result =>
    let result := infer_type e result in
    match e with
    | cast _ type_ref expr => emit_cast emit type_ref expr current_block result
    | if_e h predicate true_branch false_branch =>
        emit_if_e emit h predicate true_branch false_branch current_block result
    | for_e h induction_identifier for_expr body =>
        emit_for_e emit h induction_identifier for_expr body current_block result
    | label h =>
        block_label current_block (label_name h) current_block ;;
        ret (current_block, result)
    | block _ has_stack_frame parent_is_directive stmts defer_stack =>
        do bb <- emit_block emit has_stack_frame parent_is_directive
                            stmts defer_stack current_block;
        ret (bb, result)
    | with_e _ o | field _ o | defer_e _ o | module_e _ o | statement _ _ o
    | declaration _ o | namespace_e _ o =>
        do bb <- emit_optional emit o current_block;
        ret (bb, result)
    | case_e h case_expr scope => emit_case_e emit h case_expr scope current_block result
    | break_e _ lbl => emit_break_e lbl current_block result
    | while_e h predicate body => emit_while_e emit h predicate body current_block result
    | return_e _ return_field exprs =>
        emit_return_e emit return_field exprs current_block result
    | switch_e h switch_expr scope =>
        emit_switch_e emit h switch_expr scope current_block result
    | intrinsic _ name args => emit_intrinsic emit name args current_block result
    | range_intrinsic _ _ _ _ _ _ => ret (current_block, result)
    | assembly_directive _ assembled =>
        emit_assembly_directive assembled current_block result
    | if_directive _ true_body => emit_if_directive emit true_body current_block result
    | run_directive _ expr => emit_run_directive emit expr current_block result
    | directive _ _ => ret (current_block, result)
    | proc_call h procedure_type callee arguments =>
        emit_proc_call emit h procedure_type callee arguments current_block result
    | transmute _ type_ref expr => emit_transmute emit type_ref expr current_block result
    | continue_e _ lbl => emit_continue_e lbl current_block result
    | identifier h => emit_identifier h current_block result
    | expression _ root | initializer _ root =>
        match root with
        | Some r => emit r current_block result
        | None => ret (current_block, result)
        end
    | assignment_e _ exprs =>
        do bb <- emit_each emit exprs current_block;
        ret (bb, result)
    | fallthrough _ => emit_fallthrough current_block result
    | nil_literal _ =>
        ret (current_block, emplace_back (operand_integer 0 qword) result)
    | type_literal _ => ret (current_block, result)
    | float_literal _ narrows_to_f32 bits =>
        ret (current_block, emplace_back (operand_float narrows_to_f32 bits) result)
    | string_literal h => emit_string_literal h current_block result
    | boolean_literal _ value =>
        ret (current_block,
             emplace_back (operand_integer (if value then 1 else 0) byte) result)
    | integer_literal _ value => emit_integer_literal value current_block result
    | character_literal _ rune =>
        ret (current_block, emplace_back (operand_integer rune dword) result)
    | argument_list h is_foreign_call _ elements =>
        do bb <- emit_arguments_body emit emit_args (id h) is_foreign_call
                                     elements current_block;
        ret (bb, result)
    | assembly_label _ name => emit_assembly_label name current_block result
    | unary_operator _ op_type rhs =>
        emit_unary_operator emit op_type rhs current_block result
    | binary_operator h op_type lhs rhs _ =>
        emit_binary_operator emit h op_type lhs rhs current_block result
    | identifier_reference _ _ ident =>
        match ident with
        | Some i => emit i current_block result
        | None => ret (current_block, result)
        end
    | assembly_literal_label _ name =>
        ret (current_block, emplace_back (label_operand name) result)
    | other_element _ _ => ret (current_block, result)
    end.

(** [emit_element] and [emit_arguments] call each other and themselves;
    the emitter follows element pointers kept in the flow-control stack, so
    the recursion is not structural and carries fuel. *)
Fixpoint emit_element (fuel : nat) (e : element) : emitter :=
  match fuel with
  | O => fun _ _ => out_of_fuel
  | S f => emit_element_body (emit_element f) (emit_arguments f) e
  end
with emit_arguments (fuel : nat) (arg_list : N) (is_foreign_call : bool)
                    (elements : list element) (bb : nat) : M nat :=
  match fuel with
  | O => out_of_fuel
  | S f => emit_arguments_body (emit_element f) (emit_arguments f)
                               arg_list is_foreign_call elements bb
  end.

(** *** Measures and shapes used by the statements *)

(** Fuel that suffices for an element: one unit per element below it, and
    room for the operators a [for] synthesises. *)
Definition fuel_needed : element -> nat :=
  element_fold (fun e below =>
    (match e with
     | for_e _ _ _ _ => 3
     | _ => 1
     end + foldr Nat.add 0 below)%nat).

(** No [case_e] at or below the element. *)
Definition case_free : element -> bool :=
  element_fold (fun e below =>
    match e with
    | case_e _ _ _ => false
    | _ => forallb (fun b => b) below
    end).

Definition empty_session : session :=
  {| blocks := []; labels_map := []; cfg_edges := [];
     control_flow_stack := []; elements_map := ∅; id_pool := 0%N;
     messages := []; allocated_sizes := ∅; interned_strings := ∅;
     ffi_functions := ∅; assembler_locals := [] |}.

(** A session whose assembler holds one empty block. *)
Definition start_session : session :=
  set_blocks (fun _ => [empty_block]) empty_session.


(** *** The specification's tables, worded as the specification does *)

(** The design table of numeric casts: source class, target class, and
the sizes decide the mode. *)
Definition spec_cast_mode (source target : type) : cast_mode_t :=
match type_number_class source, type_number_class target with
| nc_integer, nc_integer =>
    if type_size_in_bytes target <=? type_size_in_bytes source
    then integer_truncate
    else if type_is_signed source then integer_sign_extend
         else integer_zero_extend
| nc_floating_point, nc_floating_point =>
    if type_size_in_bytes target <=? type_size_in_bytes source
    then float_truncate
    else float_extend
| nc_integer, nc_floating_point => integer_to_float
| nc_floating_point, nc_integer => float_to_integer
| _, _ => noop
end.

(** Truncation is a [move], sign extension a [moves], zero extension a
[movez]; every mode that involves a float is a [convert]. *)
Definition spec_cast_op_code (mode : cast_mode_t) : op_codes :=
match mode with
| integer_truncate => move
| integer_sign_extend => moves
| integer_zero_extend => movez
| _ => convert
end.

(** The comparison and the step of a [for] over
[range(start, stop, step, dir, kind)]. *)
Definition spec_cmp_op (dir kind : Z) : option operator_type_t :=
if (dir =? 0) && (kind =? 1) then Some less_than
else if (dir =? 0) && (kind =? 0) then Some less_than_or_equal
else if (dir =? 1) && (kind =? 1) then Some greater_than
else if (dir =? 1) && (kind =? 0) then Some greater_than_or_equal
else None.

Definition spec_step_op (dir : Z) : option operator_type_t :=
if dir =? 0 then Some op_add
else if dir =? 1 then Some subtract
else None.

(** The error codes of the type class of errors: a [C] followed by a [0]. *)
Definition is_type_error_code (c : string) : bool := String.prefix "C0" c.

(** A session with one more instruction, comment or message. *)
Definition with_instruction (b : nat) (i : instruction_t) (s : session) : session :=
set_blocks (alter (append_instructions [i]) b) s.

Definition with_instructions (b : nat) (ins : list instruction_t) (s : session) : session :=
fold_left (fun s' i => with_instruction b i s') ins s.

Definition with_comment (b : nat) (c : string) (s : session) : session :=
set_blocks (alter (append_comment c) b) s.

Definition with_message (c m : string) (s : session) : session :=
set_messages (fun ms => ms ++ [{| code := c; message := m |}]) s.

(** The instructions and the labels of the block at a position. *)
Definition instructions_at (bs : list basic_block) (b : nat) : list instruction_t :=
match bs !! b with
| Some blk => bb_instructions blk
| None => []
end.

Definition labels_at (bs : list basic_block) (b : nat) : list string :=
match bs !! b with
| Some blk => bb_labels blk
| None => []
end.

Definition instructions_of (s : session) (b : nat) : list instruction_t :=
instructions_at (blocks s) b.

Definition labels_of (s : session) (b : nat) : list string :=
labels_at (blocks s) b.

(** The operand a cast or a transmute to [target] produces. *)
Definition target_operand_for (target : type) : instruction_operand_t :=
operand_named_ref
  (make_named_ref ref_local "" (op_size_for_byte_size (type_size_in_bytes target))).

(** The instructions of an assignment: a byte-wise copy of [size] bytes,
or a store; with a two-operand left side (base and offset) the copy goes
through a temporary that holds the address. *)
Definition copy_instructions (lhs_operands : list instruction_operand_t)
  (lbase lo ro : instruction_operand_t) (size : Z) : list instruction_t :=
if bool_decide (length lhs_operands = 2%nat) then
  let temp_target := operand_named_ref (make_named_ref ref_local "" qword) in
  [inst move [temp_target; lbase; lo];
   sized_inst copy byte [temp_target; ro; operand_integer size qword]]
else [sized_inst copy byte [lo; ro; operand_integer size qword]].

Definition store_instructions (lhs_operands : list instruction_operand_t)
  (lbase lo ro : instruction_operand_t) : list instruction_t :=
if bool_decide (length lhs_operands = 2%nat) then [inst store [lbase; ro; lo]]
else [inst store [lo; ro]].

(** *** Relations between sessions used by the statements *)

(** [s'] extends [s]: no block is lost, labels and instructions only grow
at their ends, and among the first [n0] blocks only [bb0] may have grown. *)
Definition extends (n0 bb0 : nat) (s s' : session) : Prop :=
(n0 <= length (blocks s))%nat /\
(length (blocks s) <= length (blocks s'))%nat /\
labels_map s `prefix_of` labels_map s' /\
(forall i, instructions_of s i `prefix_of` instructions_of s' i /\
           labels_of s i `prefix_of` labels_of s' i) /\
(forall i, (i < n0)%nat -> i <> bb0 ->
           instructions_of s' i = instructions_of s i /\
           labels_of s' i = labels_of s i).

(** What a successful emission from block [bb] in session [s] guarantees
about the block [bb'] it ends in and the session [s'] it leaves. *)
Definition block_post (bb : nat) (s : session) (bb' : nat) (s' : session) : Prop :=
extends (length (blocks s)) bb s s' /\
(bb' = bb \/ (length (blocks s) <= bb')%nat) /\
((bb < length (blocks s))%nat -> (bb' < length (blocks s'))%nat).

Definition block_safe (m : emitter) : Prop :=
forall bb r s,
  match m bb r s with
  | Ok (bb', _) s' => block_post bb s bb' s'
  | _ => True
  end.

Definition block_safe_nat (m : nat -> M nat) : Prop :=
forall bb s,
  match m bb s with
  | Ok bb' s' => block_post bb s bb' s'
  | _ => True
  end.

(** The changes the emitter makes to a block: all of them append; those to
the edge lists leave labels and instructions alone. *)
Inductive grows_fn : (basic_block -> basic_block) -> Prop :=
| grows_instructions ins : grows_fn (append_instructions ins)
| grows_comment c : grows_fn (append_comment c)
| grows_label l : grows_fn (append_label l)
| grows_directive d : grows_fn (append_directive d)
| grows_predecessors ps : grows_fn (append_predecessors ps)
| grows_successors ss : grows_fn (append_successors ss).

Inductive edges_fn : (basic_block -> basic_block) -> Prop :=
| edges_predecessors ps : edges_fn (append_predecessors ps)
| edges_successors ss : edges_fn (append_successors ss).


(** A computation that, when it returns, leaves the session as it was. *)
Definition pure_m {A} (m : M A) : Prop :=
forall s,
  match m s with
  | Ok _ s' => s' = s
  | Failed s' => s' = s
  | _ => True
  end.

Definition is_defer (e : element) : bool :=
match e with
| defer_e _ _ => true
| _ => false
end.

(** A computation that makes no block and, when it returns, has appended to
    block [b] at most. *)
Definition unit_safe {A} (b : nat) (m : M A) : Prop :=
forall s,
  match m s with
  | Ok _ s' =>
      extends (length (blocks s)) b s s' /\ length (blocks s') = length (blocks s)
  | _ => True
  end.

(** A computation that leaves every block as it was. *)
Definition frame_safe {A} (m : M A) : Prop :=
forall s,
  match m s with
  | Ok _ s' =>
      extends (length (blocks s)) (length (blocks s)) s s' /\
      length (blocks s') = length (blocks s)
  | _ => True
  end.

(** ** The element map and the flow-control stack across an emission *)

(** No element of the map carries an id the pool has yet to hand out. *)
Definition fresh (s : session) : Prop :=
forall k, (id_pool s <= k)%N -> elements_map s !! k = None.

(** What a step leaves of the session: the id pool and the flow-control
    stack do not shrink, and the element map is as it was. *)
Definition sess_post (s s' : session) : Prop :=
(id_pool s <= id_pool s')%N /\
(length (control_flow_stack s) <= length (control_flow_stack s'))%nat /\
(fresh s -> elements_map s' = elements_map s).

Definition keeps (f : session -> session) : Prop :=
forall s, sess_post s (f s).

Definition sess_safe {A} (m : M A) : Prop :=
forall s,
  match m s with
  | Ok _ s' => sess_post s s'
  | Failed s' => sess_post s s'
  | _ => True
  end.





(** ** Straight-line elements and known runs *)

(** The result of an emission that leaves one operand of type [t]. *)
Definition result_of (t : type) (o : instruction_operand_t) : emit_result_t :=
{| er_type := Some t; er_operands := [o]; er_skip_read := false |}.

(** An element whose emission, with [depth] units of fuel or more, stays in
the block it is given, appends the instructions [ins] to it, and leaves the
operand [o] of type [t]. *)
Definition emits (e : element) (depth : nat) (t : type)
  (o : instruction_operand_t) (ins : list instruction_t) : Prop :=
forall f bb s, (depth <= f)%nat ->
  emit_element f e bb empty_result s
  = Ok (bb, result_of t o) (with_instructions bb ins s).


(** The operand of an identifier of type [t]. *)
Definition identifier_operand (name : string) (t : type) : instruction_operand_t :=
operand_named_ref
  (make_named_ref ref_local name
     (if negb (is_composite_type t)
      then op_size_for_byte_size (type_size_in_bytes t)
      else qword)).

(** The computation [m] returns from [s], with a value and a session that
satisfy [Q]. *)
Definition runs {A} (m : M A) (s : session) (Q : A -> session -> Prop) : Prop :=
exists a s', m s = Ok a s' /\ Q a s'.

(** What [emit_arguments] appends for one argument whose operand is [o] and
whose type is [t]: a composite, tuple or array argument of a call that is
not foreign is copied to the stack, rounded up to 8 bytes; every other
argument is pushed. *)
Definition argument_instructions (is_foreign_call : bool) (t : type)
  (o : instruction_operand_t) : list instruction_t :=
if is_foreign_call then [inst push [o]]
else
  match element_type t with
  | et_array_type | et_tuple_type | et_composite_type =>
      let size := align (type_size_in_bytes t) 8 in
      [inst sub [operand_sp; operand_sp; operand_integer size word];
       sized_inst copy byte [operand_sp; o; operand_integer size word]]
  | _ => [inst push [o]]
  end.

(** The stack space [emit_arguments] books for it. *)
Definition argument_size (is_foreign_call : bool) (t : type) : Z :=
if is_foreign_call then 0 else align (type_size_in_bytes t) 8.

(** An argument as the statements about calls take it: the element, and
the type and the operand its emission leaves. *)
Definition argument_t : Type := element * type * instruction_operand_t.

Definition argument_element (a : argument_t) : element := fst (fst a).
Definition argument_type (a : argument_t) : type := snd (fst a).
Definition argument_operand (a : argument_t) : instruction_operand_t := snd a.

(** An argument of a kind that [emit_arguments] pushes, with straight-line
code, of depth [d] at most, that appends nothing. *)
Definition plain_argument (d : nat) (a : argument_t) : Prop :=
is_pushed_argument (element_kind (argument_element a)) = true /\
(forall lh lf la le, argument_element a <> argument_list lh lf la le) /\
emits (argument_element a) d (argument_type a) (argument_operand a) [].

(** The instructions and the stack space of a list of arguments, in the
order of the list. *)
Definition arguments_instructions (is_foreign_call : bool) (args : list argument_t)
  : list instruction_t :=
concat (map (fun a => argument_instructions is_foreign_call (argument_type a)
                        (argument_operand a)) args).

Definition arguments_size (is_foreign_call : bool) (args : list argument_t) : Z :=
foldr Z.add 0 (map (fun a => argument_size is_foreign_call (argument_type a)) args).


(** Whether a procedure type declares a return type. *)
Definition returns_value (procedure_type : procedure_type_t) : bool :=
bool_decide (default None (return_type procedure_type) <> None).

(** A computation that fails from [s], leaving a session that satisfies [Q]. *)
Definition fails {A} (m : M A) (s : session) (Q : session -> Prop) : Prop :=
exists s', m s = Failed s' /\ Q s'.

(** Whenever the computation returns from [s], its result and the session
it leaves satisfy [Q]. *)
Definition ok_then {A} (m : M A) (s : session) (Q : A -> session -> Prop) : Prop :=
forall a s', m s = Ok a s' -> Q a s'.


(** The record [current_flow_control] points to: the top of the stack. *)
Definition top_flow_control (s : session) : option flow_control_t :=
last (control_flow_stack s).

(** The label a [break] or a [continue] jumps to: its own when it has one,
else the one [pick] reads from the top of the flow-control stack. *)
Definition jump_target (pick : flow_control_t -> option assembler_named_ref_t)
  (lbl : option element) (s : session) : option assembler_named_ref_t :=
match lbl with
| Some l => Some (make_named_ref ref_label (element_label_name l) qword)
| None =>
    match top_flow_control s with
    | Some fc => pick fc
    | None => None
    end
end.

(** What the emission of a [break] or a [continue] from session [s] comes
to, given its target: without a target it fails with P081 and leaves the
message; with one it returns in a block it makes, which holds the jump to
the target and nothing else; the edge to the target is recorded, and the
blocks there were and the flow-control stack are as before. *)
Definition jumps_to (out : outcome (nat * emit_result_t))
  (target : option assembler_named_ref_t) (what : string) (s : session) : Prop :=
match target with
| None =>
    out = Failed (with_message "P081" ("no valid " +:+ what +:+ " label on stack.") s)
| Some ref =>
    exists r' s',
      out = Ok (length (blocks s), r') s' /\
      instructions_of s' (length (blocks s)) = [jump_direct (operand_named_ref ref)] /\
      cfg_edges s' = cfg_edges s ++ [(length (blocks s), ref_name ref)] /\
      control_flow_stack s' = control_flow_stack s /\
      messages s' = messages s /\
      forall i, (i < length (blocks s))%nat ->
                instructions_of s' i = instructions_of s i /\
                labels_of s' i = labels_of s i
end.


(** The branch of a logical operator that skips the move of the right
operand's value. *)
Definition logical_branch (o : operator_type_t) : option op_codes :=
match o with
| logical_or => Some bnz
| logical_and => Some bz
| _ => None
end.


(** An element whose emission, with [depth] units of fuel or more, stays in
the block it is given and appends the instructions [ins] to it. *)
Definition appends (e : element) (depth : nat) (ins : list instruction_t) : Prop :=
forall f bb s, (depth <= f)%nat ->
  exists res, emit_element f e bb empty_result s
              = Ok (bb, res) (with_instructions bb ins s).

(** A statement without labels as the statements about blocks take it: its
header, its expression and the instructions the expression appends. *)
Definition statement_t : Type := element_header * element * list instruction_t.

Definition statement_of (x : statement_t) : element :=
statement (fst (fst x)) [] (Some (snd (fst x))).

(** What the statement loop of [emit_block] appends for it: nothing for a
[defer], which the loop passes over. *)
Definition statement_instructions (x : statement_t) : list instruction_t :=
if is_defer (snd (fst x)) then [] else snd x.

Definition plain_statement (d : nat) (x : statement_t) : Prop :=
is_defer (snd (fst x)) = false -> appends (snd (fst x)) d (snd x).

(** [is_current_instruction] for [rts], on a list of instructions. *)
Definition ends_in_rts (ins : list instruction_t) : bool :=
match last ins with
| Some i => bool_decide (op i = rts)
| None => false
end.

(** The instructions [begin_stack_frame] appends, and those
[end_stack_frame] puts in the block it makes. *)
Definition frame_prologue (has_stack_frame parent_is_directive : bool)
  : list instruction_t :=
if parent_is_directive then []
else if has_stack_frame
     then [inst push [operand_fp]; inst move [operand_fp; operand_sp]]
     else [].

Definition frame_epilogue : list instruction_t :=
[inst move [operand_sp; operand_fp]; inst pop [operand_fp]].


(** The record a [switch] pushes: its exit label and its expression. *)
Definition switch_record (h : element_header) (switch_expr : option element)
  : flow_control_t :=
set_switch_expression switch_expr
  (make_flow_control
     (Some (make_named_ref ref_label (label_name h +:+ "_exit") qword)) None).


(** The instructions of a unary operator on the operand [o], with the
result in [tmp]. *)
Definition unary_instructions (o_type : operator_type_t)
  (tmp o : instruction_operand_t) : option (list instruction_t) :=
match o_type with
| negate => Some [inst neg [tmp; o]]
| binary_not => Some [inst not_op [tmp; o]]
| logical_not =>
    Some [sized_inst cmp (operand_size tmp) [o; operand_integer 1 byte];
          inst setnz [tmp]]
| _ => None
end.

(** ** Programs and sessions used as examples *)

Definition example_header (i : N) (n : string) (t : option type) : element_header :=
{| id := i; label_name := n; inferred_type := t |}.

Definition u8_literal (i : N) (v : Z) : element :=
integer_literal (example_header i "lit" (Some (numeric_type u8))) v.

Definition u32_literal (i : N) (v : Z) : element :=
integer_literal (example_header i "lit" (Some (numeric_type u32))) v.

Definition point : type :=
composite_type "point"
  [ {| field_name := "x"; field_size_in_bytes := 4; field_start_offset := 0 |};
    {| field_name := "y"; field_size_in_bytes := 4; field_start_offset := 4 |} ].

Definition example_identifier (i : N) (n : string) (t : type) : element :=
identifier (example_header i n (Some t)).


(** [for i in range(0, 10, 1, 0, 1) {}], counting up to 10 exclusive. *)
Definition count_up : element :=
for_e (example_header 20 "for_20" None)
      (example_identifier 10 "i" (numeric_type u32))
      (range_intrinsic (example_header 11 "range_11" None)
         (u32_literal 12 0) (u32_literal 13 10) (u32_literal 14 1)
         (u32_literal 15 0) (u32_literal 16 1))
      (block (example_header 17 "block_17" None) false false [] []).

(** [for i in range(0, 10, 1, 0, 1) { break; }]. *)
Definition count_up_and_leave : element :=
for_e (example_header 20 "for_20" None)
      (example_identifier 10 "i" (numeric_type u32))
      (range_intrinsic (example_header 11 "range_11" None)
         (u32_literal 12 0) (u32_literal 13 10) (u32_literal 14 1)
         (u32_literal 15 0) (u32_literal 16 1))
      (block (example_header 17 "block_17" None) false false
         [statement (example_header 18 "statement" None) []
            (Some (break_e (example_header 19 "break_19" None) None))] []).

(** A session that has handed out the ids below 21 and holds the
induction variable of [count_up] in its element map. *)
Definition busy_session : session :=
set_elements_map (insert 10%N (example_identifier 10 "i" (numeric_type u32)))
  (set_id_pool (fun _ => 21%N) start_session).

Definition s32_literal (i : N) (v : Z) : element :=
integer_literal (example_header i "lit" (Some (numeric_type s32))) v.

Definition assign_statement (i : N) (name : string) (v : Z) : element :=
statement (example_header i "statement" None) []
  (Some (binary_operator (example_header (i + 1) "binary_operator" None) assignment
           (example_identifier (i + 2) name (numeric_type s32))
           (s32_literal (i + 3) v) false)).

(** [if a > 0 { b := 1; } else { b := 2; };] *)
Definition if_a_positive : element :=
if_e (example_header 1 "if_1" None)
     (binary_operator (example_header 2 "binary_operator_2"
                                      (Some (other_type bool_type "bool" 1)))
        greater_than
        (example_identifier 3 "a" (numeric_type s32))
        (s32_literal 4 0) false)
     (block (example_header 5 "block_5" None) false false
            [assign_statement 10 "b" 1] [])
     (Some (block (example_header 6 "block_6" None) false false
                  [assign_statement 20 "b" 2] [])).


(** [switch i { case 1: {} case 2: {} }], with [i] of type [s32]. *)
Definition switch_two_cases : element :=
switch_e (example_header 30 "switch_30" None)
  (Some (example_identifier 31 "i" (numeric_type s32)))
  (block (example_header 32 "block_32" None) false false
     [statement (example_header 33 "statement" None) []
        (Some (case_e (example_header 34 "case_34" None) (Some (s32_literal 35 1))
                 (block (example_header 36 "block_36" None) false false [] [])));
      statement (example_header 37 "statement" None) []
        (Some (case_e (example_header 38 "case_38" None) (Some (s32_literal 39 2))
                 (block (example_header 40 "block_40" None) false false [] [])))]
     []).

(** [while a < 10 { if a == 5 { break; }; a := a + 1; }], with [a] of
type [s32]. *)
Definition while_with_break : element :=
while_e (example_header 7 "while_7" None)
  (binary_operator (example_header 2 "binary_operator_2"
                                   (Some (other_type bool_type "bool" 1)))
     less_than (example_identifier 3 "a" (numeric_type s32)) (s32_literal 4 10) false)
  (block (example_header 9 "block_9" None) false false
     [statement (example_header 10 "statement" None) []
        (Some (if_e (example_header 11 "if_11" None)
                 (binary_operator (example_header 12 "binary_operator_12"
                                     (Some (other_type bool_type "bool" 1)))
                    equals (example_identifier 13 "a" (numeric_type s32))
                    (s32_literal 14 5) false)
                 (block (example_header 15 "block_15" None) false false
                    [statement (example_header 16 "statement" None) []
                       (Some (break_e (example_header 17 "break_17" None) None))] [])
                 None));
      statement (example_header 20 "statement" None) []
        (Some (binary_operator (example_header 21 "binary_operator_21" None)
                 assignment (example_identifier 22 "a" (numeric_type s32))
                 (binary_operator (example_header 23 "binary_operator_23"
                                     (Some (numeric_type s32)))
                    op_add (example_identifier 24 "a" (numeric_type s32))
                    (s32_literal 25 1) false)
                 false))]
     []).

(** [switch i { b := 1; continue; }]. *)
Definition switch_with_continue : element :=
switch_e (example_header 30 "switch_30" None)
  (Some (example_identifier 31 "i" (numeric_type s32)))
  (block (example_header 32 "block_32" None) false false
     [assign_statement 40 "b" 1;
      statement (example_header 33 "statement" None) []
        (Some (continue_e (example_header 34 "continue_34" None) None))] []).


End Emitter.

(* ===================================================================== *)
(** * Properties *)
(* ===================================================================== *)

(** ** Pointer type checking *)

Module TypesFacts.
Import Types.

Lemma numeric_size_8 (k : numeric_kind) :
  size_in_bytes (properties k) = 8 <-> k = u64 \/ k = s64 \/ k = f64.
Proof.
  split.
  - destruct k; cbn; intros H; try discriminate; auto.
  - intros [-> | [-> | ->]]; reflexivity.
Qed.

(** The claim as the specification words it: a pointer accepts a pointer
    whose base is void or whose base checks, and never a plain [u64] or
    [s64]. *)
Definition pointer_check_as_specified : Prop :=
  forall (base : type) (void : bool),
    (forall other_base other_void,
        type_check (pointer_type base void)
                   (Some (pointer_type other_base other_void))
        = other_void || type_check base (Some other_base)) /\
    type_check (pointer_type base void) (Some (numeric_type u64)) = false /\
    type_check (pointer_type base void) (Some (numeric_type s64)) = false.

(** C8, counterexample: the implicit check of a pointer to [u8] accepts a
    plain [u64]. *)
Lemma pointer_accepts_u64 :
  type_check (pointer_type (numeric_type u8) false) (Some (numeric_type u64)) = true
  /\ ~ pointer_check_as_specified.
Proof.
  split; [reflexivity |].
  intros H.
  destruct (H (numeric_type u8) false) as (_ & Hu & _).
  cbn in Hu. discriminate.
Qed.

(** C8, amended: a pointer type accepts another pointer when that
    pointer's base is void or when the base types check; it also accepts
    every numeric type that is eight bytes wide ([u64], [s64], [f64]),
    and nothing else. *)
Theorem pointer_on_type_check (base : type) (void : bool) (other : option type) :
  type_check (pointer_type base void) other = true <->
  (exists other_base other_void,
      other = Some (pointer_type other_base other_void) /\
      (other_void = true \/ type_check base (Some other_base) = true)) \/
  (exists k, other = Some (numeric_type k) /\ (k = u64 \/ k = s64 \/ k = f64)).
Proof.
  split.
  - destruct other as [[k | ob ov | | | |] |]; cbn; try discriminate.
    + intros H. right. exists k. split; [reflexivity |].
      apply numeric_size_8. apply Z.eqb_eq. exact H.
    + intros H. left. exists ob, ov. split; [reflexivity |].
      destruct ov; [left; reflexivity | right; exact H].
  - intros [(ob & ov & -> & H) | (k & -> & H)]; cbn.
    + destruct ov; [reflexivity |]. destruct H as [H | H]; [discriminate | exact H].
    + apply Z.eqb_eq. apply numeric_size_8. exact H.
Qed.

End TypesFacts.

(** ** The read/written flags of a variable *)

Module VariableFacts.
Import CompilerVariable.

Lemma land_lor_same (x a : Z) : Z.land (Z.lor x a) a = a.
Proof.
  apply Z.bits_inj'. intros n _.
  rewrite Z.land_spec, Z.lor_spec.
  destruct (Z.testbit x n), (Z.testbit a n); reflexivity.
Qed.

Lemma land_lnot_same (x a : Z) : Z.land (Z.land x (Z.lnot a)) a = 0.
Proof.
  apply Z.bits_inj'. intros n Hn.
  rewrite !Z.land_spec, Z.lnot_spec, Z.bits_0 by exact Hn.
  destruct (Z.testbit x n), (Z.testbit a n); reflexivity.
Qed.

Lemma disjoint_bits (a b : Z) (n : Z) :
  Z.land a b = 0 -> Z.testbit a n && Z.testbit b n = false.
Proof.
  intros H. rewrite <- Z.land_spec, H. apply Z.bits_0.
Qed.

Lemma land_lor_other (x a b : Z) :
  Z.land a b = 0 -> Z.land (Z.lor x b) a = Z.land x a.
Proof.
  intros H. apply Z.bits_inj'. intros n _.
  rewrite !Z.land_spec, Z.lor_spec.
  pose proof (disjoint_bits a b n H) as Hd.
  destruct (Z.testbit x n), (Z.testbit a n), (Z.testbit b n);
    try reflexivity; discriminate.
Qed.

Lemma land_lnot_other (x a b : Z) :
  Z.land a b = 0 -> Z.land (Z.land x (Z.lnot b)) a = Z.land x a.
Proof.
  intros H. apply Z.bits_inj'. intros n Hn.
  rewrite !Z.land_spec, Z.lnot_spec by exact Hn.
  pose proof (disjoint_bits a b n H) as Hd.
  destruct (Z.testbit x n), (Z.testbit a n), (Z.testbit b n);
    try reflexivity; discriminate.
Qed.

Section WithFlags.
Context `{F : flags_t}.

Lemma flag_with_flags (v : variable) (x f : Z) :
  flag (with_flags v x) f = negb (Z.land x f =? 0).
Proof. destruct v; reflexivity. Qed.

Lemma flag_set_same (v : variable) (f : Z) :
  f <> 0 -> flag (set_flag v f true) f = true.
Proof.
  intros Hf. unfold set_flag. rewrite flag_with_flags, land_lor_same.
  apply negb_true_iff, Z.eqb_neq, Hf.
Qed.

Lemma flag_clear_same (v : variable) (f : Z) :
  flag (set_flag v f false) f = false.
Proof.
  unfold set_flag. rewrite flag_with_flags, land_lnot_same. reflexivity.
Qed.

Lemma flag_set_other (v : variable) (f g : Z) (b : bool) :
  Z.land f g = 0 -> flag (set_flag v g b) f = flag v f.
Proof.
  intros H. unfold set_flag. rewrite flag_with_flags. unfold flag.
  destruct b; [rewrite land_lor_other | rewrite land_lnot_other];
    auto.
Qed.

Hypothesis wf : flags_wf.

Lemma address_flags (v : variable) (a : assembler) b v' a' :
  address v a = Some (b, v', a') ->
  flag v' f_read = flag v f_read /\ flag v' f_written = flag v f_written.
Proof.
  destruct wf.
  unfold address. destruct (flag v f_addressed).
  { intros [= <- <- <-]. auto. }
  destruct (current_block a).
  2: { intros [= <- <- <-]. auto. }
  destruct (walk_to_root_and_calculate_offset v) as [[w rot] |]; cbn; [| discriminate].
  intros [= <- <- <-].
  split; apply flag_set_other; assumption.
Qed.

Lemma read_flags (v : variable) (a : assembler) b v' a' :
  read v a = Some (b, v', a') ->
  (flag v f_read = true /\ b = false /\ v' = v /\ a' = a) \/
  (flag v f_read = false /\ current_block a = None /\
     b = true /\ v' = v /\ a' = a) \/
  (flag v f_read = false /\ current_block a <> None /\
     b = true /\ flag v' f_read = true /\ flag v' f_written = false).
Proof.
  destruct wf.
  unfold read. destruct (flag v f_read) eqn:Hr.
  { intros [= <- <- <-]. left. auto. }
  destruct (current_block a) eqn:Hb.
  2: { intros [= <- <- <-]. right. left. auto. }
  destruct (address v a) as [[[b1 v1] a1] |] eqn:Ha; cbn; [| discriminate].
  apply address_flags in Ha. destruct Ha as [Ha1 Ha2].
  match goal with
  | |- context [mbind _ ?c] => destruct c
  end; cbn; [| discriminate].
  intros [= <- <- <-].
  right. right. repeat split; try congruence.
  - rewrite flag_set_other by assumption.
    apply flag_set_same; assumption.
  - apply flag_clear_same.
Qed.

Lemma write_flags (v : variable) (a : assembler) b v' a' :
  write v a = Some (b, v', a') ->
  (flag v f_written = true /\ b = false /\ v' = v /\ a' = a) \/
  (flag v f_written = false /\
     b = true /\ flag v' f_written = true /\ flag v' f_read = false).
Proof.
  destruct wf.
  unfold write. destruct (flag v f_written) eqn:Hw.
  { intros [= <- <- <-]. left. auto. }
  destruct (address v a) as [[[b1 v1] a1] |] eqn:Ha; cbn; [| discriminate].
  destruct (current_block a1); cbn; [| discriminate].
  destruct (walk_to_root_and_calculate_offset v1) as [[w rot] |]; cbn; [| discriminate].
  match goal with
  | |- context [mbind _ ?c] => destruct c
  end; cbn; [| discriminate].
  intros [= <- <- <-].
  right. repeat split; try congruence.
  - rewrite flag_set_other by (rewrite Z.land_comm; assumption).
    apply flag_set_same; assumption.
  - apply flag_clear_same.
Qed.

Lemma run_operation_invariant (o : operation) (v : variable) (a : assembler) b v' a' :
  flag v f_read && flag v f_written = false ->
  run_operation o v a = Some (b, v', a') ->
  flag v' f_read && flag v' f_written = false.
Proof.
  intros Hinv. destruct o; cbn.
  - intros H. apply read_flags in H.
    destruct H as [(_ & _ & -> & _) | [(_ & _ & _ & -> & _) | (_ & _ & _ & _ & ->)]];
      auto using andb_false_r.
  - intros H. apply write_flags in H.
    destruct H as [(_ & _ & -> & _) | (_ & _ & _ & ->)]; auto.
Qed.

Lemma run_operations_invariant (os : list operation) (v : variable) (a : assembler) v' a' :
  flag v f_read && flag v f_written = false ->
  run_operations os v a = Some (v', a') ->
  flag v' f_read && flag v' f_written = false.
Proof.
  revert v a. induction os as [| o os IH]; intros v a Hinv; cbn.
  - intros [= <- <-]. exact Hinv.
  - destruct (run_operation o v a) as [[[b v1] a1] |] eqn:Ho; cbn; [| discriminate].
    intros H. eapply IH; [| exact H].
    eapply run_operation_invariant; eassumption.
Qed.

End WithFlags.

(** The claim's sentence about [read()] as it is worded: a call that
    returns [true] has set [f_read] and cleared [f_written]. *)
Definition read_as_specified `{F : flags_t} : Prop :=
  forall v a v' a',
    read v a = Some (true, v', a') ->
    flag v' f_read = true /\ flag v' f_written = false.

Definition fresh_variable : variable :=
  Build_variable 0 (identifier "x") None None
                 {| number := 0; size := qword; floating_point := false |}
                 {| number := 1; size := qword; floating_point := false |}.

Definition no_block : assembler :=
  {| current_block := None; target_registers := [] |}.

Definition one_block : assembler :=
  {| current_block := Some []; target_registers := [] |}.

(** C10, counterexample: without a current block [read()] returns [true]
    and sets no flag. *)
Lemma read_without_block_sets_nothing :
  @read one_bit_flags fresh_variable no_block = Some (true, fresh_variable, no_block)
  /\ @flag fresh_variable (@f_read one_bit_flags) = false
  /\ ~ @read_as_specified one_bit_flags.
Proof.
  split; [reflexivity |]. split; [reflexivity |].
  intros H. destruct (H fresh_variable no_block fresh_variable no_block eq_refl).
  discriminate.
Qed.

(** [write(uint64_t)], the sibling of [write()], sets [f_written] and
    leaves [f_read] as it is: after [read()] both flags are set. *)
Remark write_constant_after_read :
  exists v1 a1 v2 a2,
    @read one_bit_flags fresh_variable one_block = Some (true, v1, a1) /\
    @write_constant one_bit_flags 5 v1 a1 = Some (true, v2, a2) /\
    @flag v2 (@f_read one_bit_flags) && @flag v2 (@f_written one_bit_flags) = true.
Proof. repeat eexists; reflexivity. Qed.

(** C10, amended: for bit masks that do not overlap, [f_read] and
    [f_written] are never both set after any sequence of calls of [read()]
    and [write()] on a variable that starts with at most one of them set;
    [read()] sets [f_read] and clears [f_written] whenever the assembler
    has a current block (without one it returns [true] and changes
    nothing), [write()] sets [f_written] and clears [f_read], and each
    returns [false], leaving variable and block as they were, when its own
    flag is already set. *)
Theorem read_written_exclusive `{F : flags_t} (wf : flags_wf)
      (v : variable) (a : assembler) :
  (forall os v' a',
      flag v f_read && flag v f_written = false ->
      run_operations os v a = Some (v', a') ->
      flag v' f_read && flag v' f_written = false) /\
  (flag v f_read = true -> read v a = Some (false, v, a)) /\
  (flag v f_written = true -> write v a = Some (false, v, a)) /\
  (flag v f_read = false -> current_block a = None ->
   read v a = Some (true, v, a)) /\
  (forall b v' a',
      flag v f_read = false -> current_block a <> None ->
      read v a = Some (b, v', a') ->
      b = true /\ flag v' f_read = true /\ flag v' f_written = false) /\
  (forall b v' a',
      flag v f_written = false ->
      write v a = Some (b, v', a') ->
      b = true /\ flag v' f_written = true /\ flag v' f_read = false).
Proof.
  split; [| split; [| split; [| split; [| split]]]].
  - intros os v' a'. apply run_operations_invariant. exact wf.
  - intros H. unfold read. rewrite H. reflexivity.
  - intros H. unfold write. rewrite H. reflexivity.
  - intros H Hb. unfold read. rewrite H, Hb. reflexivity.
  - intros b v' a' Hr Hb H. apply (read_flags wf) in H.
    destruct H as [(Hc & _) | [(_ & Hc & _) | (_ & _ & -> & ? & ?)]];
      [congruence | congruence | auto].
  - intros b v' a' Hw H. apply (write_flags wf) in H.
    destruct H as [(Hc & _) | (_ & -> & ? & ?)]; [congruence | auto].
Qed.

Lemma one_bit_flags_wf : @flags_wf one_bit_flags.
Proof. split; cbn; first [discriminate | reflexivity]. Qed.

(** A run on the usual flag layout: read, write, read. *)
Lemma read_written_exclusive_witness :
  @flags_wf one_bit_flags /\
  exists v' a',
    @run_operations one_bit_flags [op_read; op_write; op_read] fresh_variable one_block
      = Some (v', a') /\
    @flag v' (@f_read one_bit_flags) && @flag v' (@f_written one_bit_flags) = false.
Proof.
  split; [exact one_bit_flags_wf |].
  eexists _, _. split; [reflexivity |].
  exact (proj1 (@read_written_exclusive one_bit_flags one_bit_flags_wf
                  fresh_variable one_block)
               [op_read; op_write; op_read] _ _ eq_refl eq_refl).
Defined.

End VariableFacts.

(** ** The emitter *)

Module EmitterFacts.
Import Types Emitter.
Local Open Scope emit_scope.

#[local] Arguments bind {A B} m k s /.
#[local] Arguments ret {A} a s /.
#[local] Arguments fail {A} s /.
#[local] Arguments undefined {A} s /.
#[local] Arguments out_of_fuel {A} s /.
#[local] Arguments modify f s /.
#[local] Arguments get {A} f s /.
#[local] Arguments deref {A} o s /.
#[local] Arguments back {A} l s /.
#[local] Arguments front {A} l s /.
#[local] Arguments error c m s /.
#[local] Arguments comment b c s /.
#[local] Arguments instruction b i s /.
#[local] Arguments update_block b f s /.
#[local] Arguments with_defer {A} cleanup body s /.

(** *** Casts and transmutes *)

Lemma select_cast_mode_spec (source target : type) :
  type_number_class source <> nc_none ->
  type_number_class target <> nc_none ->
  select_cast_mode source target = Some (spec_cast_mode source target).
Proof.
  intros Hs Ht. unfold select_cast_mode, spec_cast_mode.
  destruct source as [k | b v | | | |]; cbn in Hs |- *; try congruence.
  - destruct target as [k' | b' v' | | | |]; cbn in Ht |- *; try congruence.
    + destruct k, k'; reflexivity.
    + destruct k; reflexivity.
  - destruct target as [k' | b' v' | | | |]; cbn in Ht |- *; try congruence.
    + destruct k'; reflexivity.
    + reflexivity.
Qed.

Lemma spec_cast_mode_not_noop (source target : type) :
  type_number_class source <> nc_none ->
  type_number_class target <> nc_none ->
  spec_cast_mode source target <> noop.
Proof.
  intros Hs Ht. unfold spec_cast_mode.
  destruct (type_number_class source), (type_number_class target);
    try congruence;
    repeat match goal with
           | |- context [if ?c then _ else _] => destruct c
           end; discriminate.
Qed.

(** C1: once the cast's operand is emitted with an inferred type, a number
    class of [none] on either side fails the emission with a message of
    code C073, whatever operands the emission left; otherwise the mode is
    the one of the design table (integer to integer: truncate when the
    source is not smaller, else sign- or zero-extend by the source's
    signedness; float to float: truncate when the source is not smaller,
    else extend; across the classes: convert) and the block the cast started
    in receives the matching instruction ([move], [moves], [movez] or
    [convert]) from the expression's last operand to a fresh local of the
    target's size. *)
Theorem cast_follows_the_design_table
        (f : nat) (h : element_header) (target : type) (expr : element)
        (bb : nat) (r : emit_result_t) (st : session)
        (bb1 : nat) (er : emit_result_t) (st1 : session)
        (source : type) :
  emit_element f expr bb empty_result st = Ok (bb1, er) st1 ->
  er_type er = Some source ->
  (type_number_class source = nc_none ->
   emit_element (S f) (cast h target expr) bb r st
   = Failed (with_message "C073"
               ("cannot cast from type: " +:+ symbol_name source) st1)) /\
  (type_number_class source <> nc_none ->
   type_number_class target = nc_none ->
   emit_element (S f) (cast h target expr) bb r st
   = Failed (with_message "C073"
               ("cannot cast to type: " +:+ symbol_name target) st1)) /\
  (type_number_class source <> nc_none ->
   type_number_class target <> nc_none ->
   select_cast_mode source target = Some (spec_cast_mode source target) /\
   forall o : instruction_operand_t,
     last (er_operands er) = Some o ->
     emit_element (S f) (cast h target expr) bb r st
     = Ok (bb1, emplace_back (target_operand_for target)
                             (infer_type (cast h target expr) r))
          (with_instruction bb
             (inst (spec_cast_op_code (spec_cast_mode source target))
                   [target_operand_for target; o])
             (with_comment bb
                ("cast<" +:+ symbol_name target +:+ "> from type "
                         +:+ symbol_name source) st1))).
Proof.
  intros He Ht.
  assert (Hname : type_name er = symbol_name source)
    by (unfold type_name; rewrite Ht; reflexivity).
  split; [| split].
  - intros Hs. cbn [emit_element emit_element_body]. unfold emit_cast.
    cbn [bind]. rewrite He. cbn [bind deref ret]. rewrite Ht. cbn [bind deref ret].
    rewrite bool_decide_eq_true_2 by assumption. rewrite Hname. reflexivity.
  - intros Hs Hn. cbn [emit_element emit_element_body]. unfold emit_cast.
    cbn [bind]. rewrite He. cbn [bind deref ret]. rewrite Ht. cbn [bind deref ret].
    rewrite bool_decide_eq_false_2 by assumption.
    rewrite bool_decide_eq_true_2 by assumption. reflexivity.
  - intros Hs Hn. split; [apply select_cast_mode_spec; assumption |].
    intros o Ho.
    cbn [emit_element emit_element_body]. unfold emit_cast.
    cbn [bind]. rewrite He. cbn [bind deref ret]. rewrite Ht. cbn [bind deref ret].
    rewrite !bool_decide_eq_false_2 by assumption.
    rewrite (select_cast_mode_spec source target) by assumption.
    rewrite Hname.
    pose proof (spec_cast_mode_not_noop source target Hs Hn) as Hnoop.
    unfold cast_instruction.
    destruct (spec_cast_mode source target); try congruence;
      cbn [bind deref ret comment update_block modify back];
      rewrite Ho; reflexivity.
Qed.

(** Concrete elements used by the examples: literals and identifiers of a
    few types, and a composite type [point] of two [s32] fields. *)
Lemma cast_follows_the_design_table_witness :
  exists s,
    emit_element 2 (cast (example_header 2 "cast_2" (Some (numeric_type u32)))
                          (numeric_type u32) (u8_literal 1 5))
                 0%nat empty_result start_session
    = Ok (0%nat, emplace_back (target_operand_for (numeric_type u32))
                   {| er_type := Some (numeric_type u32); er_operands := [];
                      er_skip_read := false |}) s /\
    instructions_of s 0
    = [inst movez [target_operand_for (numeric_type u32); operand_integer 5 byte]].
Proof.
  destruct (cast_follows_the_design_table
              1 (example_header 2 "cast_2" (Some (numeric_type u32)))
              (numeric_type u32) (u8_literal 1 5) 0%nat empty_result start_session
              0%nat _ _ (numeric_type u8) eq_refl eq_refl) as (_ & _ & H).
  destruct H as [_ H]; [discriminate | discriminate |].
  eexists. split; [exact (H (operand_integer 5 byte) eq_refl) | reflexivity].
Defined.

(** The claim about transmutes as the specification words it: a transmute
    between types of different sizes fails. *)
Definition transmute_as_specified : Prop :=
  forall f h target expr bb r st bb1 er st1 source,
    emit_element f expr bb empty_result st = Ok (bb1, er) st1 ->
    er_type er = Some source ->
    type_size_in_bytes source <> type_size_in_bytes target ->
    exists st', emit_element (S f) (transmute h target expr) bb r st = Failed st'.

(** C6, counterexample: a transmute of a [u8] literal to [u64] is emitted
    as a [move]; no message is recorded. *)
Lemma transmute_u8_to_u64_is_emitted :
  match emit_element 2 (transmute (example_header 2 "transmute_2" (Some (numeric_type u64)))
                                  (numeric_type u64) (u8_literal 1 5))
                     0%nat empty_result start_session with
  | Ok (bb, r) s =>
      messages s = [] /\
      instructions_of s 0
      = [inst move [target_operand_for (numeric_type u64); operand_integer 5 byte;
                    operand_empty]]
  | _ => False
  end
  /\ ~ transmute_as_specified.
Proof.
  split.
  - vm_compute. split; reflexivity.
  - intros H.
    destruct (H 1%nat (example_header 2 "transmute_2" (Some (numeric_type u64)))
                (numeric_type u64) (u8_literal 1 5) 0%nat empty_result start_session
                0%nat _ _ (numeric_type u8) eq_refl eq_refl) as [st' Hst'].
    + cbn. discriminate.
    + vm_compute in Hst'. discriminate Hst'.
Qed.

(** C6, amended: once the transmute's operand is emitted with an inferred
    type, the transmute fails with a message of code C073 exactly when its
    source or its target has the number class [none], whatever operands the
    emission left; otherwise, whatever the two sizes are, the block the
    transmute started in receives a [move] from the expression's last
    operand to a fresh local of the target's size. *)
Theorem transmute_checks_number_classes_only
        (f : nat) (h : element_header) (target : type) (expr : element)
        (bb : nat) (r : emit_result_t) (st : session)
        (bb1 : nat) (er : emit_result_t) (st1 : session)
        (source : type) :
  emit_element f expr bb empty_result st = Ok (bb1, er) st1 ->
  er_type er = Some source ->
  (type_number_class source = nc_none ->
   emit_element (S f) (transmute h target expr) bb r st
   = Failed (with_message "C073"
               ("cannot transmute from type: " +:+ symbol_name source) st1)) /\
  (type_number_class source <> nc_none ->
   type_number_class target = nc_none ->
   emit_element (S f) (transmute h target expr) bb r st
   = Failed (with_message "C073"
               ("cannot transmute to type: " +:+ symbol_name target) st1)) /\
  (type_number_class source <> nc_none ->
   type_number_class target <> nc_none ->
   forall o : instruction_operand_t,
     last (er_operands er) = Some o ->
     emit_element (S f) (transmute h target expr) bb r st
     = Ok (bb1, emplace_back (target_operand_for target)
                             (infer_type (transmute h target expr) r))
          (with_instruction bb
             (inst move [target_operand_for target; o; operand_empty])
             (with_comment bb ("transmute<" +:+ symbol_name target +:+ ">") st1))).
Proof.
  intros He Ht.
  assert (Hname : type_name er = symbol_name source)
    by (unfold type_name; rewrite Ht; reflexivity).
  split; [| split].
  - intros Hs. cbn [emit_element emit_element_body]. unfold emit_transmute.
    cbn [bind]. rewrite He. cbn [bind deref ret]. rewrite Ht. cbn [bind deref ret].
    rewrite bool_decide_eq_true_2 by assumption. rewrite Hname. reflexivity.
  - intros Hs Hn. cbn [emit_element emit_element_body]. unfold emit_transmute.
    cbn [bind]. rewrite He. cbn [bind deref ret]. rewrite Ht. cbn [bind deref ret].
    rewrite bool_decide_eq_false_2 by assumption.
    rewrite bool_decide_eq_true_2 by assumption. reflexivity.
  - intros Hs Hn o Ho.
    cbn [emit_element emit_element_body]. unfold emit_transmute.
    cbn [bind]. rewrite He. cbn [bind deref ret]. rewrite Ht. cbn [bind deref ret].
    rewrite !bool_decide_eq_false_2 by assumption.
    cbn [bind deref ret comment update_block modify back].
    rewrite Ho. reflexivity.
Qed.

Lemma transmute_checks_number_classes_only_witness :
  exists s,
    emit_element 2 (transmute (example_header 2 "transmute_2" (Some (numeric_type f32)))
                              (numeric_type f32) (u8_literal 1 5))
                 0%nat empty_result start_session
    = Ok (0%nat, emplace_back (target_operand_for (numeric_type f32))
                   {| er_type := Some (numeric_type f32); er_operands := [];
                      er_skip_read := false |}) s /\
    instructions_of s 0
    = [inst move [target_operand_for (numeric_type f32); operand_integer 5 byte;
                  operand_empty]].
Proof.
  destruct (transmute_checks_number_classes_only
              1 (example_header 2 "transmute_2" (Some (numeric_type f32)))
              (numeric_type f32) (u8_literal 1 5) 0%nat empty_result start_session
              0%nat _ _ (numeric_type u8) eq_refl eq_refl) as (_ & _ & H).
  eexists.
  split; [exact (H ltac:(discriminate) ltac:(discriminate)
                   (operand_integer 5 byte) eq_refl)
         | reflexivity].
Defined.

(** *** Assignments *)

Definition assign (i : N) (lhs rhs : element) : element :=
  binary_operator (example_header i "binary_operator" None) assignment lhs rhs false.

(** The claim about mismatched assignments as the specification words it:
    the emission fails with a message whose code belongs to the type
    errors. *)
Definition assignment_rejection_as_specified : Prop :=
  forall f h lhs rhs non_owning bb r st bb1 rr st1 bb2 lr st2 lt rt,
    emit_element f rhs bb empty_result st = Ok (bb1, rr) st1 ->
    emit_element f lhs bb1 empty_result st1 = Ok (bb2, lr) st2 ->
    er_type lr = Some lt -> er_type rr = Some rt ->
    is_composite_type lt <> is_composite_type rt ->
    exists st' m,
      emit_element (S f) (binary_operator h assignment lhs rhs non_owning) bb r st
      = Failed st' /\
      last (messages st') = Some m /\
      is_type_error_code (code m) = true.

(** C7, counterexample: assigning a [u8] literal to a variable of the
    composite type [point] fails with the code X000. *)
Lemma scalar_to_composite_fails_with_X000 :
  match emit_element 2 (assign 3 (example_identifier 1 "p" point) (u8_literal 2 42))
                     0%nat empty_result start_session with
  | Failed s =>
      messages s = [{| code := "X000";
                       message := "cannot assign scalar to composite type." |}]
  | _ => False
  end
  /\ ~ assignment_rejection_as_specified.
Proof.
  split.
  - vm_compute. reflexivity.
  - intros H.
    destruct (H 1%nat (example_header 3 "binary_operator" None)
                (example_identifier 1 "p" point) (u8_literal 2 42) false
                0%nat empty_result start_session
                0%nat _ _ 0%nat _ _ point (numeric_type u8)
                eq_refl eq_refl eq_refl eq_refl) as (st' & m & He & Hm & Hc).
    + cbn. discriminate.
    + vm_compute in He. injection He as <-.
      vm_compute in Hm. injection Hm as <-.
      vm_compute in Hc. discriminate Hc.
Qed.

Lemma two_operands {A} (l : list A) (a b : A) :
  length l = 2%nat -> head l = Some a -> last l = Some b ->
  l !! 0%nat = Some a /\ l !! 1%nat = Some b.
Proof.
  destruct l as [| x [| y [| z l]]]; cbn; try discriminate.
  intros _ [= ->] [= ->]. split; reflexivity.
Qed.

(** C7, amended: once both sides of an assignment are emitted with
    inferred types, and the left side's type is not a pointer type: when
    exactly one side is composite the emission fails with a message of code
    X000, whatever operands the two emissions left; when both sides are
    composite the block the assignment started in receives a byte-wise
    [copy] of the right side's size, between the operands the two sides
    left, instead of a [store].  When the left side's type is a pointer
    type, or neither side is composite, the block receives a [store]. *)
Theorem assignment_copies_composites
        (f : nat) (h : element_header) (lhs rhs : element) (non_owning : bool)
        (bb : nat) (r : emit_result_t) (st : session)
        (bb1 : nat) (rr : emit_result_t) (st1 : session)
        (bb2 : nat) (lr : emit_result_t) (st2 : session)
        (lt rt : type) :
  emit_element f rhs bb empty_result st = Ok (bb1, rr) st1 ->
  emit_element f lhs bb1 empty_result st1 = Ok (bb2, lr) st2 ->
  er_type lr = Some lt -> er_type rr = Some rt ->
  let assignment_element := binary_operator h assignment lhs rhs non_owning in
  let emitted := emit_element (S f) assignment_element bb r st in
  (is_pointer_type lt = false ->
   is_composite_type lt = true -> is_composite_type rt = true ->
   forall lbase lo ro : instruction_operand_t,
     head (er_operands lr) = Some lbase -> last (er_operands lr) = Some lo ->
     last (er_operands rr) = Some ro ->
     emitted = Ok (bb2, infer_type assignment_element r)
                  (with_instructions bb
                     (copy_instructions (er_operands lr) lbase lo ro
                                        (type_size_in_bytes rt)) st2)) /\
  (is_pointer_type lt = false ->
   is_composite_type lt = true -> is_composite_type rt = false ->
   emitted = Failed (with_message "X000" "cannot assign scalar to composite type." st2)) /\
  (is_pointer_type lt = false ->
   is_composite_type lt = false -> is_composite_type rt = true ->
   emitted = Failed (with_message "X000" "cannot assign composite type to scalar." st2)) /\
  (is_pointer_type lt = true \/
   (is_composite_type lt = false /\ is_composite_type rt = false) ->
   forall lbase lo ro : instruction_operand_t,
     head (er_operands lr) = Some lbase -> last (er_operands lr) = Some lo ->
     last (er_operands rr) = Some ro ->
     emitted = Ok (bb2, infer_type assignment_element r)
                  (with_instructions bb
                     (store_instructions (er_operands lr) lbase lo ro) st2)).
Proof.
  intros Hr Hl Hlt Hrt assignment_element emitted.
  assert (Hstart : emitted
    = emit_assignment (emit_element f) lhs rhs bb (infer_type assignment_element r) st)
    by reflexivity.
  rewrite Hstart. clear Hstart emitted.
  unfold emit_assignment.
  cbn [bind]. rewrite Hr. cbn [bind]. rewrite Hl.
  cbn [bind deref ret]. rewrite Hlt. cbn [bind deref ret]. rewrite Hrt.
  cbn [bind deref ret].
  unfold copy_instructions, store_instructions.
  split; [| split; [| split]].
  - intros -> -> -> lbase lo ro Hbase Hlo Hro. cbn [negb andb bind ret].
    destruct (decide (length (er_operands lr) = 2%nat)) as [H2 | H2].
    + rewrite !bool_decide_eq_true_2 by assumption.
      cbn [bind front back deref ret instruction update_block modify].
      rewrite Hbase, Hlo, Hro. reflexivity.
    + rewrite !bool_decide_eq_false_2 by assumption.
      cbn [bind front back deref ret instruction update_block modify].
      rewrite Hlo, Hro. reflexivity.
  - intros -> -> ->. reflexivity.
  - intros -> -> ->. reflexivity.
  - intros Hcase lbase lo ro Hbase Hlo Hro.
    assert (Hcopy :
      (if negb (is_pointer_type lt)
       then if is_composite_type lt && negb (is_composite_type rt)
            then (error "X000" "cannot assign scalar to composite type." ;; fail)
            else if negb (is_composite_type lt) && is_composite_type rt
                 then (error "X000" "cannot assign composite type to scalar." ;; fail)
                 else ret (is_composite_type lt && is_composite_type rt)
       else ret false) st2 = Ok false st2).
    { destruct Hcase as [-> | [-> ->]]; [reflexivity |].
      destruct (is_pointer_type lt); reflexivity. }
    match type of Hcopy with
    | ?m st2 = _ =>
        match goal with
        | |- match m st2 with _ => _ end = _ => rewrite Hcopy
        end
    end.
    destruct (decide (length (er_operands lr) = 2%nat)) as [H2 | H2].
    + rewrite !bool_decide_eq_true_2 by assumption.
      destruct (two_operands _ _ _ H2 Hbase Hlo) as [H0 H1].
      cbn [bind front back deref ret instruction update_block modify].
      rewrite H0, Hro, H1. reflexivity.
    + rewrite !bool_decide_eq_false_2 by assumption.
      cbn [bind front back deref ret instruction update_block modify].
      rewrite Hlo, Hro. reflexivity.
Qed.

Lemma assignment_copies_composites_witness :
  match emit_element 2 (assign 3 (example_identifier 1 "p" point)
                                 (example_identifier 2 "q" point))
                     0%nat empty_result start_session with
  | Ok (bb, r) s =>
      instructions_of s 0
      = [sized_inst copy byte [local_operand "p"; local_operand "q";
                               operand_integer 8 qword]]
  | _ => False
  end.
Proof.
  destruct (assignment_copies_composites
              1 (example_header 3 "binary_operator" None)
              (example_identifier 1 "p" point) (example_identifier 2 "q" point) false
              0%nat empty_result start_session 0%nat _ _ 0%nat _ _
              point point eq_refl eq_refl eq_refl eq_refl) as (H & _).
  unfold assign.
  rewrite (H eq_refl eq_refl eq_refl
             (local_operand "p") (local_operand "p") (local_operand "q")
             eq_refl eq_refl eq_refl).
  vm_compute. reflexivity.
Defined.


(** *** Emission only appends to the current block and to new blocks *)

#[local] Arguments make_block s /.
#[local] Arguments get_block b s /.
#[local] Arguments block_label b name target s /.
#[local] Arguments add_predecessors b ps s /.
#[local] Arguments add_successors b ss s /.
#[local] Arguments add_cfg_edge b name s /.
#[local] Arguments allocate_id s /.
#[local] Arguments make_binary_operator o lhs rhs s /.
#[local] Arguments make_non_owning e s /.
#[local] Arguments current_flow_control s /.
#[local] Arguments read_flow_control i s /.
#[local] Arguments write_flow_control i f s /.
#[local] Arguments integer_argument e s /.
#[local] Arguments allocated_size arg_list s /.
#[local] Arguments set_allocated_size arg_list v s /.
#[local] Arguments push_locals b locals excluded s /.
#[local] Arguments pop_locals b locals excluded s /.
#[local] Arguments interned_string_data_label element_id s /.
#[local] Arguments begin_stack_frame current_block has_stack_frame parent_is_directive s /.
#[local] Arguments end_stack_frame current_block has_stack_frame s /.
#[local] Arguments operand_int64 o s /.
#[local] Arguments cast_instruction mode target_operand source_operands s /.

Lemma grows_fn_prefix f b :
  grows_fn f ->
  bb_instructions b `prefix_of` bb_instructions (f b) /\
  bb_labels b `prefix_of` bb_labels (f b).
Proof.
  intros []; cbn; split; try reflexivity; apply prefix_app_r; reflexivity.
Qed.

Lemma edges_fn_same f b :
  edges_fn f ->
  bb_instructions (f b) = bb_instructions b /\ bb_labels (f b) = bb_labels b.
Proof. intros []; cbn; split; reflexivity. Qed.

Lemma instructions_of_alter f b s i :
  instructions_of (set_blocks (alter f b) s) i
  = if decide (b = i)
    then match blocks s !! i with
         | Some blk => bb_instructions (f blk)
         | None => []
         end
    else instructions_of s i.
Proof.
  unfold instructions_of, instructions_at. cbn [blocks set_blocks].
  destruct (decide (b = i)) as [-> | Hne].
  - rewrite list_lookup_alter_eq. destruct (blocks s !! i); reflexivity.
  - rewrite list_lookup_alter_ne by assumption. reflexivity.
Qed.

Lemma labels_of_alter f b s i :
  labels_of (set_blocks (alter f b) s) i
  = if decide (b = i)
    then match blocks s !! i with
         | Some blk => bb_labels (f blk)
         | None => []
         end
    else labels_of s i.
Proof.
  unfold labels_of, labels_at. cbn [blocks set_blocks].
  destruct (decide (b = i)) as [-> | Hne].
  - rewrite list_lookup_alter_eq. destruct (blocks s !! i); reflexivity.
  - rewrite list_lookup_alter_ne by assumption. reflexivity.
Qed.

Lemma extends_refl n0 bb0 s : (n0 <= length (blocks s))%nat -> extends n0 bb0 s s.
Proof.
  intros H. repeat split; try reflexivity; try lia.
Qed.

Lemma extends_trans n0 bb0 s1 s2 s3 :
  extends n0 bb0 s1 s2 -> extends n0 bb0 s2 s3 -> extends n0 bb0 s1 s3.
Proof.
  intros (Hn1 & Hl1 & Hm1 & Hg1 & Hf1) (Hn2 & Hl2 & Hm2 & Hg2 & Hf2).
  split; [assumption |]. split; [lia |]. split; [etrans; eassumption |].
  split.
  - intros i. destruct (Hg1 i), (Hg2 i). split; etrans; eassumption.
  - intros i Hi Hne. destruct (Hf1 i Hi Hne) as [E1 E2].
    destruct (Hf2 i Hi Hne) as [E3 E4]. split; congruence.
Qed.

Lemma extends_alter_content n0 bb0 s0 s f b :
  extends n0 bb0 s0 s -> grows_fn f -> (b = bb0 \/ n0 <= b)%nat ->
  extends n0 bb0 s0 (set_blocks (alter f b) s).
Proof.
  intros H Hf Hb. eapply extends_trans; [exact H |].
  destruct H as (Hn & Hl & _).
  split; [lia |]. split; [cbn; rewrite length_alter; lia |].
  split; [reflexivity |]. split.
  - intros i. rewrite instructions_of_alter, labels_of_alter.
    unfold instructions_of, labels_of, instructions_at, labels_at.
    destruct (decide (b = i)); [| split; reflexivity].
    destruct (blocks s !! i); [| split; reflexivity].
    apply grows_fn_prefix. assumption.
  - intros i Hi Hne. rewrite instructions_of_alter, labels_of_alter.
    destruct (decide (b = i)); [lia |]. split; reflexivity.
Qed.

Lemma extends_alter_edges n0 bb0 s0 s f b :
  extends n0 bb0 s0 s -> edges_fn f ->
  extends n0 bb0 s0 (set_blocks (alter f b) s).
Proof.
  intros H Hf. eapply extends_trans; [exact H |].
  destruct H as (Hn & Hl & _).
  split; [lia |]. split; [cbn; rewrite length_alter; lia |].
  split; [reflexivity |].
  assert (Hsame : forall i,
    instructions_of (set_blocks (alter f b) s) i = instructions_of s i /\
    labels_of (set_blocks (alter f b) s) i = labels_of s i).
  { intros i. rewrite instructions_of_alter, labels_of_alter.
    unfold instructions_of, labels_of, instructions_at, labels_at.
    destruct (decide (b = i)); [| split; reflexivity].
    destruct (blocks s !! i); [| split; reflexivity].
    apply edges_fn_same. assumption. }
  split.
  - intros i. destruct (Hsame i) as [-> ->]. split; reflexivity.
  - intros i _ _. apply Hsame.
Qed.

Lemma extends_make n0 bb0 s0 s :
  extends n0 bb0 s0 s ->
  extends n0 bb0 s0 (set_blocks (fun bs => bs ++ [empty_block]) s).
Proof.
  intros H. eapply extends_trans; [exact H |].
  destruct H as (Hn & Hl & _).
  assert (Hsame : forall i,
    instructions_of (set_blocks (fun bs => bs ++ [empty_block]) s) i = instructions_of s i /\
    labels_of (set_blocks (fun bs => bs ++ [empty_block]) s) i = labels_of s i).
  { intros i. unfold instructions_of, labels_of, instructions_at, labels_at. cbn [blocks set_blocks].
    destruct (decide (i < length (blocks s))%nat).
    - rewrite lookup_app_l by assumption. split; reflexivity.
    - rewrite lookup_app_r by lia. rewrite (lookup_ge_None_2 (blocks s)) by lia.
      destruct (i - length (blocks s))%nat as [| k]; cbn; split; reflexivity. }
  split; [lia |]. split; [cbn; rewrite length_app; cbn; lia |].
  split; [reflexivity |]. split.
  - intros i. destruct (Hsame i) as [-> ->]. split; reflexivity.
  - intros i _ _. apply Hsame.
Qed.

Lemma extends_same_blocks n0 bb0 s0 s s' :
  extends n0 bb0 s0 s -> blocks s' = blocks s ->
  labels_map s `prefix_of` labels_map s' ->
  extends n0 bb0 s0 s'.
Proof.
  intros H Hb Hm. eapply extends_trans; [exact H |].
  destruct H as (Hn & Hl & _).
  unfold extends, instructions_of, labels_of, instructions_at, labels_at. rewrite Hb.
  repeat split; try reflexivity; try lia. assumption.
Qed.

Lemma extends_weaken n0 bb0 c s s' :
  extends (length (blocks s)) c s s' ->
  (n0 <= length (blocks s))%nat -> (c = bb0 \/ n0 <= c)%nat ->
  extends n0 bb0 s s'.
Proof.
  intros (Hn & Hl & Hm & Hg & Hf) Hn0 Hc.
  repeat split; try assumption; try apply Hg; apply Hf; lia.
Qed.

Lemma pop_flow_control_id s : pop_flow_control s = s.
Proof. unfold pop_flow_control. destruct (control_flow_stack s); reflexivity. Qed.

Lemma extends_set_labels_map n0 bb0 s0 s l :
  extends n0 bb0 s0 s -> extends n0 bb0 s0 (set_labels_map (fun ls => ls ++ l) s).
Proof.
  intros H. eapply extends_same_blocks; [exact H | reflexivity |].
  cbn. apply prefix_app_r. reflexivity.
Qed.
Lemma extends_set_cfg_edges n0 bb0 s0 s f :
  extends n0 bb0 s0 s -> extends n0 bb0 s0 (set_cfg_edges f s).
Proof. intros H. eapply extends_same_blocks; [exact H | reflexivity | reflexivity]. Qed.
Lemma extends_set_control_flow_stack n0 bb0 s0 s f :
  extends n0 bb0 s0 s -> extends n0 bb0 s0 (set_control_flow_stack f s).
Proof. intros H. eapply extends_same_blocks; [exact H | reflexivity | reflexivity]. Qed.
Lemma extends_set_elements_map n0 bb0 s0 s f :
  extends n0 bb0 s0 s -> extends n0 bb0 s0 (set_elements_map f s).
Proof. intros H. eapply extends_same_blocks; [exact H | reflexivity | reflexivity]. Qed.
Lemma extends_set_id_pool n0 bb0 s0 s f :
  extends n0 bb0 s0 s -> extends n0 bb0 s0 (set_id_pool f s).
Proof. intros H. eapply extends_same_blocks; [exact H | reflexivity | reflexivity]. Qed.
Lemma extends_set_messages n0 bb0 s0 s f :
  extends n0 bb0 s0 s -> extends n0 bb0 s0 (set_messages f s).
Proof. intros H. eapply extends_same_blocks; [exact H | reflexivity | reflexivity]. Qed.
Lemma extends_set_allocated_sizes n0 bb0 s0 s f :
  extends n0 bb0 s0 s -> extends n0 bb0 s0 (set_allocated_sizes f s).
Proof. intros H. eapply extends_same_blocks; [exact H | reflexivity | reflexivity]. Qed.
Lemma extends_set_ffi_functions n0 bb0 s0 s f :
  extends n0 bb0 s0 s -> extends n0 bb0 s0 (set_ffi_functions f s).
Proof. intros H. eapply extends_same_blocks; [exact H | reflexivity | reflexivity]. Qed.

Lemma extends_lengths n0 bb0 s0 s :
  extends n0 bb0 s0 s -> (n0 <= length (blocks s0) <= length (blocks s))%nat.
Proof. intros (? & ? & _). lia. Qed.


(** Lengths of the block lists of explicitly built sessions. *)
Ltac norm_blocks :=
  repeat first
    [ progress cbn [blocks set_blocks set_labels_map set_cfg_edges
                    set_control_flow_stack set_elements_map set_id_pool
                    set_messages set_allocated_sizes set_ffi_functions] in *
    | progress unfold push_flow_control, remove, record_call_site in *
    | rewrite pop_flow_control_id in *
    | rewrite length_alter in *
    | rewrite length_app in *
    | progress cbn [length] in * ].

Ltac ext_facts :=
  repeat match goal with
         | H : extends _ _ _ _ |- _ =>
             let H' := fresh in
             pose proof (extends_lengths _ _ _ _ H) as H'; revert H
         end; intros.

Ltac norm_goal :=
  repeat first
    [ progress cbn [blocks set_blocks set_labels_map set_cfg_edges
                    set_control_flow_stack set_elements_map set_id_pool
                    set_messages set_allocated_sizes set_ffi_functions
                    push_flow_control remove record_call_site]
    | rewrite pop_flow_control_id
    | rewrite length_alter
    | rewrite length_app
    | progress cbn [length] ].

(** Arithmetic on the lengths of block lists, without the case
    distinctions on where a block came from. *)
Ltac lenlia :=
  repeat match goal with
         | H : _ \/ _ |- _ => clear H
         | H : _ -> _ |- _ => clear H
         end;
  ext_facts; lia.

(** [b = bb0 \/ n0 <= b] for a block that is the current one, a made one,
    or one a callee returned. *)
Ltac side_block :=
  norm_goal;
  first [ assumption | left; reflexivity | right; lenlia ].

(** [bb0 < n0 -> b < length ..]. *)
Ltac side_valid :=
  norm_goal;
  let Hbb := fresh "Hbb" in
  intros Hbb;
  repeat match goal with
         | H : (_ < _)%nat -> (_ < _)%nat |- _ => specialize (H Hbb)
         end;
  repeat match goal with
         | H : _ \/ _ |- _ => clear H
         end;
  ext_facts; lia.

Ltac side := norm_goal; lenlia.

(** [extends] for a session built from one that is known to extend. *)
Ltac peel :=
  first
    [ eassumption
    | apply extends_refl; side
    | apply extends_alter_edges; [peel | constructor]
    | apply extends_alter_content; [peel | constructor | side_block]
    | apply extends_make; peel
    | apply extends_set_labels_map; peel
    | apply extends_set_cfg_edges; peel
    | apply extends_set_control_flow_stack; peel
    | apply extends_set_elements_map; peel
    | apply extends_set_id_pool; peel
    | apply extends_set_messages; peel
    | apply extends_set_allocated_sizes; peel
    | apply extends_set_ffi_functions; peel
    | rewrite pop_flow_control_id; peel
    | unfold push_flow_control, remove, record_call_site; peel ].

Ltac mcbn :=
  cbn [bind ret fail undefined out_of_fuel modify get deref back front error
       comment instruction update_block with_defer make_block get_block
       block_label add_predecessors add_successors add_cfg_edge fst snd
       allocate_id make_binary_operator make_non_owning current_flow_control
       read_flow_control write_flow_control integer_argument allocated_size
       set_allocated_size push_locals pop_locals interned_string_data_label
       begin_stack_frame end_stack_frame operand_int64
       cast_instruction
       blocks labels_map cfg_edges control_flow_stack elements_map id_pool
       messages allocated_sizes interned_strings ffi_functions assembler_locals
       set_blocks set_labels_map set_cfg_edges set_control_flow_stack
       set_elements_map set_id_pool set_messages set_allocated_sizes
       set_ffi_functions push_flow_control remove record_call_site
       element_id header id];
  repeat first [ rewrite pop_flow_control_id
               | rewrite length_alter
               | rewrite length_app
               | progress cbn [length] ].

(** What a call that returned [Ok] tells about the session it left. *)
Ltac after_call Hc :=
  let Hx := fresh "Hext" in
  let Hb := fresh "Hblk" in
  let Hv := fresh "Hval" in
  destruct Hc as (Hx & Hb & Hv);
  match type of Hx with
  | extends _ _ _ ?s' =>
      match type of Hb with
      | (?c' = _ \/ _) =>
          lazymatch goal with
          | |- context [block_post ?bb0 ?s0] =>
              let He := fresh "He" in
              assert (He : extends (length (blocks s0)) bb0 s0 s')
                by (eapply extends_trans;
                    [| eapply extends_weaken; [exact Hx | side | side_block]]; peel);
              let Hv' := fresh "Hv" in
              assert (Hv' : (bb0 < length (blocks s0) -> c' < length (blocks s'))%nat)
                by (let Hbb := fresh "Hbb" in
                    intros Hbb; apply Hv;
                    repeat match goal with
                           | H : (_ < _)%nat -> (_ < _)%nat |- _ => specialize (H Hbb)
                           end;
                    norm_goal;
                    repeat match goal with
                           | H : _ \/ _ |- _ => clear H
                           end;
                    ext_facts; lia);
              let Hb' := fresh "Hb" in
              assert (Hb' : (c' = bb0 \/ length (blocks s0) <= c')%nat)
                by (clear Hv Hv'; norm_goal; revert Hb; norm_goal; intros Hb;
                    destruct Hb as [-> | Hb]; [side_block | right; lenlia]);
              clear Hx Hb Hv
          end
      end
  end.

(** A stuck call of an emitter known to be [block_safe], or of a
    computation known to be pure. *)
Ltac call_known :=
  match goal with
  | |- context [match ?f ?c ?r ?S with _ => _ end] =>
      let Hf := fresh "Hf" in
      assert (Hf : block_safe f) by (solve [auto]);
      let Hc := fresh "Hcall" in
      pose proof (Hf c r S) as Hc; clear Hf;
      destruct (f c r S) as [[? ?] ? | ? | | ]; [| exact I..];
      after_call Hc
  | |- context [match ?f ?c ?S with _ => _ end] =>
      let Hf := fresh "Hf" in
      assert (Hf : block_safe_nat f) by (solve [auto]);
      let Hc := fresh "Hcall" in
      pose proof (Hf c S) as Hc; clear Hf;
      destruct (f c S) as [? ? | ? | | ]; [| exact I..];
      after_call Hc
  | |- context [match ?f ?S with _ => _ end] =>
      let Hf := fresh "Hf" in
      assert (Hf : pure_m f) by (solve [auto]);
      let Hc := fresh "Hcall" in
      pose proof (Hf S) as Hc; clear Hf;
      destruct (f S) as [? ? | ? | | ]; [subst | exact I..]
  end.

Ltac finish :=
  lazymatch goal with
  | |- True => exact I
  | |- block_post _ _ _ _ =>
      split; [peel | split; [side_block | side_valid]]
  | |- extends _ _ _ _ /\ length _ = length _ =>
      split; [peel | side]
  end.

Ltac destruct_stuck :=
  match goal with
  | |- context [match ?x with _ => _ end] =>
      lazymatch x with
      | context [match _ with _ => _ end] => fail
      | _ =>
          lazymatch type of x with
          | outcome _ => fail
          | _ => destruct x
          end
      end
  end.

(** What a step that makes no block tells about the session it left. *)
Ltac after_unit Hc b :=
  let Hx := fresh "Hext" in
  let Hl := fresh "Hlen" in
  destruct Hc as (Hx & Hl);
  match type of Hx with
  | extends _ _ _ ?s' =>
      lazymatch goal with
      | |- context [block_post ?bb0 ?s0] =>
          let He := fresh "He" in
          assert (He : extends (length (blocks s0)) bb0 s0 s')
            by (eapply extends_trans;
                [| eapply extends_weaken; [exact Hx | side | side_block]]; peel);
          clear Hx; revert Hl; norm_goal; intros Hl
      | |- context [extends _ ?b0 ?s0 _ /\ _] =>
          let He := fresh "He" in
          assert (He : extends (length (blocks s0)) b0 s0 s')
            by (eapply extends_trans;
                [| eapply extends_weaken; [exact Hx | side | side_block]]; peel);
          clear Hx; revert Hl; norm_goal; intros Hl
      end
  end.

(** A conditional step is settled on its own, so that what follows it is
    gone through once. *)
Ltac cut_step go :=
  match goal with
  | |- context [match ?m ?S with _ => _ end] =>
      lazymatch m with
      | (if _ then _ else _) => idtac
      | (match _ with _ => _ end) => idtac
      end;
      let T := type of (m S) in
      let T' := eval cbv beta delta [M] in T in
      lazymatch T' with
      | outcome unit => idtac
      end;
      lazymatch goal with
      | |- match m S with _ => _ end => fail
      | |- _ => idtac
      end;
      first
        [ let b :=
            lazymatch m with
            | context [instruction ?b _] => b
            | context [comment ?b _] => b
            | context [update_block ?b _] => b
            | context [push_locals ?b _ _] => b
            | context [pop_locals ?b _ _] => b
            | context [add_cfg_edge ?b _] => b
            end in
          let H := fresh "Hunit" in
          assert (H : unit_safe b m)
            by (let s := fresh "s" in intros s; mcbn; destruct_stuck; go);
          let Hc := fresh "Hcall" in
          pose proof (H S) as Hc; clear H;
          destruct (m S) as [? ? | ? | | ]; [| exact I..];
          after_unit Hc b
        | let H := fresh "Hunit" in
          assert (H : frame_safe m)
            by (let s := fresh "s" in intros s; mcbn; destruct_stuck; go);
          let Hc := fresh "Hcall" in
          pose proof (H S) as Hc; clear H;
          destruct (m S) as [? ? | ? | | ]; [| exact I..];
          after_unit Hc 0%nat ]
  end.

Ltac step := mcbn; first [finish | call_known | destruct_stuck].
Ltac run0 := repeat step.
Ltac step_cut := mcbn; first [finish | call_known | cut_step run0 | destruct_stuck].
Ltac run := repeat step_cut.

Lemma next_case_label_pure next : pure_m (next_case_label next).
Proof.
  intros s. unfold next_case_label.
  destruct next as [[] |]; try reflexivity.
  destruct expr as [[] |]; reflexivity.
Qed.

#[local] Hint Resolve next_case_label_pure : core.

Section BlockSafety.
Variable emit : element -> emitter.
Variable emit_args : N -> bool -> list element -> nat -> M nat.
Hypothesis Hemit : forall e, block_safe (emit e).
Hypothesis Hargs : forall a f es, block_safe_nat (emit_args a f es).

Lemma emit_each_block_safe es : block_safe_nat (emit_each emit es).
Proof.
  induction es as [| e es IH]; intros bb0 s0; cbn [emit_each]; run.
Qed.

Lemma emit_optional_block_safe o : block_safe_nat (emit_optional emit o).
Proof. intros bb0 s0. unfold emit_optional. run. Qed.

Hint Resolve emit_each_block_safe emit_optional_block_safe : core.

Lemma emit_cast_block_safe t x : block_safe (emit_cast emit t x).
Proof. intros bb0 r0 s0. unfold emit_cast. run. Qed.

Lemma emit_transmute_block_safe t x : block_safe (emit_transmute emit t x).
Proof. intros bb0 r0 s0. unfold emit_transmute. run. Qed.

Lemma emit_if_e_block_safe h p t fb : block_safe (emit_if_e emit h p t fb).
Proof. intros bb0 r0 s0. unfold emit_if_e. run. Qed.

Lemma emit_for_e_block_safe h i x b : block_safe (emit_for_e emit h i x b).
Proof. intros bb0 r0 s0. unfold emit_for_e, emit_for_range. run. Qed.

Lemma defer_match {A} (expr : option element) (a b : A) :
  match expr with Some (defer_e _ _) => a | _ => b end =
  match expr with
  | Some e => if is_defer e then a else b
  | None => b
  end.
Proof. destruct expr as [[] |]; reflexivity. Qed.

Lemma emit_statements_block_safe prev stmts :
  block_safe_nat (emit_statements emit prev stmts).
Proof.
  revert prev. induction stmts as [| stmt rest IH]; intros prev bb0 s0;
    cbn [emit_statements]; [run |].
  destruct stmt; try exact I.
  mcbn. call_known. rewrite defer_match.
  run.
Qed.

Hint Resolve emit_statements_block_safe : core.

Lemma emit_block_block_safe sf pd ss ds : block_safe_nat (emit_block emit sf pd ss ds).
Proof. intros bb0 s0. unfold emit_block. run. Qed.

Lemma emit_case_e_block_safe h x sc : block_safe (emit_case_e emit h x sc).
Proof. intros bb0 r0 s0. unfold emit_case_e. run. Qed.

Lemma emit_switch_e_block_safe h x sc : block_safe (emit_switch_e emit h x sc).
Proof. intros bb0 r0 s0. unfold emit_switch_e. run. Qed.

Lemma emit_jump_out_block_safe pick what l : block_safe (emit_jump_out pick what l).
Proof. intros bb0 r0 s0. unfold emit_jump_out. run. Qed.

Lemma emit_fallthrough_block_safe : block_safe emit_fallthrough.
Proof. intros bb0 r0 s0. unfold emit_fallthrough. run. Qed.

Lemma emit_while_e_block_safe h p b : block_safe (emit_while_e emit h p b).
Proof. intros bb0 r0 s0. unfold emit_while_e. run. Qed.

Lemma emit_return_e_block_safe rf xs : block_safe (emit_return_e emit rf xs).
Proof. intros bb0 r0 s0. unfold emit_return_e. run. Qed.

Lemma emit_intrinsic_block_safe n xs : block_safe (emit_intrinsic emit n xs).
Proof. intros bb0 r0 s0. unfold emit_intrinsic. run. Qed.

Lemma emit_assembly_directive_block_safe a : block_safe (emit_assembly_directive a).
Proof. intros bb0 r0 s0. unfold emit_assembly_directive. run. Qed.

Lemma emit_if_directive_block_safe o : block_safe (emit_if_directive emit o).
Proof. intros bb0 r0 s0. unfold emit_if_directive. run. Qed.

Lemma emit_run_directive_block_safe x : block_safe (emit_run_directive emit x).
Proof. intros bb0 r0 s0. unfold emit_run_directive. run. Qed.

Lemma emit_argument_block_safe fc a :
  forall bb s,
    match emit_argument emit fc a bb s with
    | Ok (bb', _) s' => block_post bb s bb' s'
    | _ => True
    end.
Proof. intros bb0 s0. unfold emit_argument. run. Qed.

Lemma emit_arguments_loop_block_safe al fc es :
  block_safe_nat (emit_arguments_loop emit emit_args al fc es).
Proof.
  induction es as [| e es IH]; intros bb0 s0; cbn [emit_arguments_loop]; [run |].
  assert (Harg : forall bb s,
    match (match e with
           | argument_list lh lforeign _ lelements =>
               do bb' <- emit_args (id lh) lforeign lelements bb;
               ret (bb', None)
           | _ => emit_argument emit fc e bb
           end) s with
    | Ok (bb', _) s' => block_post bb s bb' s'
    | _ => True
    end).
  { intros bb s. pose proof (emit_argument_block_safe fc e bb s) as Ha.
    destruct e; try exact Ha. clear Ha. revert bb s.
    intros bb0' s0'. run. }
  mcbn.
  match goal with
  | |- context [match ?m s0 with _ => _ end] =>
      pose proof (Harg bb0 s0) as Hcall;
      destruct (m s0) as [[? ?] ? | ? | | ]; [| exact I..]
  end.
  after_call Hcall. run.
Qed.

Lemma emit_arguments_body_block_safe al fc es :
  block_safe_nat (emit_arguments_body emit emit_args al fc es).
Proof. unfold emit_arguments_body. apply emit_arguments_loop_block_safe. Qed.

Lemma emit_proc_call_block_safe h pt l a : block_safe (emit_proc_call emit h pt l a).
Proof. intros bb0 r0 s0. unfold emit_proc_call. run. Qed.

Lemma emit_identifier_block_safe h : block_safe (emit_identifier h).
Proof. intros bb0 r0 s0. unfold emit_identifier. run. Qed.

Lemma emit_string_literal_block_safe h : block_safe (emit_string_literal h).
Proof. intros bb0 r0 s0. unfold emit_string_literal. run. Qed.

Lemma emit_integer_literal_block_safe v : block_safe (emit_integer_literal v).
Proof. intros bb0 r0 s0. unfold emit_integer_literal. run. Qed.

Lemma emit_assembly_label_block_safe n : block_safe (emit_assembly_label n).
Proof. intros bb0 r0 s0. unfold emit_assembly_label. run. Qed.

Lemma emit_unary_operator_block_safe o x : block_safe (emit_unary_operator emit o x).
Proof. intros bb0 r0 s0. unfold emit_unary_operator. run. Qed.

Lemma emit_relational_operator_block_safe h o l r :
  block_safe (emit_relational_operator emit h o l r).
Proof. intros bb0 r0 s0. unfold emit_relational_operator. run. Qed.

Lemma emit_arithmetic_operator_block_safe o l r :
  block_safe (emit_arithmetic_operator emit o l r).
Proof. intros bb0 r0 s0. unfold emit_arithmetic_operator. run. Qed.

Lemma emit_member_access_block_safe l r : block_safe (emit_member_access emit l r).
Proof. intros bb0 r0 s0. unfold emit_member_access. run. Qed.

Lemma emit_assignment_block_safe l r : block_safe (emit_assignment emit l r).
Proof. intros bb0 r0 s0. unfold emit_assignment. run. Qed.

Lemma emit_binary_operator_block_safe h o l r :
  block_safe (emit_binary_operator emit h o l r).
Proof.
  intros bb0 r0 s0. unfold emit_binary_operator.
  destruct o;
    first [ apply emit_arithmetic_operator_block_safe
          | apply emit_relational_operator_block_safe
          | apply emit_member_access_block_safe
          | apply emit_assignment_block_safe
          | run ].
Qed.

Lemma emit_element_body_block_safe e : block_safe (emit_element_body emit emit_args e).
Proof.
  intros bb0 r0 s0. unfold emit_element_body.
  pose proof emit_block_block_safe.
  pose proof emit_arguments_body_block_safe.
  destruct e; cbv zeta;
    lazymatch goal with
    | |- context [emit_cast] => apply emit_cast_block_safe
    | |- context [emit_if_e] => apply emit_if_e_block_safe
    | |- context [emit_for_e] => apply emit_for_e_block_safe
    | |- context [emit_case_e] => apply emit_case_e_block_safe
    | |- context [emit_break_e] => apply emit_jump_out_block_safe
    | |- context [emit_continue_e] => apply emit_jump_out_block_safe
    | |- context [emit_while_e] => apply emit_while_e_block_safe
    | |- context [emit_return_e] => apply emit_return_e_block_safe
    | |- context [emit_switch_e] => apply emit_switch_e_block_safe
    | |- context [emit_intrinsic] => apply emit_intrinsic_block_safe
    | |- context [emit_assembly_directive] => apply emit_assembly_directive_block_safe
    | |- context [emit_if_directive] => apply emit_if_directive_block_safe
    | |- context [emit_run_directive] => apply emit_run_directive_block_safe
    | |- context [emit_proc_call] => apply emit_proc_call_block_safe
    | |- context [emit_transmute] => apply emit_transmute_block_safe
    | |- context [emit_fallthrough] => apply emit_fallthrough_block_safe
    | |- context [emit_identifier] => apply emit_identifier_block_safe
    | |- context [emit_string_literal] => apply emit_string_literal_block_safe
    | |- context [emit_integer_literal] => apply emit_integer_literal_block_safe
    | |- context [emit_assembly_label] => apply emit_assembly_label_block_safe
    | |- context [emit_unary_operator] => apply emit_unary_operator_block_safe
    | |- context [emit_binary_operator] => apply emit_binary_operator_block_safe
    | |- _ => run
    end.
Qed.

End BlockSafety.

(** Every emission extends the session it starts from: it appends to the
    block it is given and to blocks it makes, and to no other. *)
Lemma emit_element_block_safe (fuel : nat) :
  (forall e, block_safe (emit_element fuel e)) /\
  (forall a f es, block_safe_nat (emit_arguments fuel a f es)).
Proof.
  induction fuel as [| fuel [IHe IHa]].
  - split; intros; intro; intros; exact I.
  - split.
    + intros e. cbn [emit_element]. apply emit_element_body_block_safe; assumption.
    + intros a f es. cbn [emit_arguments].
      apply emit_arguments_body_block_safe; assumption.
Qed.

(** *** The element map and the flow-control stack *)

Lemma sess_post_refl s : sess_post s s.
Proof. split; [lia | split; [lia | reflexivity]]. Qed.

Lemma fresh_post s s' : fresh s -> sess_post s s' -> fresh s'.
Proof.
  intros Hf (Hid & _ & Hmap) k Hk. rewrite (Hmap Hf). apply Hf. lia.
Qed.

Lemma sess_post_trans s1 s2 s3 :
  sess_post s1 s2 -> sess_post s2 s3 -> sess_post s1 s3.
Proof.
  intros H12 H23.
  pose proof (fun Hf => fresh_post s1 s2 Hf H12) as Hf2.
  destruct H12 as (Hid1 & Hlen1 & Hmap1), H23 as (Hid2 & Hlen2 & Hmap2).
  split; [lia | split; [lia |]].
  intros Hf. rewrite (Hmap2 (Hf2 Hf)). apply Hmap1, Hf.
Qed.

Ltac keeps_solve :=
  let s := fresh "s" in
  intros s; unfold sess_post, fresh, push_flow_control, record_call_site;
  cbn [id_pool control_flow_stack elements_map
       set_blocks set_labels_map set_cfg_edges set_control_flow_stack
       set_elements_map set_id_pool set_messages set_allocated_sizes
       set_ffi_functions];
  rewrite ?length_alter, ?length_app; cbn [length];
  split; [lia | split; [lia | intros _; reflexivity]].

Lemma keeps_set_blocks f : keeps (set_blocks f).
Proof. keeps_solve. Qed.
Lemma keeps_set_labels_map f : keeps (set_labels_map f).
Proof. keeps_solve. Qed.
Lemma keeps_set_cfg_edges f : keeps (set_cfg_edges f).
Proof. keeps_solve. Qed.
Lemma keeps_set_messages f : keeps (set_messages f).
Proof. keeps_solve. Qed.
Lemma keeps_set_allocated_sizes f : keeps (set_allocated_sizes f).
Proof. keeps_solve. Qed.
Lemma keeps_set_ffi_functions f : keeps (set_ffi_functions f).
Proof. keeps_solve. Qed.
Lemma keeps_record_call_site a i args : keeps (record_call_site a i args).
Proof. keeps_solve. Qed.
Lemma keeps_push_flow_control fc : keeps (push_flow_control fc).
Proof. keeps_solve. Qed.
Lemma keeps_write_stack f i : keeps (set_control_flow_stack (alter f i)).
Proof. keeps_solve. Qed.
Lemma keeps_pop_flow_control : keeps pop_flow_control.
Proof. intros s. rewrite pop_flow_control_id. apply sess_post_refl. Qed.

Create HintDb sess.

#[local] Hint Resolve keeps_set_blocks keeps_set_labels_map keeps_set_cfg_edges
  keeps_set_messages keeps_set_allocated_sizes keeps_set_ffi_functions
  keeps_record_call_site keeps_push_flow_control keeps_write_stack
  keeps_pop_flow_control : sess.

Section Monad.
Context {A B : Type}.

Lemma sess_safe_ret (a : A) : sess_safe (ret a).
Proof. intros s. apply sess_post_refl. Qed.

Lemma sess_safe_fail : sess_safe (@fail A).
Proof. intros s. apply sess_post_refl. Qed.

Lemma sess_safe_undefined : sess_safe (@undefined A).
Proof. intros s. exact I. Qed.

Lemma sess_safe_out_of_fuel : sess_safe (@out_of_fuel A).
Proof. intros s. exact I. Qed.

Lemma sess_safe_get (f : session -> A) : sess_safe (get f).
Proof. intros s. apply sess_post_refl. Qed.

Lemma sess_safe_deref (o : option A) : sess_safe (deref o).
Proof. destruct o; [apply sess_safe_ret | apply sess_safe_undefined]. Qed.

Lemma sess_safe_back (l : list A) : sess_safe (back l).
Proof. apply sess_safe_deref. Qed.

Lemma sess_safe_front (l : list A) : sess_safe (front l).
Proof. apply sess_safe_deref. Qed.

Lemma sess_safe_bind (m : M A) (k : A -> M B) :
  sess_safe m -> (forall a, sess_safe (k a)) -> sess_safe (bind m k).
Proof.
  intros Hm Hk s. unfold bind. specialize (Hm s).
  destruct (m s) as [a s1 | s1 | |]; try exact I; [| exact Hm].
  specialize (Hk a s1).
  destruct (k a s1) as [b s2 | s2 | |]; try exact I;
    eapply sess_post_trans; eassumption.
Qed.

Lemma sess_safe_with_defer (cleanup : session -> session) (body : M A) :
  keeps cleanup -> sess_safe body -> sess_safe (with_defer cleanup body).
Proof.
  intros Hc Hb s. unfold with_defer. specialize (Hb s).
  destruct (body s) as [a s1 | s1 | |]; try exact I;
    (eapply sess_post_trans; [exact Hb | apply Hc]).
Qed.

End Monad.

Lemma sess_safe_modify f : keeps f -> sess_safe (modify f).
Proof. intros Hf s. apply Hf. Qed.

Lemma sess_safe_make_block : sess_safe make_block.
Proof. intros s. apply keeps_set_blocks. Qed.

Lemma sess_safe_allocate_id : sess_safe allocate_id.
Proof.
  intros s. unfold allocate_id, sess_post, fresh. cbn.
  split; [lia | split; [lia | reflexivity]].
Qed.

(** A synthetic operator lives in the element map for the scope that made
    it, and no longer. *)
Lemma sess_safe_scoped_operator {A} o l r (K : element -> M A) :
  (forall e, sess_safe (K e)) ->
  sess_safe (do e <- make_binary_operator o l r;
             do e' <- make_non_owning e;
             with_defer (remove (element_id e')) (K e')).
Proof.
  intros HK s.
  unfold bind at 1 2. unfold make_binary_operator, make_non_owning, allocate_id.
  unfold bind, modify, ret, with_defer. cbn [element_id header id].
  match goal with
  | |- context [K ?e _] => set (e' := e)
  end.
  match goal with
  | |- context [K e' ?S] => set (S1 := S)
  end.
  assert (Hpost : forall s', sess_post S1 s' -> sess_post s (remove (id_pool s) s')).
  { intros s' (Hid & Hlen & Hmap). split; [| split].
    - cbn in *. lia.
    - cbn in *. lia.
    - intros Hf. cbn [remove elements_map set_elements_map].
      rewrite Hmap.
      + subst S1. cbn [elements_map set_elements_map set_id_pool].
        rewrite lookup_alter_eq, lookup_insert_eq. cbn.
        apply map_eq. intros k. destruct (decide (k = id_pool s)) as [-> | Hne].
        * rewrite lookup_delete_eq. symmetry. apply Hf. lia.
        * rewrite lookup_delete_ne, lookup_alter_ne, lookup_insert_ne by congruence.
          reflexivity.
      + intros k Hk. subst S1. cbn in *.
        rewrite lookup_alter_ne, lookup_insert_ne by lia. apply Hf. lia. }
  specialize (HK e' S1).
  destruct (K e' S1) as [a s' | s' | |]; try exact I; apply Hpost, HK.
Qed.

Lemma sess_safe_scoped_operators {A} o1 l1 r1 o2 l2 (K : element -> element -> M A) :
  (forall e1 e2, sess_safe (K e1 e2)) ->
  sess_safe (do e1 <- make_binary_operator o1 l1 r1;
             do e2 <- make_binary_operator o2 l2 e1;
             do e1' <- make_non_owning e1;
             do e2' <- make_non_owning e2;
             with_defer (fun s => remove (element_id e1') (remove (element_id e2') s))
                        (K e1' e2')).
Proof.
  intros HK s.
  unfold bind at 1 2 3 4. unfold make_binary_operator, make_non_owning, allocate_id.
  unfold bind, modify, ret, with_defer.
  cbn [element_id header id id_pool set_id_pool set_elements_map].
  match goal with
  | |- context [K ?e1 ?e2 _] => set (e1' := e1); set (e2' := e2)
  end.
  match goal with
  | |- context [K e1' e2' ?S] => set (S1 := S)
  end.
  assert (Hpost : forall s', sess_post S1 s' ->
            sess_post s (remove (id_pool s) (remove (N.succ (id_pool s)) s'))).
  { intros s' (Hid & Hlen & Hmap).
    assert (Hne : id_pool s <> N.succ (id_pool s)) by lia.
    split; [| split].
    - cbn in *. lia.
    - cbn in *. lia.
    - intros Hf. cbn [remove elements_map set_elements_map].
      rewrite Hmap.
      + subst S1. cbn [elements_map set_elements_map set_id_pool].
        rewrite lookup_alter_eq, lookup_alter_ne, lookup_insert_eq by lia. cbn.
        rewrite lookup_delete_ne, lookup_alter_ne, lookup_alter_eq,
          lookup_insert_ne, lookup_insert_eq by lia. cbn.
        apply map_eq. intros k.
        destruct (decide (k = id_pool s)) as [-> | Hk1].
        { rewrite lookup_delete_eq. symmetry. apply Hf. lia. }
        rewrite lookup_delete_ne by congruence.
        destruct (decide (k = N.succ (id_pool s))) as [-> | Hk2].
        { rewrite lookup_delete_eq. symmetry. apply Hf. lia. }
        rewrite lookup_delete_ne, !lookup_alter_ne, !lookup_insert_ne by congruence.
        reflexivity.
      + intros k Hk. subst S1. cbn in *.
        rewrite !lookup_alter_ne, !lookup_insert_ne by lia. apply Hf. lia. }
  specialize (HK e1' e2' S1).
  destruct (K e1' e2' S1) as [a s' | s' | |]; try exact I; apply Hpost, HK.
Qed.

Ltac head_of t :=
  lazymatch t with
  | ?f _ => head_of f
  | _ => t
  end.

(** One step through a computation, by its syntax. *)
Ltac sess_step :=
  cbv beta zeta;
  lazymatch goal with
  | |- sess_safe (bind (make_binary_operator _ _ _)
                       (fun _ => bind (make_binary_operator _ _ _) _)) =>
      apply (sess_safe_scoped_operators _ _ _ _ _ (fun _ _ => _)); intros ? ?
  | |- sess_safe (bind (make_binary_operator _ _ _) _) =>
      apply (sess_safe_scoped_operator _ _ _ (fun _ => _)); intros ?
  | |- sess_safe (bind _ _) => apply sess_safe_bind; [| intros ?]
  | |- sess_safe (ret _) => apply sess_safe_ret
  | |- sess_safe fail => apply sess_safe_fail
  | |- sess_safe undefined => apply sess_safe_undefined
  | |- sess_safe out_of_fuel => apply sess_safe_out_of_fuel
  | |- sess_safe (get _) => apply sess_safe_get
  | |- sess_safe (deref _) => apply sess_safe_deref
  | |- sess_safe (back _) => apply sess_safe_back
  | |- sess_safe (front _) => apply sess_safe_front
  | |- sess_safe make_block => apply sess_safe_make_block
  | |- sess_safe allocate_id => apply sess_safe_allocate_id
  | |- sess_safe (modify _) => apply sess_safe_modify; solve [auto with sess]
  | |- sess_safe (with_defer _ _) =>
      apply sess_safe_with_defer; [solve [auto with sess] |]
  | |- sess_safe (if ?c then _ else _) => destruct c
  | |- sess_safe (match ?x with _ => _ end) => destruct x
  | |- sess_safe ?m =>
      first [ solve [auto with sess]
            | let h := head_of m in unfold h ]
  end.

Ltac sess_run := repeat sess_step.

Section SessionSafety.
Variable emit : element -> emitter.
Variable emit_args : N -> bool -> list element -> nat -> M nat.
Hypothesis Hemit : forall e bb r, sess_safe (emit e bb r).
Hypothesis Hargs : forall a f es bb, sess_safe (emit_args a f es bb).

Hint Resolve Hemit Hargs : sess.

Lemma emit_each_sess_safe es bb : sess_safe (emit_each emit es bb).
Proof.
  revert bb. induction es as [| e es IH]; intros bb; cbn [emit_each]; sess_run; try apply IH.
Qed.

Hint Resolve emit_each_sess_safe : sess.

Lemma emit_statements_sess_safe prev stmts bb :
  sess_safe (emit_statements emit prev stmts bb).
Proof.
  revert prev bb. induction stmts as [| stmt rest IH]; intros prev bb;
    cbn [emit_statements]; sess_run; try apply IH.
Qed.

Hint Resolve emit_statements_sess_safe : sess.

Lemma emit_arguments_loop_sess_safe al fc es bb :
  sess_safe (emit_arguments_loop emit emit_args al fc es bb).
Proof.
  revert bb. induction es as [| e es IH]; intros bb;
    cbn [emit_arguments_loop]; sess_run; try apply IH.
Qed.

Hint Resolve emit_arguments_loop_sess_safe : sess.

Lemma emit_element_body_sess_safe e bb r :
  sess_safe (emit_element_body emit emit_args e bb r).
Proof. unfold emit_element_body. destruct e; sess_run. Qed.

Lemma emit_arguments_body_sess_safe al fc es bb :
  sess_safe (emit_arguments_body emit emit_args al fc es bb).
Proof. unfold emit_arguments_body. sess_run. Qed.

End SessionSafety.

(** Whatever is emitted, the element map is left as it was, and the id
    pool and the flow-control stack have not shrunk. *)
Lemma emit_element_sess_safe (fuel : nat) :
  (forall e bb r, sess_safe (emit_element fuel e bb r)) /\
  (forall a f es bb, sess_safe (emit_arguments fuel a f es bb)).
Proof.
  induction fuel as [| fuel [IHe IHa]].
  - split; intros; intro; exact I.
  - split.
    + intros e bb r. cbn [emit_element].
      apply emit_element_body_sess_safe; assumption.
    + intros a f es bb. cbn [emit_arguments].
      apply emit_arguments_body_sess_safe; assumption.
Qed.





(** C5: emitting a [for] leaves the element map as it was, when emission
    succeeds and when it fails, provided no element of the map carries an
    id the pool has yet to hand out: the operators the lowering makes are
    taken out of the map when their scope is left. *)
Theorem for_leaves_the_element_map fuel h induction_identifier for_expr body bb r s :
  fresh s ->
  match emit_element fuel (for_e h induction_identifier for_expr body) bb r s with
  | Ok _ s' | Failed s' => elements_map s' = elements_map s
  | _ => True
  end.
Proof.
  intros Hf. destruct (emit_element_sess_safe fuel) as [Hemit _].
  specialize (Hemit (for_e h induction_identifier for_expr body) bb r s).
  destruct (emit_element fuel _ bb r s); try exact I; apply Hemit, Hf.
Qed.

Lemma for_leaves_the_element_map_witness :
  fresh busy_session /\
  match emit_element 4 count_up 0%nat empty_result busy_session with
  | Ok _ s' => elements_map s' = elements_map busy_session
  | _ => False
  end.
Proof.
  assert (Hf : fresh busy_session).
  { intros k Hk. cbn in Hk |- *. rewrite lookup_insert_ne by lia. reflexivity. }
  split; [exact Hf |].
  pose proof (for_leaves_the_element_map
                4 (example_header 20 "for_20" None)
                (example_identifier 10 "i" (numeric_type u32))
                (range_intrinsic (example_header 11 "range_11" None)
                   (u32_literal 12 0) (u32_literal 13 10) (u32_literal 14 1)
                   (u32_literal 15 0) (u32_literal 16 1))
                (block (example_header 17 "block_17" None) false false [] [])
                0%nat empty_result busy_session Hf) as H.
  revert H. vm_compute. intros H. exact H.
Defined.

(** *** Reading blocks of sessions built step by step *)

Lemma instructions_of_beyond s i :
  (length (blocks s) <= i)%nat -> instructions_of s i = [].
Proof.
  intros H. unfold instructions_of, instructions_at. rewrite lookup_ge_None_2 by exact H. reflexivity.
Qed.

Lemma labels_of_beyond s i :
  (length (blocks s) <= i)%nat -> labels_of s i = [].
Proof.
  intros H. unfold labels_of, labels_at. rewrite lookup_ge_None_2 by exact H. reflexivity.
Qed.

Lemma prefix_head {A} (l1 l2 : list A) x :
  l1 `prefix_of` l2 -> head l1 = Some x -> head l2 = Some x.
Proof. intros [k ->] H. destruct l1; [discriminate | exact H]. Qed.

Lemma extends_labels n0 bb0 s s' i :
  extends n0 bb0 s s' -> labels_of s i `prefix_of` labels_of s' i.
Proof. intros (_ & _ & _ & Hg & _). apply Hg. Qed.

Lemma extends_same n0 bb0 s s' i :
  extends n0 bb0 s s' -> (i < n0)%nat -> i <> bb0 ->
  instructions_of s' i = instructions_of s i.
Proof. intros (_ & _ & _ & _ & Hf) Hi Hne. apply Hf; assumption. Qed.

(** The same on lists of blocks. *)
Lemma instructions_at_make l i :
  instructions_at (l ++ [empty_block]) i = instructions_at l i.
Proof.
  unfold instructions_at.
  destruct (decide (i < length l)%nat) as [Hlt | Hge].
  - rewrite lookup_app_l by assumption. reflexivity.
  - rewrite (lookup_ge_None_2 l i) by lia.
    destruct (decide (i = length l)) as [-> | Hne].
    + rewrite list_lookup_middle by reflexivity. reflexivity.
    + rewrite lookup_ge_None_2; [reflexivity |]. rewrite length_app. cbn. lia.
Qed.

Lemma labels_at_make l i :
  labels_at (l ++ [empty_block]) i = labels_at l i.
Proof.
  unfold labels_at.
  destruct (decide (i < length l)%nat) as [Hlt | Hge].
  - rewrite lookup_app_l by assumption. reflexivity.
  - rewrite (lookup_ge_None_2 l i) by lia.
    destruct (decide (i = length l)) as [-> | Hne].
    + rewrite list_lookup_middle by reflexivity. reflexivity.
    + rewrite lookup_ge_None_2; [reflexivity |]. rewrite length_app. cbn. lia.
Qed.

Lemma instructions_at_append ins b l i :
  instructions_at (alter (append_instructions ins) b l) i
  = if decide (b = i /\ (i < length l)%nat)
    then instructions_at l i ++ ins
    else instructions_at l i.
Proof.
  unfold instructions_at.
  destruct (decide (b = i)) as [-> | Hne].
  - rewrite list_lookup_alter_eq.
    destruct (l !! i) as [blk |] eqn:E.
    + apply lookup_lt_Some in E. rewrite decide_True by (split; [reflexivity | exact E]).
      reflexivity.
    + apply lookup_ge_None in E. rewrite decide_False by lia. reflexivity.
  - rewrite list_lookup_alter_ne by assumption.
    rewrite decide_False by (intros [? _]; contradiction). reflexivity.
Qed.

Lemma labels_at_append_label x b l i :
  labels_at (alter (append_label x) b l) i
  = if decide (b = i /\ (i < length l)%nat)
    then labels_at l i ++ [x]
    else labels_at l i.
Proof.
  unfold labels_at.
  destruct (decide (b = i)) as [-> | Hne].
  - rewrite list_lookup_alter_eq.
    destruct (l !! i) as [blk |] eqn:E.
    + apply lookup_lt_Some in E. rewrite decide_True by (split; [reflexivity | exact E]).
      reflexivity.
    + apply lookup_ge_None in E. rewrite decide_False by lia. reflexivity.
  - rewrite list_lookup_alter_ne by assumption.
    rewrite decide_False by (intros [? _]; contradiction). reflexivity.
Qed.

Lemma instructions_at_alter_same f b l i :
  (forall blk, bb_instructions (f blk) = bb_instructions blk) ->
  instructions_at (alter f b l) i = instructions_at l i.
Proof.
  intros Hf. unfold instructions_at.
  destruct (decide (b = i)) as [-> | Hne].
  - rewrite list_lookup_alter_eq. destruct (l !! i); [apply Hf | reflexivity].
  - rewrite list_lookup_alter_ne by assumption. reflexivity.
Qed.

Lemma labels_at_alter_same f b l i :
  (forall blk, bb_labels (f blk) = bb_labels blk) ->
  labels_at (alter f b l) i = labels_at l i.
Proof.
  intros Hf. unfold labels_at.
  destruct (decide (b = i)) as [-> | Hne].
  - rewrite list_lookup_alter_eq. destruct (l !! i); [apply Hf | reflexivity].
  - rewrite list_lookup_alter_ne by assumption. reflexivity.
Qed.

(** The blocks of a session built from [s] by the emitter's steps, read
    through the steps. *)
Ltac read_blocks :=
  repeat rewrite pop_flow_control_id;
  repeat match goal with
         | |- context [instructions_of ?S ?i] =>
             tryif is_var S then fail
             else change (instructions_of S i) with (instructions_at (blocks S) i)
         | |- context [labels_of ?S ?i] =>
             tryif is_var S then fail
             else change (labels_of S i) with (labels_at (blocks S) i)
         end;
  unfold with_instructions, with_instruction, push_flow_control, remove,
    record_call_site;
  cbn [blocks set_blocks set_labels_map set_cfg_edges set_control_flow_stack
       set_elements_map set_id_pool set_messages set_allocated_sizes
       set_ffi_functions fold_left app];
  repeat first
    [ rewrite instructions_at_make
    | rewrite labels_at_make
    | rewrite instructions_at_append
    | rewrite labels_at_append_label
    | rewrite instructions_at_alter_same by (intros ?; reflexivity)
    | rewrite labels_at_alter_same by (intros ?; reflexivity) ];
  repeat first
    [ progress change (instructions_at (blocks ?s) ?i) with (instructions_of s i)
    | progress change (labels_at (blocks ?s) ?i) with (labels_of s i) ].

Ltac settle_decide :=
  repeat match goal with
         | |- context [decide ?P] =>
             first [ rewrite (decide_True (P := P)) by (norm_goal; lenlia)
                   | rewrite (decide_False (P := P)) by (norm_goal; lenlia) ]
         end.



(** *** If *)


(** *** For over a range *)

(** *** Elements that emit straight-line code *)

Lemma emits_identifier h t :
  inferred_type h = Some t ->
  emits (identifier h) 1 t (identifier_operand (label_name h) t) [].
Proof.
  intros Ht f bb s Hf. destruct f as [| f]; [lia |].
  cbn [emit_element]. unfold emit_element_body, emit_identifier, infer_type.
  cbn [header]. rewrite Ht. reflexivity.
Qed.

Lemma emits_integer_literal h v t :
  inferred_type h = Some t ->
  emits (integer_literal h v) 1 t
        (operand_integer v (op_size_for_byte_size (type_size_in_bytes t))) [].
Proof.
  intros Ht f bb s Hf. destruct f as [| f]; [lia |].
  cbn [emit_element]. unfold emit_element_body, emit_integer_literal, infer_type.
  cbn [header]. rewrite Ht. reflexivity.
Qed.

Lemma with_instructions_app b ins1 ins2 s :
  with_instructions b (ins1 ++ ins2) s
  = with_instructions b ins2 (with_instructions b ins1 s).
Proof. unfold with_instructions. apply fold_left_app. Qed.

Lemma emits_arithmetic h op c l r n dl dr tl lo insl tr ro insr t :
  inferred_type h = Some t ->
  arithmetic_op_code op = Some c ->
  emits l dl tl lo insl ->
  emits r dr tr ro insr ->
  emits (binary_operator h op l r n) (S (Nat.max dl dr)) t
        (operand_named_ref
           (make_named_ref ref_local "" (op_size_for_byte_size (type_size_in_bytes t))))
        (insl ++ insr
         ++ [inst c [operand_named_ref
                       (make_named_ref ref_local ""
                          (op_size_for_byte_size (type_size_in_bytes t)));
                     lo; ro]]).
Proof.
  intros Ht Hc Hl Hr f bb s Hf. destruct f as [| f]; [lia |].
  cbn [emit_element]. unfold emit_element_body, infer_type. cbn [header].
  rewrite Ht. unfold emit_binary_operator.
  assert (Harith :
    emit_arithmetic_operator (emit_element f) op l r bb
      {| er_type := Some t; er_operands := er_operands empty_result;
         er_skip_read := er_skip_read empty_result |} s
    = Ok (bb, result_of t
                (operand_named_ref
                   (make_named_ref ref_local ""
                      (op_size_for_byte_size (type_size_in_bytes t)))))
         (with_instructions bb
            (insl ++ insr
             ++ [inst c [operand_named_ref
                           (make_named_ref ref_local ""
                              (op_size_for_byte_size (type_size_in_bytes t)));
                         lo; ro]]) s)).
  { unfold emit_arithmetic_operator. cbn [bind].
    rewrite (Hl f bb s) by lia. cbn [bind].
    rewrite (Hr f bb _) by lia.
    cbn [bind deref ret er_type er_operands result_of]. rewrite Hc.
    cbn [bind deref ret back last instruction update_block modify].
    rewrite !with_instructions_app. reflexivity. }
  destruct op; try discriminate Hc; exact Harith.
Qed.

(** An assignment of a scalar to a scalar. *)
Lemma assignment_emits h l r n dl dr tl lo tr ro insr f bb res s :
  emits l dl tl lo [] ->
  emits r dr tr ro insr ->
  is_composite_type tl = false ->
  is_composite_type tr = false ->
  (S (Nat.max dl dr) <= f)%nat ->
  emit_element f (binary_operator h assignment l r n) bb res s
  = Ok (bb, infer_type (binary_operator h assignment l r n) res)
       (with_instructions bb (insr ++ [inst store [lo; ro]]) s).
Proof.
  intros Hl Hr Hcl Hcr Hf. destruct f as [| f]; [lia |].
  cbn [emit_element]. unfold emit_element_body, emit_binary_operator, emit_assignment.
  cbn [bind].
  rewrite (Hr f bb s) by lia. cbn [bind].
  rewrite (Hl f bb _) by lia.
  cbn [bind deref ret er_type er_operands result_of]. rewrite Hcl, Hcr.
  destruct (is_pointer_type tl);
    cbn [bind deref ret negb andb back last length bool_decide
         instruction update_block modify];
    rewrite with_instructions_app; reflexivity.
Qed.

(** *** Running a computation step by step *)

Lemma emit_element_S f e :
  emit_element (S f) e = emit_element_body (emit_element f) (emit_arguments f) e.
Proof. reflexivity. Qed.

Section Runs.
Context {A B : Type}.

Lemma runs_ret (a : A) s (Q : A -> session -> Prop) : Q a s -> runs (ret a) s Q.
Proof. intros H. exists a, s. split; [reflexivity | exact H]. Qed.

Lemma runs_bind (m : M A) (k : A -> M B) s (Q : B -> session -> Prop) :
  runs m s (fun a s' => runs (k a) s' Q) -> runs (bind m k) s Q.
Proof.
  intros (a & s' & Hm & b & s'' & Hk & HQ). exists b, s''.
  split; [| exact HQ]. unfold bind. rewrite Hm. exact Hk.
Qed.

Lemma runs_get (f : session -> A) s (Q : A -> session -> Prop) :
  Q (f s) s -> runs (get f) s Q.
Proof. intros H. exists (f s), s. split; [reflexivity | exact H]. Qed.

Lemma runs_deref (o : option A) a s (Q : A -> session -> Prop) :
  o = Some a -> Q a s -> runs (deref o) s Q.
Proof. intros -> H. exists a, s. split; [reflexivity | exact H]. Qed.

Lemma runs_back (l : list A) a s (Q : A -> session -> Prop) :
  last l = Some a -> Q a s -> runs (back l) s Q.
Proof. apply runs_deref. Qed.

Lemma runs_front (l : list A) a s (Q : A -> session -> Prop) :
  head l = Some a -> Q a s -> runs (front l) s Q.
Proof. apply runs_deref. Qed.

Lemma runs_eq (m : M A) s a s' (Q : A -> session -> Prop) :
  m s = Ok a s' -> Q a s' -> runs m s Q.
Proof. intros Hm H. exists a, s'. split; assumption. Qed.

Lemma runs_with_defer cleanup (body : M A) s (Q : A -> session -> Prop) :
  runs body s (fun a s' => Q a (cleanup s')) -> runs (with_defer cleanup body) s Q.
Proof.
  intros (a & s' & Hm & HQ). exists a, (cleanup s').
  split; [| exact HQ]. unfold with_defer. rewrite Hm. reflexivity.
Qed.

End Runs.

Lemma runs_modify f s (Q : unit -> session -> Prop) :
  Q tt (f s) -> runs (modify f) s Q.
Proof. intros H. exists tt, (f s). split; [reflexivity | exact H]. Qed.

Lemma runs_make_block s (Q : nat -> session -> Prop) :
  (forall b, b = length (blocks s) ->
             Q b (set_blocks (fun bs => bs ++ [empty_block]) s)) ->
  runs make_block s Q.
Proof.
  intros H. eexists _, _. split; [reflexivity |]. apply H. reflexivity.
Qed.

Lemma runs_get_block b blk s (Q : basic_block -> session -> Prop) :
  blocks s !! b = Some blk -> Q blk s -> runs (get_block b) s Q.
Proof.
  intros Hb H. exists blk, s. split; [| exact H].
  unfold get_block, bind, get. rewrite Hb. reflexivity.
Qed.

Lemma runs_make_binary_operator o l r s (Q : element -> session -> Prop) :
  (forall i, i = id_pool s ->
     let e := binary_operator
                {| id := i; label_name := "binary_operator_" +:+ pretty i;
                   inferred_type := binary_operator_infer_type o l r |}
                o l r false in
     Q e (set_elements_map (insert i e) (set_id_pool N.succ s))) ->
  runs (make_binary_operator o l r) s Q.
Proof.
  intros H. unfold runs, make_binary_operator, bind, allocate_id, modify, ret.
  eexists _, _. split; [reflexivity |]. apply (H _ eq_refl).
Qed.

Lemma runs_make_non_owning h o l r n s (Q : element -> session -> Prop) :
  Q (binary_operator h o l r true)
    (set_elements_map (alter (fun _ => binary_operator h o l r true) (id h)) s) ->
  runs (make_non_owning (binary_operator h o l r n)) s Q.
Proof.
  intros H. unfold runs, make_non_owning, bind, modify, ret.
  eexists _, _. split; [reflexivity | exact H].
Qed.

Lemma runs_integer_argument e v s (Q : Z -> session -> Prop) :
  as_integer e = Some v -> Q v s -> runs (integer_argument e) s Q.
Proof.
  intros He H. exists v, s. split; [| exact H].
  unfold integer_argument. rewrite He. reflexivity.
Qed.

Lemma er_operands_infer_type e r : er_operands (infer_type e r) = er_operands r.
Proof. unfold infer_type. destruct (inferred_type (header e)); reflexivity. Qed.

(** The length of the block list of a session built step by step. *)
Ltac norm_len_in H :=
  unfold with_instructions, with_instruction, push_flow_control, remove,
    record_call_site in H;
  cbn [blocks set_blocks set_labels_map set_cfg_edges set_control_flow_stack
       set_elements_map set_id_pool set_messages set_allocated_sizes
       set_ffi_functions fold_left app id_pool] in H;
  repeat first [ rewrite pop_flow_control_id in H
               | rewrite length_alter in H
               | rewrite length_app in H
               | progress cbn [length blocks set_blocks set_labels_map
                               set_cfg_edges set_control_flow_stack
                               set_elements_map set_id_pool set_messages
                               set_allocated_sizes set_ffi_functions id_pool] in H ].

(** One step of a computation whose course is known. *)
Ltac runs_step :=
  cbv beta iota;
  lazymatch goal with
  | |- runs (bind _ _) _ _ => apply runs_bind
  | |- runs (ret _) _ _ => apply runs_ret
  | |- runs (modify _) _ _ => apply runs_modify
  | |- runs (get _) _ _ => apply runs_get
  | |- runs (with_defer _ _) _ _ => apply runs_with_defer
  | |- runs make_block _ _ =>
      let b := fresh "b" in
      let Hb := fresh "Hb" in
      apply runs_make_block; intros b Hb; norm_len_in Hb
  | |- runs (make_binary_operator _ _ _) _ _ =>
      let i := fresh "i" in
      let Hi := fresh "Hi" in
      apply runs_make_binary_operator; intros i Hi; norm_len_in Hi; cbv zeta
  | |- runs (make_non_owning (binary_operator _ _ _ _ _)) _ _ =>
      apply runs_make_non_owning
  | |- runs (integer_argument _) _ _ =>
      eapply runs_integer_argument; [eassumption |]
  | |- runs (back _) _ _ =>
      eapply runs_back;
      [ unfold emplace_back, result_of; cbn [er_operands];
        rewrite ?er_operands_infer_type;
        first [ reflexivity | apply last_snoc | eassumption ] |]
  | |- runs (instruction _ _) _ _ => unfold instruction, update_block
  | |- runs (comment _ _) _ _ => unfold comment, update_block
  | |- runs (update_block _ _) _ _ => unfold update_block
  | |- runs (add_predecessors _ _) _ _ => unfold add_predecessors, update_block
  | |- runs (add_successors _ _) _ _ => unfold add_successors, update_block
  | |- runs (add_cfg_edge _ _) _ _ => unfold add_cfg_edge
  | |- runs (block_label _ _ _) _ _ => unfold block_label, update_block
  | |- runs (error _ _) _ _ => unfold error
  end.

Ltac runs_steps := repeat runs_step.

Lemma arithmetic_infer_type op c l r :
  arithmetic_op_code op = Some c ->
  binary_operator_infer_type op l r = inferred_type (header l).
Proof. destruct op; intros H; try discriminate H; reflexivity. Qed.

Lemma runs_assignment h l r n dl dr tl lo tr ro insr f bb res s
      (Q : nat * emit_result_t -> session -> Prop) :
  emits l dl tl lo [] ->
  emits r dr tr ro insr ->
  is_composite_type tl = false ->
  is_composite_type tr = false ->
  (S (Nat.max dl dr) <= f)%nat ->
  Q (bb, infer_type (binary_operator h assignment l r n) res)
    (with_instructions bb (insr ++ [inst store [lo; ro]]) s) ->
  runs (emit_element f (binary_operator h assignment l r n) bb res) s Q.
Proof.
  intros Hl Hr Hcl Hcr Hf HQ. eapply runs_eq; [| exact HQ].
  eapply assignment_emits; eassumption.
Qed.


(** *** Arguments *)

Lemma alter_append_instructions a b i (l : list basic_block) :
  alter (append_instructions b) i (alter (append_instructions a) i l)
  = alter (append_instructions (a ++ b)) i l.
Proof.
  rewrite list_alter_alter_eq. apply list_alter_ext; [| reflexivity].
  intros [] _. unfold compose. unfold append_instructions. cbn. rewrite app_assoc. reflexivity.
Qed.

Lemma alter_append_instructions_nil i (l : list basic_block) :
  alter (append_instructions []) i l = l.
Proof.
  apply list_alter_id.
  intros []. unfold append_instructions. cbn. rewrite app_nil_r. reflexivity.
Qed.

(** A session after [emit_arguments]: what it reads of the session it
    started from. *)
Record arguments_post (arg_list : N) (bb : nat) (ins : list instruction_t)
       (size : Z) (s s' : session) : Prop := {
  post_blocks : blocks s' = alter (append_instructions ins) bb (blocks s);
  post_size : default 0 (allocated_sizes s' !! arg_list)
              = default 0 (allocated_sizes s !! arg_list) + size;
  post_labels : labels_map s' = labels_map s;
  post_messages : messages s' = messages s;
  post_stack : control_flow_stack s' = control_flow_stack s;
  post_elements : elements_map s' = elements_map s;
  post_ffi : ffi_functions s' = ffi_functions s;
  post_edges : cfg_edges s' = cfg_edges s;
}.

Lemma arguments_post_refl al bb s : arguments_post al bb [] 0 s s.
Proof.
  split; try reflexivity.
  - symmetry. apply alter_append_instructions_nil.
  - lia.
Qed.

Lemma arguments_post_trans al bb i1 z1 i2 z2 s1 s2 s3 :
  arguments_post al bb i1 z1 s1 s2 ->
  arguments_post al bb i2 z2 s2 s3 ->
  arguments_post al bb (i1 ++ i2) (z1 + z2) s1 s3.
Proof.
  intros [] []. split; try congruence.
  - rewrite <- alter_append_instructions. congruence.
  - lia.
Qed.

Lemma with_instructions_post al bb ins s :
  arguments_post al bb ins 0 s (with_instructions bb ins s).
Proof.
  revert s. induction ins as [| i ins IH]; intros s.
  - apply arguments_post_refl.
  - change (with_instructions bb (i :: ins) s)
      with (with_instructions bb ins (with_instruction bb i s)).
    change (i :: ins) with ([i] ++ ins). change 0 with (0 + 0).
    eapply arguments_post_trans; [| apply IH].
    split; try reflexivity. cbn. lia.
Qed.

Lemma not_an_argument_list {X} (e : element) (list_case : element_header -> bool -> option (list Z) -> list element -> X) (other : X) :
  (forall lh lf la le, e <> argument_list lh lf la le) ->
  match e with
  | argument_list lh lf la le => list_case lh lf la le
  | _ => other
  end = other.
Proof.
  intros H. destruct e; try reflexivity. exfalso. eapply H. reflexivity.
Qed.

Lemma runs_emit_argument d f (foreign : bool) a bb s
      (Q : nat * option type -> session -> Prop) :
  plain_argument d a -> (d <= f)%nat ->
  Q (bb, if foreign then None else Some (argument_type a))
    (with_instructions bb
       (argument_instructions foreign (argument_type a) (argument_operand a)) s) ->
  runs (emit_argument (emit_element f) foreign (argument_element a) bb) s Q.
Proof.
  intros (Hpushed & _ & Hemits) Hf HQ.
  unfold emit_argument. rewrite Hpushed.
  apply runs_bind. eapply runs_eq; [apply Hemits; exact Hf |].
  unfold argument_instructions in HQ.
  destruct foreign; cbv beta iota; cbn [negb].
  - runs_steps. exact HQ.
  - apply runs_bind. eapply runs_deref; [reflexivity |].
    destruct (element_type (argument_type a)); runs_steps; exact HQ.
Qed.

(** [emit_arguments_loop] over plain arguments, in the order it is given
    them. *)
Lemma emit_arguments_loop_plain d f al foreign (args : list argument_t) :
  Forall (plain_argument d) args -> (d <= f)%nat ->
  forall bb s,
    runs (emit_arguments_loop (emit_element f) (emit_arguments f) al foreign
            (map argument_element args) bb) s
         (fun bb' s' =>
            bb' = bb /\
            arguments_post al bb (arguments_instructions foreign args)
                           (arguments_size foreign args) s s').
Proof.
  intros Hargs Hf. induction Hargs as [| a args Ha Hargs IH]; intros bb s.
  - cbn [map emit_arguments_loop]. apply runs_ret. unfold arguments_instructions, arguments_size.
    split; [reflexivity | apply arguments_post_refl].
  - unfold arguments_instructions, arguments_size in *.
    cbn [map emit_arguments_loop concat foldr].
    rewrite not_an_argument_list by apply Ha.
    apply runs_bind. eapply runs_emit_argument; [exact Ha | exact Hf |].
    cbv beta iota.
    pose proof (with_instructions_post al bb
                  (argument_instructions foreign (argument_type a)
                     (argument_operand a)) s) as Hins.
    set (s1 := with_instructions bb _ s) in *.
    unfold argument_size at 1.
    destruct foreign.
    + runs_steps.
      specialize (IH bb s1). destruct IH as (bb' & s' & E & -> & Hpost).
      eapply runs_eq; [exact E |]. split; [reflexivity |].
      eapply arguments_post_trans; eassumption.
    + apply runs_bind. apply runs_bind.
      unfold allocated_size. runs_steps. unfold set_allocated_size. runs_steps.
      match goal with
      | |- runs _ ?S _ => set (s2 := S)
      end.
      specialize (IH bb s2). destruct IH as (bb' & s' & E & -> & Hpost).
      eapply runs_eq; [exact E |]. split; [reflexivity |].
      assert (H12 : arguments_post al bb [] (align (type_size_in_bytes (argument_type a)) 8)
                      s1 s2).
      { subst s2. split; try reflexivity.
        - symmetry. apply alter_append_instructions_nil.
        - cbn. rewrite lookup_insert_eq. cbn. reflexivity. }
      pose proof (arguments_post_trans _ _ _ _ _ _ _ _ _ Hins H12) as H02.
      rewrite app_nil_r in H02.
      eapply arguments_post_trans; eassumption.
Qed.

Lemma arguments_size_rev foreign args :
  arguments_size foreign (rev args) = arguments_size foreign args.
Proof.
  unfold arguments_size. induction args as [| a args IH]; [reflexivity |].
  cbn [rev map foldr]. rewrite map_app, foldr_app. cbn [map foldr].
  rewrite <- IH. clear IH.
  generalize (argument_size foreign (argument_type a)) as z.
  induction (map _ (rev args)) as [| y l IHl]; intros z; cbn [foldr]; [lia |].
  rewrite IHl. specialize (IHl y). lia.
Qed.

Lemma emit_arguments_post d f al foreign (args : list argument_t) bb s :
  Forall (plain_argument d) args -> (S d <= f)%nat ->
  exists s',
    emit_arguments f al foreign (map argument_element args) bb s = Ok bb s' /\
    arguments_post al bb (arguments_instructions foreign (rev args))
                   (arguments_size foreign args) s s'.
Proof.
  intros Hargs Hf. destruct f as [| f]; [lia |].
  cbn [emit_arguments]. unfold emit_arguments_body. rewrite <- map_rev.
  destruct (emit_arguments_loop_plain d f al foreign (rev args)
              ltac:(apply Forall_rev; exact Hargs) ltac:(lia) bb s)
    as (bb' & s' & E & -> & H).
  exists s'. rewrite arguments_size_rev in H. split; assumption.
Qed.

(** [emit_arguments] over plain arguments: it returns in the block it is
    given, to which it has appended the instructions of the arguments from
    the last to the first (a push each, or for a composite, tuple or array
    argument of a call that is not foreign, the [sub] and the [copy] of its
    size rounded up to 8), and it has added the rounded sizes of the
    arguments to the list's allocated size, unless the call is foreign.
    Nothing else of the session has changed. *)
Theorem emit_arguments_right_to_left d f al foreign (args : list argument_t) bb s :
  Forall (plain_argument d) args -> (S d <= f)%nat ->
  exists s',
    emit_arguments f al foreign (map argument_element args) bb s = Ok bb s' /\
    blocks s'
    = alter (append_instructions (arguments_instructions foreign (rev args))) bb
            (blocks s) /\
    default 0 (allocated_sizes s' !! al)
    = default 0 (allocated_sizes s !! al) + arguments_size foreign args /\
    labels_map s' = labels_map s /\ messages s' = messages s /\
    control_flow_stack s' = control_flow_stack s /\
    elements_map s' = elements_map s /\ ffi_functions s' = ffi_functions s /\
    cfg_edges s' = cfg_edges s.
Proof.
  intros Hargs Hf.
  destruct (emit_arguments_post d f al foreign args bb s Hargs Hf)
    as (s' & E & []).
  exists s'. repeat split; assumption.
Qed.

Lemma emits_identifier_reference h sym hi t :
  inferred_type hi = Some t ->
  emits (identifier_reference h sym (Some (identifier hi))) 2 t
        (identifier_operand (label_name hi) t) [].
Proof.
  intros Ht f bb s Hf. destruct f as [| [| f]]; [lia | lia |].
  cbn [emit_element]. unfold emit_element_body, emit_identifier, infer_type.
  cbn [header]. rewrite Ht. destruct (inferred_type h); reflexivity.
Qed.

Lemma emits_deeper e d d' t o ins :
  emits e d t o ins -> (d <= d')%nat -> emits e d' t o ins.
Proof. intros H Hd f bb s Hf. apply H. lia. Qed.

Lemma emit_arguments_right_to_left_witness :
  exists s',
    emit_arguments 3 7 false
      [u32_literal 1 5;
       identifier_reference (example_header 2 "ref" None) "p"
         (Some (example_identifier 3 "p" point))] 0 start_session
    = Ok 0%nat s' /\
    instructions_of s' 0
    = [inst sub [operand_sp; operand_sp; operand_integer 8 word];
       sized_inst copy byte [operand_sp; identifier_operand "p" point;
                             operand_integer 8 word];
       inst push [operand_integer 5 dword]] /\
    default 0 (allocated_sizes s' !! 7%N) = 16.
Proof.
  destruct (emit_arguments_right_to_left 2 3 7 false
              [(u32_literal 1 5, numeric_type u32, operand_integer 5 dword);
               (identifier_reference (example_header 2 "ref" None) "p"
                  (Some (example_identifier 3 "p" point)), point,
                identifier_operand "p" point)] 0 start_session)
    as (s' & E & Hb & Hz & _).
  - constructor; [| constructor; [| constructor]].
    + split; [reflexivity | split; [intros; discriminate |]].
      apply (emits_deeper _ 1); [| lia]. apply emits_integer_literal. reflexivity.
    + split; [reflexivity | split; [intros; discriminate |]].
      apply emits_identifier_reference. reflexivity.
  - lia.
  - exists s'. split; [exact E |]. split.
    + unfold instructions_of. rewrite Hb. vm_compute. reflexivity.
    + rewrite Hz. vm_compute. reflexivity.
Defined.

(** *** Procedure calls *)

Lemma runs_argument_list d f ah af ffi (args : list argument_t) bb res s
      (Q : nat * emit_result_t -> session -> Prop) :
  Forall (plain_argument d) args -> (S d <= f)%nat ->
  (forall s',
     arguments_post (id ah) bb (arguments_instructions af (rev args))
                    (arguments_size af args) s s' ->
     Q (bb, infer_type (argument_list ah af ffi (map argument_element args)) res) s') ->
  runs (emit_element f (argument_list ah af ffi (map argument_element args)) bb res) s Q.
Proof.
  intros Hargs Hf HQ. destruct f as [| f]; [lia |].
  rewrite emit_element_S. unfold emit_element_body.
  change (emit_arguments_body (emit_element f) (emit_arguments f))
    with (emit_arguments (S f)).
  destruct (emit_arguments_post d (S f) (id ah) af args bb s Hargs Hf)
    as (s' & E & Hpost).
  apply runs_bind. eapply runs_eq; [exact E |]. apply runs_ret. apply HQ, Hpost.
Qed.

Lemma runs_allocated_size al s (Q : Z -> session -> Prop) :
  (forall z, z = default 0 (allocated_sizes s !! al) -> Q z s) ->
  runs (allocated_size al) s Q.
Proof.
  intros H. exists (default 0 (allocated_sizes s !! al)), s.
  split; [reflexivity | apply H; reflexivity].
Qed.

(** The lowering of a call that is not foreign, over plain arguments, from
    a block without live locals: the emission returns in the third of three
    blocks it makes, labelled [_prologue], [_invoke] and [_epilogue] after
    the call's label name.  The prologue holds the arguments' instructions,
    from the last argument to the first, then the [sub] of 8 from the stack
    pointer when the procedure type has a return type; the invoke block
    holds the [jsr] to the callee's label, to which a control-flow edge is
    recorded; the epilogue adds the allocated size of the argument list,
    which is what it held before plus the rounded sizes of the arguments,
    back to the stack pointer, unless that size is not positive.  The block
    the call was emitted from receives no instruction. *)
Theorem proc_call_lowering d f h pt callee ah af ffi (args : list argument_t)
        bb r cb s :
  is_foreign pt = false ->
  Forall (plain_argument d) args -> (S d <= f)%nat ->
  blocks s !! bb = Some cb -> bb_locals cb = [] ->
  let call := proc_call h pt callee
                (Some (argument_list ah af ffi (map argument_element args))) in
  let n := length (blocks s) in
  let total := default 0 (allocated_sizes s !! id ah) + arguments_size af args in
  exists s',
    emit_element (S f) call bb r s = Ok (S (S n), infer_type call r) s' /\
    labels_of s' n = [label_name h +:+ "_prologue"] /\
    labels_of s' (S n) = [label_name h +:+ "_invoke"] /\
    labels_of s' (S (S n)) = [label_name h +:+ "_epilogue"] /\
    instructions_of s' n
    = arguments_instructions af (rev args)
      ++ (if returns_value pt
          then [inst sub [operand_sp; operand_sp; operand_integer 8 byte]]
          else []) /\
    instructions_of s' (S n) = [inst jsr [label_operand callee]] /\
    instructions_of s' (S (S n))
    = (if 0 <? total
       then [inst add [operand_sp; operand_sp; operand_integer total word]]
       else []) /\
    instructions_of s' bb = instructions_of s bb /\
    cfg_edges s' = cfg_edges s ++ [(S n, callee)].
Proof.
  intros Hforeign Hargs Hf Hcb Hloc call n total.
  enough (Hruns :
    runs (emit_element (S f) call bb r) s
         (fun out s' =>
            out = (S (S n), infer_type call r) /\
            labels_of s' n = [label_name h +:+ "_prologue"] /\
            labels_of s' (S n) = [label_name h +:+ "_invoke"] /\
            labels_of s' (S (S n)) = [label_name h +:+ "_epilogue"] /\
            instructions_of s' n
            = arguments_instructions af (rev args)
              ++ (if returns_value pt
                  then [inst sub [operand_sp; operand_sp; operand_integer 8 byte]]
                  else []) /\
            instructions_of s' (S n) = [inst jsr [label_operand callee]] /\
            instructions_of s' (S (S n))
            = (if 0 <? total
               then [inst add [operand_sp; operand_sp; operand_integer total word]]
               else []) /\
            instructions_of s' bb = instructions_of s bb /\
            cfg_edges s' = cfg_edges s ++ [(S n, callee)])).
  { destruct Hruns as (out & s' & E & -> & H). exists s'. split; [exact E | exact H]. }
  pose proof (lookup_lt_Some _ _ _ Hcb) as Hbb.
  subst call n total. rewrite emit_element_S.
  unfold emit_element_body, emit_proc_call. cbv zeta.
  rewrite !Hforeign. cbn [negb andb].
  runs_steps.
  eapply runs_get_block; [exact Hcb |].
  runs_steps.
  unfold push_locals. rewrite Hloc.
  runs_steps.
  unfold emit_optional.
  runs_steps.
  eapply runs_argument_list; [exact Hargs | exact Hf |].
  intros s_a [Hblk Hsize _ _ _ _ _ Hedges].
  cbn [blocks set_blocks set_labels_map set_cfg_edges allocated_sizes cfg_edges]
    in Hblk, Hsize, Hedges.
  assert (Hlen : length (blocks s_a) = S (length (blocks s))).
  { rewrite Hblk. rewrite !length_alter, length_app. cbn. lia. }
  assert (Hins_a : forall i, instructions_of s_a i
                             = if decide (i = b)
                               then arguments_instructions af (rev args)
                               else instructions_of s i).
  { intros i. unfold instructions_of. rewrite Hblk.
    repeat first
      [ rewrite instructions_at_make
      | rewrite instructions_at_append
      | rewrite instructions_at_alter_same by (intros ?; reflexivity) ].
    rewrite !length_alter, length_app. cbn [length filter list_filter map].
    change (instructions_at (blocks s) i) with (instructions_of s i).
    destruct (decide (i = b)) as [-> | Hne].
    - rewrite !decide_True by (split; [reflexivity | lia]).
      rewrite instructions_of_beyond by lia. reflexivity.
    - rewrite !decide_False by (intros [? _]; congruence). reflexivity. }
  assert (Hlab_a : forall i, labels_of s_a i
                             = if decide (i = b)
                               then [label_name h +:+ "_prologue"]
                               else labels_of s i).
  { intros i. unfold labels_of. rewrite Hblk.
    repeat first
      [ rewrite labels_at_make
      | rewrite labels_at_append_label
      | rewrite labels_at_alter_same by (intros ?; reflexivity) ].
    rewrite !length_alter, length_app. cbn [length].
    change (labels_at (blocks s) i) with (labels_of s i).
    destruct (decide (i = b)) as [-> | Hne].
    - rewrite !decide_True by (split; [reflexivity | lia]).
      rewrite labels_of_beyond by lia. reflexivity.
    - rewrite !decide_False by (intros [? _]; congruence). reflexivity. }
  clear Hblk.
  unfold returns_value.
  destruct (bool_decide (default None (return_type pt) <> None)) eqn:Hret;
    runs_steps.
  all: rewrite (bool_decide_eq_true_2 ("" = "") eq_refl); cbn [negb].
  all: runs_steps.
  all: eapply runs_deref; [reflexivity |]; runs_steps.
  all: eapply runs_deref; [reflexivity |]; runs_steps.
  all: apply runs_allocated_size; intros z Hz;
    cbn [allocated_sizes set_blocks set_labels_map set_cfg_edges] in Hz;
    rewrite Hsize in Hz; rewrite <- Hz; clear Hz Hsize.
  all: repeat match goal with
              | H : ?v = _ |- _ => is_var v; progress rewrite Hlen in H
              end.
  all: destruct (0 <? z); runs_steps; unfold pop_locals; runs_steps.
  all: repeat match goal with
              | |- _ /\ _ => split
              end.
  all: try (f_equal; lia).
  all: try (cbn [cfg_edges set_blocks set_labels_map set_cfg_edges];
            rewrite Hedges; repeat f_equal; lia).
  all: replace (length (blocks s)) with b by lia.
  all: try replace (S b) with b0 by lia.
  all: try replace (S b0) with b1 by lia.
  all: repeat first [ progress read_blocks
                    | rewrite Hins_a
                    | rewrite Hlab_a
                    | progress settle_decide
                    | rewrite labels_of_beyond by lenlia
                    | rewrite instructions_of_beyond by lenlia ].
  all: try reflexivity.
  all: symmetry; apply app_nil_r.
Qed.

Lemma proc_call_lowering_witness :
  exists s',
    emit_element 4
      (proc_call (example_header 30 "call_30" None)
         {| is_foreign := false; return_type := Some (Some (numeric_type u32));
            foreign_address := 0 |}
         "foo"
         (Some (argument_list (example_header 31 "args_31" None) false None
                  [u32_literal 1 5;
                   identifier_reference (example_header 2 "ref" None) "p"
                     (Some (example_identifier 3 "p" point))])))
      0%nat empty_result start_session
    = Ok (3%nat, empty_result) s' /\
    labels_of s' 1 = ["call_30_prologue"] /\
    labels_of s' 2 = ["call_30_invoke"] /\
    labels_of s' 3 = ["call_30_epilogue"] /\
    instructions_of s' 1
    = [inst sub [operand_sp; operand_sp; operand_integer 8 word];
       sized_inst copy byte [operand_sp; identifier_operand "p" point;
                             operand_integer 8 word];
       inst push [operand_integer 5 dword];
       inst sub [operand_sp; operand_sp; operand_integer 8 byte]] /\
    instructions_of s' 2 = [inst jsr [label_operand "foo"]] /\
    instructions_of s' 3
    = [inst add [operand_sp; operand_sp; operand_integer 16 word]].
Proof.
  destruct (proc_call_lowering 2 3 (example_header 30 "call_30" None)
              {| is_foreign := false; return_type := Some (Some (numeric_type u32));
                 foreign_address := 0 |}
              "foo" (example_header 31 "args_31" None) false None
              [(u32_literal 1 5, numeric_type u32, operand_integer 5 dword);
               (identifier_reference (example_header 2 "ref" None) "p"
                  (Some (example_identifier 3 "p" point)), point,
                identifier_operand "p" point)]
              0%nat empty_result empty_block start_session)
    as (s' & E & L1 & L2 & L3 & I1 & I2 & I3 & _).
  - reflexivity.
  - constructor; [| constructor; [| constructor]].
    + split; [reflexivity | split; [intros; discriminate |]].
      apply (emits_deeper _ 1); [| lia]. apply emits_integer_literal. reflexivity.
    + split; [reflexivity | split; [intros; discriminate |]].
      apply emits_identifier_reference. reflexivity.
  - lia.
  - reflexivity.
  - reflexivity.
  - exists s'. repeat split; assumption.
Defined.

(** *** Failing runs *)

Lemma fails_fail {A} s (Q : session -> Prop) : Q s -> fails (@fail A) s Q.
Proof. intros H. exists s. split; [reflexivity | exact H]. Qed.

Lemma fails_bind {A B} (m : M A) (k : A -> M B) s (Q : session -> Prop) :
  fails m s Q -> fails (bind m k) s Q.
Proof.
  intros (s' & Hm & HQ). exists s'. split; [| exact HQ].
  unfold bind. rewrite Hm. reflexivity.
Qed.

Lemma fails_after {A B} (m : M A) (k : A -> M B) s (Q : session -> Prop) :
  runs m s (fun a s' => fails (k a) s' Q) -> fails (bind m k) s Q.
Proof.
  intros (a & s' & Hm & s'' & Hk & HQ). exists s''. split; [| exact HQ].
  unfold bind. rewrite Hm. exact Hk.
Qed.

Ltac fails_step :=
  cbv beta iota;
  lazymatch goal with
  | |- fails (bind _ _) _ _ => apply fails_after
  | |- fails fail _ _ => apply fails_fail
  end.

Ltac fails_steps := repeat first [runs_step | fails_step].

(** A foreign call whose address the session's foreign-function table does
    not hold fails with the message X000, which names the address; by then
    the prologue and the invoke block have been made and the arguments'
    instructions are in the prologue. *)
Theorem foreign_call_to_unknown_address_fails d f h pt callee ah af ffi
        (args : list argument_t) bb r cb s :
  is_foreign pt = true ->
  ffi_functions s !! foreign_address pt = None ->
  Forall (plain_argument d) args -> (S d <= f)%nat ->
  blocks s !! bb = Some cb ->
  exists s',
    emit_element (S f)
      (proc_call h pt callee
         (Some (argument_list ah af ffi (map argument_element args)))) bb r s
    = Failed s' /\
    messages s'
    = messages s
      ++ [{| code := "X000";
             message := "unable to find foreign function by address: "
                        +:+ pretty (foreign_address pt) |}] /\
    length (blocks s') = S (S (length (blocks s))) /\
    instructions_of s' (length (blocks s)) = arguments_instructions af (rev args).
Proof.
  intros Hforeign Hnone Hargs Hf Hcb.
  change (fails (emit_element (S f)
                   (proc_call h pt callee
                      (Some (argument_list ah af ffi (map argument_element args))))
                   bb r) s
            (fun s' =>
               messages s'
               = messages s
                 ++ [{| code := "X000";
                        message := "unable to find foreign function by address: "
                                   +:+ pretty (foreign_address pt) |}] /\
               length (blocks s') = S (S (length (blocks s))) /\
               instructions_of s' (length (blocks s))
               = arguments_instructions af (rev args))).
  pose proof (lookup_lt_Some _ _ _ Hcb) as Hbb.
  rewrite emit_element_S.
  unfold emit_element_body, emit_proc_call. cbv zeta.
  rewrite !Hforeign. cbn [negb andb].
  fails_steps.
  eapply runs_get_block; [exact Hcb |].
  fails_steps.
  unfold emit_optional.
  fails_steps.
  eapply runs_argument_list; [exact Hargs | exact Hf |].
  intros s_a [Hblk _ _ Hmsg _ _ Hffi _].
  cbn [blocks set_blocks set_labels_map set_cfg_edges messages ffi_functions]
    in Hblk, Hmsg, Hffi.
  repeat (cbv beta iota;
          lazymatch goal with
          | |- fails (bind (bind (get ffi_functions) _) _) _ _ => fail
          | _ => idtac
          end;
          first [runs_step | fails_step]).
  apply fails_bind. fails_steps.
  cbn [ffi_functions set_blocks set_labels_map set_cfg_edges].
  rewrite Hffi, Hnone.
  fails_steps.
  cbn [messages blocks set_messages set_blocks set_labels_map set_cfg_edges].
  rewrite Hmsg. split; [reflexivity |].
  split.
  { repeat first [ rewrite length_alter | rewrite length_app | rewrite Hblk
                 | progress cbn [length] ].
    lia. }
  unfold instructions_of.
  cbn [messages blocks set_messages set_blocks set_labels_map set_cfg_edges].
  repeat first
    [ rewrite instructions_at_make
    | rewrite instructions_at_append
    | rewrite instructions_at_alter_same by (intros ?; reflexivity) ].
  rewrite Hblk.
  repeat first
    [ rewrite instructions_at_make
    | rewrite instructions_at_append
    | rewrite instructions_at_alter_same by (intros ?; reflexivity) ].
  rewrite !length_alter, length_app. cbn [length].
  rewrite decide_True by (split; lia).
  change (instructions_at (blocks s) (length (blocks s)))
    with (instructions_of s (length (blocks s))).
  rewrite instructions_of_beyond by lia. reflexivity.
Qed.

Lemma foreign_call_to_unknown_address_fails_witness :
  exists s',
    emit_element 4
      (proc_call (example_header 30 "call_30" None)
         {| is_foreign := true; return_type := None; foreign_address := 4096 |}
         "puts"
         (Some (argument_list (example_header 31 "args_31" None) true None
                  [u32_literal 1 5])))
      0%nat empty_result start_session
    = Failed s' /\
    messages s'
    = [{| code := "X000";
          message := "unable to find foreign function by address: 4096" |}] /\
    length (blocks s') = 3%nat /\
    instructions_of s' 1 = [inst push [operand_integer 5 dword]].
Proof.
  apply (foreign_call_to_unknown_address_fails 1 3
           (example_header 30 "call_30" None)
           {| is_foreign := true; return_type := None; foreign_address := 4096 |}
           "puts" (example_header 31 "args_31" None) true None
           [(u32_literal 1 5, numeric_type u32, operand_integer 5 dword)]
           0%nat empty_result empty_block start_session).
  - reflexivity.
  - reflexivity.
  - constructor; [| constructor].
    split; [reflexivity | split; [intros; discriminate |]].
    apply emits_integer_literal. reflexivity.
  - lia.
  - reflexivity.
Defined.

(** *** Break, continue, fallthrough, return *)

Lemma lookup_pred_length_last {A} (l : list A) :
  l !! Nat.pred (length l) = last l.
Proof.
  destruct l as [| x l _] using rev_ind; [reflexivity |].
  rewrite length_app, last_snoc. cbn [length].
  replace (Nat.pred (length l + 1)) with (length l) by lia.
  rewrite list_lookup_middle by reflexivity. reflexivity.
Qed.

Lemma jump_out_with_target ref what bb r s :
  jumps_to
    ((do exit_block <- make_block;
      add_predecessors exit_block [bb] ;;
      comment exit_block
              ((if bool_decide (what = "exit") then "break: " else "continue: ")
                 +:+ ref_name ref) ;;
      instruction exit_block (jump_direct (operand_named_ref ref)) ;;
      add_cfg_edge exit_block (ref_name ref) ;;
      ret (exit_block, r))%emit s)
    (Some ref) what s.
Proof.
  unfold jumps_to. eexists _, _. split; [reflexivity |].
  cbn [cfg_edges control_flow_stack messages set_blocks set_cfg_edges].
  repeat split; try reflexivity.
  - read_blocks. settle_decide. rewrite instructions_of_beyond by lia. reflexivity.
  - read_blocks. settle_decide. reflexivity.
  - read_blocks. reflexivity.
Qed.

Lemma emit_jump_out_jumps pick what lbl bb r s :
  jumps_to (emit_jump_out pick what lbl bb r s) (jump_target pick lbl s) what s.
Proof.
  unfold emit_jump_out, jump_target, top_flow_control.
  destruct lbl as [l |].
  - exact (jump_out_with_target
             (make_named_ref ref_label (element_label_name l) qword) what bb r s).
  - unfold bind at 1 2. unfold current_flow_control, read_flow_control.
    unfold bind at 1. unfold get at 1. unfold ret at 1.
    destruct (control_flow_stack s) as [| x st] eqn:Hst.
    + reflexivity.
    + unfold bind at 1 2. unfold get at 1. rewrite Hst.
      rewrite lookup_pred_length_last.
      destruct (last (x :: st)) as [fc |] eqn:Hlast.
      * unfold deref at 1. change (ret fc s) with (Ok fc s). cbv beta iota.
        destruct (pick fc) as [ref |].
        -- exact (jump_out_with_target ref what bb r s).
        -- reflexivity.
      * apply last_None in Hlast. discriminate.
Qed.

(** A [break] jumps to its own label when it has one, else to the exit
    label of the record on top of the flow-control stack, and a [continue]
    likewise to the record's continue label: the emission returns in a
    block it makes, which holds the jump and nothing else, and records the
    edge; the blocks there were and the stack are as before.  Without a
    label of its own, and with an empty stack or a top record that lacks
    the label, the emission fails with P081 and changes nothing else. *)
Theorem break_and_continue_lowering f h lbl bb r s :
  jumps_to (emit_element (S f) (break_e h lbl) bb r s)
           (jump_target exit_label lbl s) "exit" s /\
  jumps_to (emit_element (S f) (continue_e h lbl) bb r s)
           (jump_target continue_label lbl s) "continue" s.
Proof.
  split; rewrite emit_element_S; unfold emit_element_body;
    apply emit_jump_out_jumps.
Qed.

(** The session an emission of straight-line code leaves, read block by
    block. *)
Lemma blocks_with_instructions b ins s :
  blocks (with_instructions b ins s) = alter (append_instructions ins) b (blocks s).
Proof. exact (post_blocks _ _ _ _ _ _ (with_instructions_post 0%N b ins s)). Qed.

Ltac read_known :=
  repeat first
    [ progress read_blocks
    | progress settle_decide
    | match goal with
      | H : blocks ?s1 = _ |- context [instructions_of ?s1 ?i] =>
          change (instructions_of s1 i) with (instructions_at (blocks s1) i);
          rewrite H
      | H : blocks ?s1 = _ |- context [labels_of ?s1 ?i] =>
          change (labels_of s1 i) with (labels_at (blocks s1) i);
          rewrite H
      end
    | rewrite labels_of_beyond by lenlia
    | rewrite instructions_of_beyond by lenlia ].

Lemma runs_emits e d t o ins f bb s (Q : nat * emit_result_t -> session -> Prop) :
  emits e d t o ins -> (d <= f)%nat ->
  (forall s', arguments_post 0%N bb ins 0 s s' -> Q (bb, result_of t o) s') ->
  runs (emit_element f e bb empty_result) s Q.
Proof.
  intros He Hd HQ. eapply runs_eq; [apply He; exact Hd |].
  apply HQ, with_instructions_post.
Qed.

Lemma current_flow_control_index s :
  current_flow_control s
  = Ok (match last (control_flow_stack s) with
        | Some _ => Some (Nat.pred (length (control_flow_stack s)))
        | None => None
        end) s.
Proof.
  unfold current_flow_control, bind, get, ret.
  destruct (control_flow_stack s) as [| x st _] using rev_ind; [reflexivity |].
  rewrite last_snoc. destruct (st ++ [x]) eqn:E; [destruct st; discriminate |].
  reflexivity.
Qed.

(** A [fallthrough] asks only for a record on the flow-control stack,
    whatever construct pushed it: with one, it sets the fallthrough mark of
    the top record and leaves the records below, the blocks and the
    messages as they were, staying in the block it was given; with an empty
    stack it fails with X000. *)
Theorem fallthrough_marks_the_top_record f h bb r s :
  match top_flow_control s with
  | None =>
      emit_element (S f) (fallthrough h) bb r s
      = Failed (with_message "X000" "fallthrough is only valid within a case." s)
  | Some fc =>
      exists s',
        emit_element (S f) (fallthrough h) bb r s
        = Ok (bb, infer_type (fallthrough h) r) s' /\
        top_flow_control s' = Some (set_fallthrough true fc) /\
        removelast (control_flow_stack s') = removelast (control_flow_stack s) /\
        blocks s' = blocks s /\ messages s' = messages s
  end.
Proof.
  assert (E : emit_element (S f) (fallthrough h) bb r s
              = match last (control_flow_stack s) with
                | None =>
                    Failed (with_message "X000"
                              "fallthrough is only valid within a case." s)
                | Some _ =>
                    Ok (bb, infer_type (fallthrough h) r)
                       (set_control_flow_stack
                          (alter (set_fallthrough true)
                                 (Nat.pred (length (control_flow_stack s)))) s)
                end).
  { rewrite emit_element_S. unfold emit_element_body, emit_fallthrough.
    unfold bind at 1. rewrite current_flow_control_index.
    destruct (last (control_flow_stack s)); reflexivity. }
  rewrite E. clear E. unfold top_flow_control.
  destruct (control_flow_stack s) as [| x st _] eqn:Hst using rev_ind.
  - reflexivity.
  - rewrite last_snoc.
    eexists. split; [reflexivity |].
    cbn [control_flow_stack blocks messages set_control_flow_stack].
    rewrite Hst. rewrite length_app. cbn [length].
    replace (Nat.pred (length st + 1)) with (length st) by lia.
    replace (alter (set_fallthrough true) (length st) (st ++ [x]))
      with (st ++ [set_fallthrough true x]).
    + rewrite last_snoc, !removelast_last. repeat split; reflexivity.
    + rewrite alter_app_r_alt by lia.
      replace (length st - length st)%nat with 0%nat by lia. reflexivity.
Qed.

(** A [return] without a return field returns in a block it makes, which
    holds the move of the frame pointer to the stack pointer, the pop of the
    frame pointer and the [rts], whether or not a stack frame was opened;
    the blocks there were keep their instructions. *)
Theorem return_restores_the_frame f h exprs bb r s :
  exists s',
    emit_element (S f) (return_e h None exprs) bb r s
    = Ok (length (blocks s), infer_type (return_e h None exprs) r) s' /\
    instructions_of s' (length (blocks s))
    = [inst move [operand_sp; operand_fp]; inst pop [operand_fp]; inst rts []] /\
    length (blocks s') = S (length (blocks s)) /\
    forall i, (i < length (blocks s))%nat ->
              instructions_of s' i = instructions_of s i.
Proof.
  rewrite emit_element_S. unfold emit_element_body, emit_return_e.
  eexists. split; [reflexivity |].
  repeat split.
  - read_blocks. settle_decide. rewrite instructions_of_beyond by lia. reflexivity.
  - cbn [blocks set_blocks]. rewrite !length_alter, length_app. cbn. lia.
  - intros i Hi. read_blocks. settle_decide. reflexivity.
Qed.

(** A [return] with a return field, over a straight-line expression:
    the block it makes holds the expression's instructions, the store of
    its operand to the field's local, and the same three instructions. *)
Theorem return_stores_the_value f h field exprs first d t o ins bb r s :
  head exprs = Some first -> emits first d t o ins -> (d <= f)%nat ->
  exists s',
    emit_element (S f) (return_e h (Some field) exprs) bb r s
    = Ok (length (blocks s), infer_type (return_e h (Some field) exprs) r) s' /\
    instructions_of s' (length (blocks s))
    = ins ++ [inst store [operand_named_ref (make_named_ref ref_local field qword); o];
              inst move [operand_sp; operand_fp]; inst pop [operand_fp];
              inst rts []] /\
    length (blocks s') = S (length (blocks s)) /\
    forall i, (i < length (blocks s))%nat ->
              instructions_of s' i = instructions_of s i.
Proof.
  intros Hhead Hfirst Hd.
  enough (Hruns :
    runs (emit_element (S f) (return_e h (Some field) exprs) bb r) s
         (fun out s' =>
            out = (length (blocks s), infer_type (return_e h (Some field) exprs) r) /\
            instructions_of s' (length (blocks s))
            = ins ++ [inst store [operand_named_ref
                                    (make_named_ref ref_local field qword); o];
                      inst move [operand_sp; operand_fp]; inst pop [operand_fp];
                      inst rts []] /\
            length (blocks s') = S (length (blocks s)) /\
            forall i, (i < length (blocks s))%nat ->
                      instructions_of s' i = instructions_of s i)).
  { destruct Hruns as (out & s' & E & -> & H). exists s'. split; [exact E | exact H]. }
  rewrite emit_element_S. unfold emit_element_body, emit_return_e.
  runs_steps.
  eapply runs_front; [exact Hhead |].
  runs_steps.
  eapply runs_emits; [exact Hfirst | exact Hd |].
  intros s1 [Hblk1 _ _ _ _ _ _ _]. norm_len_in Hblk1.
  assert (Hlen1 : length (blocks s1) = S (length (blocks s)))
    by (rewrite Hblk1; norm_goal; lia).
  runs_steps.
  subst b. split; [reflexivity |].
  split; [| split].
  - read_known. rewrite <- !app_assoc. reflexivity.
  - norm_goal. lia.
  - intros i Hi. read_known. reflexivity.
Qed.

Lemma return_stores_the_value_witness :
  exists s',
    emit_element 2
      (return_e (example_header 40 "return_40" None) (Some "result")
                [u32_literal 1 7])
      0%nat empty_result start_session
    = Ok (1%nat, empty_result) s' /\
    instructions_of s' 1
    = [inst store [operand_named_ref (make_named_ref ref_local "result" qword);
                   operand_integer 7 dword];
       inst move [operand_sp; operand_fp]; inst pop [operand_fp]; inst rts []].
Proof.
  destruct (return_stores_the_value 1 (example_header 40 "return_40" None)
              "result" [u32_literal 1 7] (u32_literal 1 7) 1
              (numeric_type u32) (operand_integer 7 dword) []
              0%nat empty_result start_session eq_refl)
    as (s' & E & I & _).
  - apply emits_integer_literal. reflexivity.
  - lia.
  - exists s'. split; assumption.
Defined.

(** *** While *)

Lemma extends_same_labels n0 bb0 s s' i :
  extends n0 bb0 s s' -> (i < n0)%nat -> i <> bb0 ->
  labels_of s' i = labels_of s i.
Proof. intros (_ & _ & _ & _ & Hf) Hi Hne. apply Hf; assumption. Qed.

(** Reading a block through steps, calls that returned and sessions whose
    blocks are known. *)
Ltac read_all :=
  repeat first
    [ progress read_known
    | match goal with
      | Hx : extends _ _ _ ?sj |- context [instructions_of ?sj ?i] =>
          rewrite (extends_same _ _ _ _ i Hx) by lenlia
      | Hx : extends _ _ _ ?sj |- context [labels_of ?sj ?i] =>
          rewrite (extends_same_labels _ _ _ _ i Hx) by lenlia
      | Hx : extends _ _ _ ?sj |- head (labels_of ?sj ?i) = _ =>
          eapply prefix_head; [exact (extends_labels _ _ _ _ i Hx) |]
      | Hs : ?sb = set_blocks _ _ |- context [instructions_of ?sb _] => rewrite Hs
      | Hs : ?sb = set_blocks _ _ |- context [labels_of ?sb _] => rewrite Hs
      end ].

(** *** Comparisons and logical operators *)

(** A comparison of two straight-line operands: the block it is emitted
    from receives the operands' instructions, the left ones first, then the
    [cmp] and the [set..] instruction of the operator, in its signed or
    unsigned form after the type of the left operand; the emission returns
    in a block it makes, which holds a [nop] and lists the label [_exit],
    while the label map binds [_exit] to the block of the comparison. *)
Theorem comparison_lowering f h op cc l r n dl dr tl lo insl tr ro insr bb res s :
  comparison_op_code op (type_is_signed tl) = Some cc ->
  emits l dl tl lo insl -> emits r dr tr ro insr ->
  (S (Nat.max dl dr) <= f)%nat -> (bb < length (blocks s))%nat ->
  let tmp := operand_named_ref (make_named_ref ref_local "" byte) in
  exists s',
    emit_element f (binary_operator h op l r n) bb res s
    = Ok (length (blocks s),
          emplace_back tmp (infer_type (binary_operator h op l r n) res)) s' /\
    instructions_of s' bb
    = instructions_of s bb ++ insl ++ insr ++ [inst cmp [lo; ro]; inst cc [tmp]] /\
    instructions_of s' (length (blocks s)) = [inst nop []] /\
    labels_of s' (length (blocks s)) = [label_name h +:+ "_exit"] /\
    labels_map s' = labels_map s ++ [(label_name h +:+ "_exit", bb)] /\
    length (blocks s') = S (length (blocks s)).
Proof.
  intros Hcc Hl Hr Hf Hbb tmp. subst tmp.
  destruct f as [| f]; [lia |].
  enough (Hruns :
    runs (emit_element (S f) (binary_operator h op l r n) bb res) s
         (fun out s' =>
            out = (length (blocks s),
                   emplace_back (operand_named_ref (make_named_ref ref_local "" byte))
                                (infer_type (binary_operator h op l r n) res)) /\
            instructions_of s' bb
            = instructions_of s bb ++ insl ++ insr
              ++ [inst cmp [lo; ro];
                  inst cc [operand_named_ref (make_named_ref ref_local "" byte)]] /\
            instructions_of s' (length (blocks s)) = [inst nop []] /\
            labels_of s' (length (blocks s)) = [label_name h +:+ "_exit"] /\
            labels_map s' = labels_map s ++ [(label_name h +:+ "_exit", bb)] /\
            length (blocks s') = S (length (blocks s)))).
  { destruct Hruns as (out & s' & E & -> & H). exists s'. split; [exact E | exact H]. }
  rewrite emit_element_S. unfold emit_element_body, emit_binary_operator.
  assert (Hrel :
    forall res0,
      runs (emit_relational_operator (emit_element f) h op l r bb res0) s
        (fun out s' =>
           out = (length (blocks s),
                  emplace_back (operand_named_ref (make_named_ref ref_local "" byte))
                               res0) /\
           instructions_of s' bb
           = instructions_of s bb ++ insl ++ insr
             ++ [inst cmp [lo; ro];
                 inst cc [operand_named_ref (make_named_ref ref_local "" byte)]] /\
           instructions_of s' (length (blocks s)) = [inst nop []] /\
           labels_of s' (length (blocks s)) = [label_name h +:+ "_exit"] /\
           labels_map s' = labels_map s ++ [(label_name h +:+ "_exit", bb)] /\
           length (blocks s') = S (length (blocks s)))).
  { intros res0. unfold emit_relational_operator. cbv zeta.
    assert (Hlog : is_logical_conjunction_operator op = false)
      by (destruct op; try discriminate Hcc; reflexivity).
    rewrite Hlog.
    runs_steps.
    eapply runs_emits; [exact Hl | lia |].
    intros s1 [Hblk1 _ Hlab1 _ _ _ _ _].
    runs_steps.
    eapply runs_emits; [exact Hr | lia |].
    intros s2 [Hblk2 _ Hlab2 _ _ _ _ _].
    assert (Hlen1 : length (blocks s1) = length (blocks s))
      by (rewrite Hblk1; norm_goal; lia).
    assert (Hlen2 : length (blocks s2) = length (blocks s))
      by (rewrite Hblk2; norm_goal; lia).
    runs_steps.
    eapply runs_deref; [reflexivity |].
    cbv beta. rewrite Hcc.
    runs_steps.
    match goal with
    | Hb : ?b = length (blocks s2) |- _ => rewrite Hlen2 in Hb; subst b
    end.
    split; [reflexivity |].
    repeat match goal with
           | |- _ /\ _ => split
           end.
    - read_known. rewrite <- !app_assoc. reflexivity.
    - read_known. reflexivity.
    - read_known. reflexivity.
    - cbn [labels_map set_blocks set_labels_map]. rewrite Hlab2, Hlab1. reflexivity.
    - norm_goal. lia. }
  destruct op; try discriminate Hcc; apply Hrel.
Qed.

Lemma comparison_lowering_witness :
  exists s',
    emit_element 2
      (binary_operator (example_header 2 "binary_operator_2" None) less_than
         (example_identifier 3 "i" (numeric_type u32)) (u32_literal 4 10) false)
      0%nat empty_result start_session
    = Ok (1%nat,
          emplace_back (operand_named_ref (make_named_ref ref_local "" byte))
                       empty_result) s' /\
    instructions_of s' 0
    = [inst cmp [identifier_operand "i" (numeric_type u32); operand_integer 10 dword];
       inst setb [operand_named_ref (make_named_ref ref_local "" byte)]] /\
    instructions_of s' 1 = [inst nop []] /\
    labels_of s' 1 = ["binary_operator_2_exit"] /\
    labels_map s' = [("binary_operator_2_exit", 0%nat)].
Proof.
  destruct (comparison_lowering 2 (example_header 2 "binary_operator_2" None)
              less_than setb
              (example_identifier 3 "i" (numeric_type u32)) (u32_literal 4 10) false
              1 1 (numeric_type u32) (identifier_operand "i" (numeric_type u32)) []
              (numeric_type u32) (operand_integer 10 dword) []
              0%nat empty_result start_session)
    as (s' & E & I0 & I1 & L1 & Lm & _).
  - reflexivity.
  - apply emits_identifier. reflexivity.
  - apply emits_integer_literal. reflexivity.
  - cbn. lia.
  - cbn. lia.
  - exists s'. repeat split; assumption.
Defined.

(** A logical [&&] or [||] over two straight-line operands: the
    instructions of both operands go to the block it is emitted from, the
    left ones first, followed by the move of the left operand's value to
    the result and the branch to [_exit], a [bz] for [&&] and a [bnz] for
    [||]; the branch skips only the block made next, labelled [_rhs_eval],
    which moves the right operand's value to the result.  The emission
    returns in a second block it makes, which holds a [nop] and lists
    [_exit]; the label map binds [_exit] and [_lhs_eval] to the block of
    the operands. *)
Theorem logical_lowering f h op br l r n dl dr tl lo insl tr ro insr bb res s :
  logical_branch op = Some br ->
  emits l dl tl lo insl -> emits r dr tr ro insr ->
  (S (Nat.max dl dr) <= f)%nat -> (bb < length (blocks s))%nat ->
  let tmp := operand_named_ref (make_named_ref ref_local "" byte) in
  let leave := make_named_ref ref_label (label_name h +:+ "_exit") qword in
  let m := length (blocks s) in
  exists s',
    emit_element f (binary_operator h op l r n) bb res s
    = Ok (S m, emplace_back tmp (infer_type (binary_operator h op l r n) res)) s' /\
    instructions_of s' bb
    = instructions_of s bb ++ insl ++ insr
      ++ [inst move [tmp; lo]; inst br [tmp; operand_named_ref leave]] /\
    instructions_of s' m = [inst move [tmp; ro]] /\
    instructions_of s' (S m) = [inst nop []] /\
    labels_of s' bb = labels_of s bb ++ [label_name h +:+ "_lhs_eval"] /\
    labels_of s' m = [label_name h +:+ "_rhs_eval"] /\
    labels_of s' (S m) = [label_name h +:+ "_exit"] /\
    labels_map s'
    = labels_map s ++ [(label_name h +:+ "_lhs_eval", bb);
                       (label_name h +:+ "_rhs_eval", m);
                       (label_name h +:+ "_exit", bb)] /\
    cfg_edges s' = cfg_edges s ++ [(bb, label_name h +:+ "_exit")].
Proof.
  intros Hbr Hl Hr Hf Hbb tmp leave m. subst tmp leave m.
  destruct f as [| f]; [lia |].
  enough (Hruns :
    runs (emit_element (S f) (binary_operator h op l r n) bb res) s
         (fun out s' =>
            out = (S (length (blocks s)),
                   emplace_back (operand_named_ref (make_named_ref ref_local "" byte))
                                (infer_type (binary_operator h op l r n) res)) /\
            instructions_of s' bb
            = instructions_of s bb ++ insl ++ insr
              ++ [inst move [operand_named_ref (make_named_ref ref_local "" byte); lo];
                  inst br [operand_named_ref (make_named_ref ref_local "" byte);
                           operand_named_ref
                             (make_named_ref ref_label
                                (label_name h +:+ "_exit") qword)]] /\
            instructions_of s' (length (blocks s))
            = [inst move [operand_named_ref (make_named_ref ref_local "" byte); ro]] /\
            instructions_of s' (S (length (blocks s))) = [inst nop []] /\
            labels_of s' bb = labels_of s bb ++ [label_name h +:+ "_lhs_eval"] /\
            labels_of s' (length (blocks s)) = [label_name h +:+ "_rhs_eval"] /\
            labels_of s' (S (length (blocks s))) = [label_name h +:+ "_exit"] /\
            labels_map s'
            = labels_map s ++ [(label_name h +:+ "_lhs_eval", bb);
                               (label_name h +:+ "_rhs_eval", length (blocks s));
                               (label_name h +:+ "_exit", bb)] /\
            cfg_edges s' = cfg_edges s ++ [(bb, label_name h +:+ "_exit")])).
  { destruct Hruns as (out & s' & E & -> & H). exists s'. split; [exact E | exact H]. }
  rewrite emit_element_S. unfold emit_element_body, emit_binary_operator.
  assert (Hrel :
    forall res0,
      runs (emit_relational_operator (emit_element f) h op l r bb res0) s
        (fun out s' =>
            out = (S (length (blocks s)),
                   emplace_back (operand_named_ref (make_named_ref ref_local "" byte))
                                res0) /\
            instructions_of s' bb
            = instructions_of s bb ++ insl ++ insr
              ++ [inst move [operand_named_ref (make_named_ref ref_local "" byte); lo];
                  inst br [operand_named_ref (make_named_ref ref_local "" byte);
                           operand_named_ref
                             (make_named_ref ref_label
                                (label_name h +:+ "_exit") qword)]] /\
            instructions_of s' (length (blocks s))
            = [inst move [operand_named_ref (make_named_ref ref_local "" byte); ro]] /\
            instructions_of s' (S (length (blocks s))) = [inst nop []] /\
            labels_of s' bb = labels_of s bb ++ [label_name h +:+ "_lhs_eval"] /\
            labels_of s' (length (blocks s)) = [label_name h +:+ "_rhs_eval"] /\
            labels_of s' (S (length (blocks s))) = [label_name h +:+ "_exit"] /\
            labels_map s'
            = labels_map s ++ [(label_name h +:+ "_lhs_eval", bb);
                               (label_name h +:+ "_rhs_eval", length (blocks s));
                               (label_name h +:+ "_exit", bb)] /\
            cfg_edges s' = cfg_edges s ++ [(bb, label_name h +:+ "_exit")])).
  { intros res0. unfold emit_relational_operator. cbv zeta.
    assert (Hlog : is_logical_conjunction_operator op = true)
      by (destruct op; try discriminate Hbr; reflexivity).
    rewrite Hlog.
    runs_steps.
    eapply runs_emits; [exact Hl | lia |].
    intros s1 [Hblk1 _ Hlab1 _ _ _ _ Hedge1].
    runs_steps.
    eapply runs_emits; [exact Hr | lia |].
    intros s2 [Hblk2 _ Hlab2 _ _ _ _ Hedge2].
    assert (Hlen1 : length (blocks s1) = length (blocks s))
      by (rewrite Hblk1; norm_goal; lia).
    assert (Hlen2 : length (blocks s2) = length (blocks s))
      by (rewrite Hblk2; norm_goal; lia).
    runs_steps.
    eapply runs_deref; [reflexivity |].
    runs_steps.
    match goal with
    | |- runs ?m _ _ =>
        replace m
          with (modify
                  (set_blocks
                     (alter
                        (append_instructions
                           [inst br
                              [operand_named_ref (make_named_ref ref_local "" byte);
                               operand_named_ref
                                 (make_named_ref ref_label
                                    (label_name h +:+ "_exit") qword)]])
                        bb)))
          by (destruct op; try discriminate Hbr; injection Hbr as <-; reflexivity)
    end.
    runs_steps.
    repeat match goal with
           | Hb : ?b = _ |- _ => is_var b; rewrite ?Hlen2 in Hb; subst b
           end.
    split; [f_equal; lia |].
    repeat match goal with
           | |- _ /\ _ => split
           end.
    - read_known. rewrite <- !app_assoc. reflexivity.
    - read_known. reflexivity.
    - read_known. reflexivity.
    - read_known. reflexivity.
    - read_known. reflexivity.
    - read_known. reflexivity.
    - cbn [labels_map set_blocks set_labels_map set_cfg_edges].
      rewrite Hlab2, Hlab1, <- !app_assoc. reflexivity.
    - cbn [cfg_edges set_blocks set_labels_map set_cfg_edges].
      rewrite Hedge2, Hedge1. reflexivity. }
  destruct op; try discriminate Hbr; apply Hrel.
Qed.

Lemma logical_lowering_witness :
  exists s',
    emit_element 2
      (binary_operator (example_header 2 "binary_operator_2" None) logical_and
         (example_identifier 3 "a" (other_type bool_type "bool" 1))
         (example_identifier 4 "b" (other_type bool_type "bool" 1)) false)
      0%nat empty_result start_session
    = Ok (2%nat,
          emplace_back (operand_named_ref (make_named_ref ref_local "" byte))
                       empty_result) s' /\
    instructions_of s' 0
    = [inst move [operand_named_ref (make_named_ref ref_local "" byte);
                  identifier_operand "a" (other_type bool_type "bool" 1)];
       inst bz [operand_named_ref (make_named_ref ref_local "" byte);
                label_operand "binary_operator_2_exit"]] /\
    instructions_of s' 1
    = [inst move [operand_named_ref (make_named_ref ref_local "" byte);
                  identifier_operand "b" (other_type bool_type "bool" 1)]] /\
    instructions_of s' 2 = [inst nop []] /\
    labels_map s'
    = [("binary_operator_2_lhs_eval", 0%nat); ("binary_operator_2_rhs_eval", 1%nat);
       ("binary_operator_2_exit", 0%nat)].
Proof.
  destruct (logical_lowering 2 (example_header 2 "binary_operator_2" None)
              logical_and bz
              (example_identifier 3 "a" (other_type bool_type "bool" 1))
              (example_identifier 4 "b" (other_type bool_type "bool" 1)) false
              1 1 (other_type bool_type "bool" 1)
              (identifier_operand "a" (other_type bool_type "bool" 1)) []
              (other_type bool_type "bool" 1)
              (identifier_operand "b" (other_type bool_type "bool" 1)) []
              0%nat empty_result start_session)
    as (s' & E & I0 & I1 & I2 & _ & _ & _ & Lm & _).
  - reflexivity.
  - apply emits_identifier. reflexivity.
  - apply emits_identifier. reflexivity.
  - cbn. lia.
  - cbn. lia.
  - exists s'. repeat split; assumption.
Defined.

(** *** Blocks *)

Lemma runs_mono {A} (m : M A) s (Q Q' : A -> session -> Prop) :
  runs m s Q -> (forall a s', Q a s' -> Q' a s') -> runs m s Q'.
Proof. intros (a & s' & E & H) HQ. exists a, s'. split; [exact E | apply HQ, H]. Qed.

Lemma runs_get_block_at b s (Q : basic_block -> session -> Prop) :
  (b < length (blocks s))%nat ->
  (forall blk, blocks s !! b = Some blk -> Q blk s) ->
  runs (get_block b) s Q.
Proof.
  intros Hb HQ. destruct (lookup_lt_is_Some_2 _ _ Hb) as [blk Hblk].
  eapply runs_get_block; [exact Hblk |]. apply HQ, Hblk.
Qed.

Lemma emits_appends e d t o ins : emits e d t o ins -> appends e d ins.
Proof. intros He f bb s Hf. eexists. apply He, Hf. Qed.

Lemma defer_match_element {A} (e : element) (a b : A) :
  match e with defer_e _ _ => a | _ => b end = if is_defer e then a else b.
Proof. destruct e; reflexivity. Qed.

Lemma emit_statements_plain d f (items : list statement_t) :
  Forall (plain_statement d) items -> (d <= f)%nat ->
  forall prev bb s,
    runs (emit_statements (emit_element (S f)) prev (map statement_of items) bb) s
         (fun bb' s' =>
            bb' = bb /\
            blocks s'
            = alter (append_instructions (concat (map statement_instructions items)))
                    bb (blocks s)).
Proof.
  intros Hitems Hf. induction Hitems as [| [[h e] ins] items Hx _ IH];
    intros prev bb s.
  - apply runs_ret. split; [reflexivity |].
    symmetry. apply alter_append_instructions_nil.
  - unfold plain_statement in Hx. cbn [fst snd] in Hx.
    cbn [map concat]. unfold statement_of at 1, statement_instructions at 1.
    cbn [fst snd emit_statements emit_each].
    runs_steps. rewrite defer_match_element.
    destruct (is_defer e) eqn:Hdefer.
    + eapply runs_mono; [apply IH |]. intros bb' s' H. exact H.
    + specialize (Hx eq_refl).
      unfold current_flow_control. runs_steps.
      assert (Hstep :
        forall s0, blocks s0 = blocks s ->
          runs (do '(bb0, _) <- emit_element (S f) (statement h [] (Some e)) bb
                                  empty_result;
                emit_statements (emit_element (S f)) (Some (statement h [] (Some e)))
                                (map statement_of items) bb0)%emit s0
               (fun bb' s' =>
                  bb' = bb /\
                  blocks s'
                  = alter (append_instructions
                             (ins ++ concat (map statement_instructions items)))
                          bb (blocks s))).
      { intros s0 Hs0. runs_steps.
        rewrite emit_element_S. unfold emit_element_body, emit_optional.
        runs_steps.
        destruct (Hx f bb s0 Hf) as (res & E).
        eapply runs_eq; [exact E |]. runs_steps.
        eapply runs_mono; [apply IH |].
        intros bb' s' [-> Hs']. split; [reflexivity |].
        rewrite Hs', blocks_with_instructions, Hs0.
        apply alter_append_instructions. }
      destruct (control_flow_stack s); cbv beta iota;
        [ apply runs_ret | unfold write_flow_control; apply runs_modify ];
        cbv beta; apply Hstep; reflexivity.
Qed.

Lemma is_current_instruction_rts blk s b :
  blocks s !! b = Some blk ->
  is_current_instruction blk rts = ends_in_rts (instructions_of s b).
Proof.
  intros H. unfold instructions_of, instructions_at. rewrite H. reflexivity.
Qed.

(** The elements of a defer stack, emitted one after the other. *)
Lemma emit_each_plain d f (defers : list (element * list instruction_t)) :
  Forall (fun x => appends (fst x) d (snd x)) defers -> (d <= f)%nat ->
  forall bb s,
    runs (emit_each (emit_element f) (map fst defers) bb) s
         (fun bb' s' =>
            bb' = bb /\
            blocks s'
            = alter (append_instructions (concat (map snd defers))) bb (blocks s)).
Proof.
  intros Hds Hf. induction Hds as [| [e ins] defers Hx _ IH]; intros bb s.
  - apply runs_ret. split; [reflexivity |].
    symmetry. apply alter_append_instructions_nil.
  - cbn [map concat fst snd emit_each] in *.
    runs_steps.
    destruct (Hx f bb s Hf) as (res & E).
    eapply runs_eq; [exact E |]. cbv beta iota.
    eapply runs_mono; [apply IH |].
    intros bb' s' [-> Hs']. split; [reflexivity |].
    rewrite Hs', blocks_with_instructions.
    apply alter_append_instructions.
Qed.

(** The lowering of a block whose statements carry no labels and whose
    expressions append straight-line code, with a defer stack whose
    elements append straight-line code: the emission returns in the block
    it was given, to which it has appended the frame's prologue (the push
    of the frame pointer and the move of the stack pointer to it, when the
    block has a stack frame and its parent is no directive), then the
    statements' instructions in their order, a statement whose expression
    is a [defer] contributing nothing there, and then the instructions of
    the elements of the defer stack, from its top down.  With a stack frame
    the emission makes one more block, which does not become the current
    block; it holds the move of the frame pointer to the stack pointer and
    the pop of the frame pointer, unless the block given ends with [rts],
    and is empty then. *)
Theorem block_lowering d f h sf pd (items : list statement_t)
        (defers : list (element * list instruction_t)) bb r s :
  Forall (plain_statement d) items ->
  Forall (fun x => appends (fst x) d (snd x)) defers ->
  (d <= f)%nat ->
  (bb < length (blocks s))%nat ->
  let blk := block h sf pd (map statement_of items) (map fst defers) in
  let body := frame_prologue sf pd
              ++ concat (map statement_instructions items)
              ++ concat (map snd defers) in
  exists s',
    emit_element (S (S f)) blk bb r s = Ok (bb, infer_type blk r) s' /\
    instructions_of s' bb = instructions_of s bb ++ body /\
    if sf
    then length (blocks s') = S (length (blocks s)) /\
         instructions_of s' (length (blocks s))
         = (if ends_in_rts (instructions_of s bb ++ body) then []
            else frame_epilogue)
    else length (blocks s') = length (blocks s).
Proof.
  intros Hitems Hdefers Hf Hbb blk body. subst blk body.
  enough (Hruns :
    runs (emit_element (S (S f))
            (block h sf pd (map statement_of items) (map fst defers)) bb r) s
         (fun out s' =>
            out = (bb, infer_type
                         (block h sf pd (map statement_of items) (map fst defers)) r) /\
            instructions_of s' bb
            = instructions_of s bb
              ++ frame_prologue sf pd
              ++ concat (map statement_instructions items)
              ++ concat (map snd defers) /\
            if sf
            then length (blocks s') = S (length (blocks s)) /\
                 instructions_of s' (length (blocks s))
                 = (if ends_in_rts
                         (instructions_of s bb
                          ++ frame_prologue sf pd
                          ++ concat (map statement_instructions items)
                          ++ concat (map snd defers))
                    then [] else frame_epilogue)
            else length (blocks s') = length (blocks s))).
  { destruct Hruns as (out & s' & E & -> & H). exists s'. split; [exact E | exact H]. }
  rewrite emit_element_S. unfold emit_element_body, emit_block.
  runs_steps.
  assert (Hbegin :
    runs (begin_stack_frame bb sf pd) s
         (fun _ s0 =>
            blocks s0 = alter (append_instructions (frame_prologue sf pd)) bb (blocks s))).
  { unfold begin_stack_frame, frame_prologue.
    destruct pd, sf; runs_steps; cbn [blocks set_blocks];
      rewrite ?alter_append_instructions, ?alter_append_instructions_nil;
      reflexivity. }
  eapply runs_mono; [exact Hbegin |]. clear Hbegin.
  intros [] s0 Hblk0. cbv beta.
  runs_steps.
  eapply runs_mono; [apply (emit_statements_plain d f items Hitems Hf) |].
  intros bb' s1 [-> Hblk1]. cbv beta.
  runs_steps.
  eapply runs_mono;
    [apply (emit_each_plain d (S f) defers Hdefers ltac:(lia)) |].
  intros bb' s2 [-> Hblk2]. cbv beta.
  runs_steps.
  rewrite Hblk1, Hblk0, !alter_append_instructions in Hblk2.
  clear Hblk0 Hblk1 s0 s1.
  assert (Hlen2 : length (blocks s2) = length (blocks s))
    by (rewrite Hblk2; norm_goal; lia).
  assert (Hread : instructions_of s2 bb
                  = instructions_of s bb
                    ++ frame_prologue sf pd
                    ++ concat (map statement_instructions items)
                    ++ concat (map snd defers)).
  { read_known. rewrite <- ?app_assoc. reflexivity. }
  unfold end_stack_frame.
  destruct sf; cbn [negb andb]; runs_steps.
  - eapply runs_get_block_at; [norm_goal; lia |].
    intros cb Hcb.
    rewrite (is_current_instruction_rts _ _ _ Hcb).
    match goal with
    | |- context [ends_in_rts (instructions_of ?S bb)] =>
        replace (instructions_of S bb) with (instructions_of s2 bb)
          by (symmetry; read_known; reflexivity)
    end.
    rewrite Hread. clear Hcb cb.
    match goal with
    | Hb : ?b = length (blocks s2) |- _ => rewrite Hlen2 in Hb; subst b
    end.
    destruct (ends_in_rts _); cbn [negb andb]; runs_steps;
      (split; [reflexivity |]); (split; [| split]);
      try (norm_goal; lia);
      read_known; try rewrite instructions_of_beyond by lia;
      rewrite <- ?app_assoc; reflexivity.
  - split; [reflexivity |]. split; [exact Hread | exact Hlen2].
Qed.

Lemma defer_appends h e d ins :
  appends e d ins -> appends (defer_e h (Some e)) (S d) ins.
Proof.
  intros He f bb s Hf. destruct f as [| f]; [lia |].
  destruct (He f bb s ltac:(lia)) as (res & E).
  rewrite emit_element_S. unfold emit_element_body, emit_optional.
  unfold bind. rewrite E. eexists. reflexivity.
Qed.

Lemma appends_deeper e d d' ins :
  appends e d ins -> (d <= d')%nat -> appends e d' ins.
Proof. intros H Hd f bb s Hf. apply H. lia. Qed.

Lemma block_lowering_witness :
  exists s',
    emit_element 5
      (block (example_header 5 "block_5" None) true false
             [statement (example_header 10 "statement" None) []
                (Some (binary_operator (example_header 11 "binary_operator" None)
                         assignment
                         (example_identifier 12 "b" (numeric_type s32))
                         (s32_literal 13 1) false));
              statement (example_header 20 "statement" None) []
                (Some (defer_e (example_header 21 "defer_21" None)
                         (Some (binary_operator
                                  (example_header 22 "binary_operator" None)
                                  assignment
                                  (example_identifier 23 "c" (numeric_type s32))
                                  (s32_literal 24 2) false))))]
             [defer_e (example_header 21 "defer_21" None)
                (Some (binary_operator (example_header 22 "binary_operator" None)
                         assignment
                         (example_identifier 23 "c" (numeric_type s32))
                         (s32_literal 24 2) false))])
      0%nat empty_result start_session
    = Ok (0%nat, empty_result) s' /\
    instructions_of s' 0
    = [inst push [operand_fp]; inst move [operand_fp; operand_sp];
       inst store [identifier_operand "b" (numeric_type s32);
                   operand_integer 1 dword];
       inst store [identifier_operand "c" (numeric_type s32);
                   operand_integer 2 dword]] /\
    length (blocks s') = 2%nat /\
    instructions_of s' 1
    = [inst move [operand_sp; operand_fp]; inst pop [operand_fp]].
Proof.
  assert (Hassign : forall i1 i2 i3 name v,
    appends (binary_operator (example_header i1 "binary_operator" None) assignment
               (example_identifier i2 name (numeric_type s32)) (s32_literal i3 v) false)
            2 [inst store [identifier_operand name (numeric_type s32);
                           operand_integer v dword]]).
  { intros i1 i2 i3 name v f bb s Hf. eexists.
    apply (assignment_emits _ _ _ _ 1 1 (numeric_type s32)
             (identifier_operand name (numeric_type s32)) (numeric_type s32)
             (operand_integer v dword) []).
    - apply emits_identifier. reflexivity.
    - apply emits_integer_literal. reflexivity.
    - reflexivity.
    - reflexivity.
    - exact Hf. }
  destruct (block_lowering 3 3 (example_header 5 "block_5" None) true false
              [(example_header 10 "statement" None,
                binary_operator (example_header 11 "binary_operator" None)
                  assignment (example_identifier 12 "b" (numeric_type s32))
                  (s32_literal 13 1) false,
                [inst store [identifier_operand "b" (numeric_type s32);
                             operand_integer 1 dword]]);
               (example_header 20 "statement" None,
                defer_e (example_header 21 "defer_21" None)
                  (Some (binary_operator (example_header 22 "binary_operator" None)
                           assignment
                           (example_identifier 23 "c" (numeric_type s32))
                           (s32_literal 24 2) false)), [])]
              [(defer_e (example_header 21 "defer_21" None)
                  (Some (binary_operator (example_header 22 "binary_operator" None)
                           assignment
                           (example_identifier 23 "c" (numeric_type s32))
                           (s32_literal 24 2) false)),
                [inst store [identifier_operand "c" (numeric_type s32);
                             operand_integer 2 dword]])]
              0%nat empty_result start_session)
    as (s' & E & I0 & Hlen & I1).
  - constructor; [| constructor; [| constructor]].
    + intros _. cbn [fst snd]. eapply appends_deeper; [apply Hassign | lia].
    + intros Hd. discriminate Hd.
  - constructor; [| constructor]. cbn [fst snd].
    apply defer_appends, Hassign.
  - lia.
  - cbn. lia.
  - exists s'. repeat split; assumption.
Defined.

(** *** Reading an emission that returned *)

Section OkThen.
Context {A B : Type}.

Lemma ok_then_bind (m : M A) (k : A -> M B) s (Q : B -> session -> Prop) :
  ok_then m s (fun a s1 => ok_then (k a) s1 Q) -> ok_then (bind m k) s Q.
Proof.
  unfold ok_then, bind. intros H b s' E.
  destruct (m s) as [a s1 | | |] eqn:Em; try discriminate.
  exact (H a s1 eq_refl b s' E).
Qed.

Lemma ok_then_runs (m : M A) s (Q : A -> session -> Prop) :
  runs m s Q -> ok_then m s Q.
Proof.
  intros (a & s1 & Hm & HQ) a' s' E. rewrite Hm in E.
  injection E as <- <-. exact HQ.
Qed.

Lemma ok_then_after (m : M A) (k : A -> M B) s (Q : B -> session -> Prop) :
  runs m s (fun a s1 => ok_then (k a) s1 Q) -> ok_then (bind m k) s Q.
Proof. intros H. apply ok_then_bind, ok_then_runs, H. Qed.

Lemma ok_then_ret (a : A) s (Q : A -> session -> Prop) :
  Q a s -> ok_then (ret a) s Q.
Proof. intros H. apply ok_then_runs, runs_ret, H. Qed.

Lemma ok_then_with_defer cleanup (body : M A) s (Q : A -> session -> Prop) :
  ok_then body s (fun a s' => Q a (cleanup s')) ->
  ok_then (with_defer cleanup body) s Q.
Proof.
  unfold ok_then, with_defer. intros H a s' E.
  destruct (body s) as [a1 s1 | | |] eqn:Em; try discriminate.
  injection E as <- <-. exact (H a1 s1 eq_refl).
Qed.

Lemma ok_then_deref (o : option A) s (Q : A -> session -> Prop) :
  (forall a, o = Some a -> Q a s) -> ok_then (deref o) s Q.
Proof.
  intros H a s' E. destruct o as [a0 |]; [| discriminate].
  injection E as <- <-. exact (H a0 eq_refl).
Qed.

Lemma ok_then_back (l : list A) s (Q : A -> session -> Prop) :
  (forall a, last l = Some a -> Q a s) -> ok_then (back l) s Q.
Proof. apply ok_then_deref. Qed.

Lemma ok_then_front (l : list A) s (Q : A -> session -> Prop) :
  (forall a, head l = Some a -> Q a s) -> ok_then (front l) s Q.
Proof. apply ok_then_deref. Qed.

Lemma ok_then_fail s (Q : A -> session -> Prop) : ok_then fail s Q.
Proof. intros a s' E. discriminate E. Qed.

End OkThen.


Lemma ok_then_integer_argument e s (Q : Z -> session -> Prop) :
  (forall v, as_integer e = Some v -> Q v s) -> ok_then (integer_argument e) s Q.
Proof.
  intros H v s' E. unfold integer_argument in E.
  destruct (as_integer e) as [v0 |] eqn:Hv; [| discriminate].
  injection E as <- <-. exact (H v0 eq_refl).
Qed.

(** One step of a computation that returned: a step whose course is known
    is run, the result of [back] is named, and a call of the emitter is
    left to the proof. *)
Ltac ok_step :=
  cbv beta iota;
  lazymatch goal with
  | |- ok_then (bind (emit_element _ _ _ _) _) _ _ => fail
  | |- ok_then (bind (back _) _) _ _ =>
      let o := fresh "o" in
      let Ho := fresh "Ho" in
      first [ apply ok_then_after; runs_step
            | apply ok_then_bind, ok_then_back; intros o Ho ]
  | |- ok_then (bind (integer_argument _) _) _ _ =>
      let v := fresh "v" in
      let Hv := fresh "Hv" in
      first [ apply ok_then_after; eapply runs_integer_argument; [eassumption |]
            | apply ok_then_bind, ok_then_integer_argument; intros v Hv ]
  | |- ok_then (bind (get_block _) _) _ _ => fail
  | |- ok_then (bind (match _ with _ => _ end) _) _ _ => fail
  | |- ok_then (bind (if _ then _ else _) _) _ _ => fail
  | |- ok_then (bind (bind _ _) _) _ _ => apply ok_then_bind
  | |- ok_then (bind _ _) _ _ => apply ok_then_after
  | |- ok_then (with_defer _ _) _ _ => apply ok_then_with_defer
  | |- ok_then (ret _) _ _ => apply ok_then_ret
  | |- ok_then (modify _) _ _ => apply ok_then_runs
  | |- ok_then (instruction _ _) _ _ => apply ok_then_runs
  | |- ok_then (comment _ _) _ _ => apply ok_then_runs
  | |- ok_then (add_cfg_edge _ _) _ _ => apply ok_then_runs
  | |- ok_then fail _ _ => apply ok_then_fail
  end.

Ltac ok_steps := repeat first [runs_step | ok_step].

(** A call of the emitter that returned: its equation [E] and what it
    kept of the blocks, [Hx]. *)
Ltac ok_call Hsafe b1 r1 s1 E Hx :=
  lazymatch goal with
  | |- ok_then (bind (emit_element ?f ?e ?b ?r0) _) ?S _ =>
      apply ok_then_bind; intros [b1 r1] s1 E;
      pose proof (Hsafe e b r0 S) as Hx;
      rewrite E in Hx
  end.

(** The session straight-line code left, kept by its blocks alone. *)
Ltac known_session sk Hk Hl :=
  match goal with
  | |- context [with_instructions ?b ?ins ?S] =>
      pose proof (blocks_with_instructions b ins S) as Hk;
      assert (Hl : length (blocks (with_instructions b ins S)) = length (blocks S))
        by (rewrite blocks_with_instructions; apply length_alter);
      set (sk := with_instructions b ins S) in *; clearbody sk;
      norm_len_in Hl;
      cbn [blocks set_blocks set_labels_map set_cfg_edges set_control_flow_stack
           set_elements_map set_id_pool set_messages set_allocated_sizes
           set_ffi_functions push_flow_control] in Hk
  end.
(** *** Switch and case *)

(** The lowering of a [switch] whose emission returns: the block made
    first starts with the label [_entry], and the scope is emitted from it
    with the [switch]'s record on top of the flow-control stack; the record
    holds the exit label [_exit] and the switch expression, and no continue
    label.  The emission returns in the last block it makes, the only one
    labelled [_exit], which holds a [nop]; nothing is appended to the
    blocks the scope's emission left. *)
Theorem switch_lowering f h x scope bb r s exit r' s' :
  emit_element (S f) (switch_e h x scope) bb r s = Ok (exit, r') s' ->
  exists s_b r_b end_b r_e s_e,
    let n := length (blocks s) in
    emit_element f scope n r_b s_b = Ok (end_b, r_e) s_e /\
    control_flow_stack s_b = control_flow_stack s ++ [switch_record h x] /\
    continue_label (switch_record h x) = None /\
    head (labels_of s' n) = Some (label_name h +:+ "_entry") /\
    (n < exit)%nat /\ length (blocks s') = S exit /\
    labels_of s' exit = [label_name h +:+ "_exit"] /\
    instructions_of s' exit = [inst nop []] /\
    forall i, (i < exit)%nat -> instructions_of s' i = instructions_of s_e i.
Proof.
  destruct (emit_element_block_safe f) as [Hsafe _].
  revert exit r' s'.
  enough (Hok :
    ok_then (emit_element (S f) (switch_e h x scope) bb r) s
         (fun out s' =>
            exists s_b r_b end_b r_e s_e,
              emit_element f scope (length (blocks s)) r_b s_b
              = Ok (end_b, r_e) s_e /\
              control_flow_stack s_b = control_flow_stack s ++ [switch_record h x] /\
              continue_label (switch_record h x) = None /\
              head (labels_of s' (length (blocks s)))
              = Some (label_name h +:+ "_entry") /\
              (length (blocks s) < fst out)%nat /\
              length (blocks s') = S (fst out) /\
              labels_of s' (fst out) = [label_name h +:+ "_exit"] /\
              instructions_of s' (fst out) = [inst nop []] /\
              forall i, (i < fst out)%nat ->
                        instructions_of s' i = instructions_of s_e i)).
  { intros exit r' s' E. exact (Hok (exit, r') s' E). }
  rewrite emit_element_S. unfold emit_element_body, emit_switch_e. cbv zeta.
  fold (switch_record h x).
  ok_steps.
  match goal with
  | |- ok_then (bind (emit_element f scope _ ?r0) _) ?S _ =>
      remember S as s_b eqn:Hs_b; remember r0 as r_b eqn:Hr_b
  end.
  ok_call Hsafe end_b r_e s_e Eb Hxb.
  assert (Hlenb : length (blocks s_b) = S (length (blocks s)))
    by (rewrite Hs_b; norm_goal; lia).
  assert (Hstackb : control_flow_stack s_b
                    = control_flow_stack s ++ [switch_record h x])
    by (rewrite Hs_b; reflexivity).
  destruct Hxb as (Heb & _ & _). rewrite Hlenb in Heb.
  ok_steps.
  cbn [fst].
  exists s_b, r_b, end_b, r_e, s_e.
  repeat match goal with
         | |- _ /\ _ => split
         end;
    try assumption; try reflexivity; try (norm_goal; lenlia);
    try (subst b; exact Eb);
    try (intros i Hi);
    read_all; try reflexivity.
Qed.

Lemma switch_lowering_witness :
  exists exit r' s',
    emit_element 8 switch_two_cases 0%nat empty_result busy_session
    = Ok (exit, r') s' /\
    exists s_b r_b end_b r_e s_e,
      let n := length (blocks busy_session) in
      emit_element 7
        (block (example_header 32 "block_32" None) false false
           [statement (example_header 33 "statement" None) []
              (Some (case_e (example_header 34 "case_34" None)
                       (Some (s32_literal 35 1))
                       (block (example_header 36 "block_36" None) false false [] [])));
            statement (example_header 37 "statement" None) []
              (Some (case_e (example_header 38 "case_38" None)
                       (Some (s32_literal 39 2))
                       (block (example_header 40 "block_40" None) false false [] [])))]
           [])
        n r_b s_b
      = Ok (end_b, r_e) s_e /\
      control_flow_stack s_b
      = control_flow_stack busy_session
        ++ [switch_record (example_header 30 "switch_30" None)
              (Some (example_identifier 31 "i" (numeric_type s32)))] /\
      continue_label
        (switch_record (example_header 30 "switch_30" None)
           (Some (example_identifier 31 "i" (numeric_type s32)))) = None /\
      head (labels_of s' n) = Some "switch_30_entry" /\
      (n < exit)%nat /\ length (blocks s') = S exit /\
      labels_of s' exit = ["switch_30_exit"] /\
      instructions_of s' exit = [inst nop []] /\
      forall i, (i < exit)%nat -> instructions_of s' i = instructions_of s_e i.
Proof.
  destruct (emit_element 8 switch_two_cases 0%nat empty_result busy_session)
    as [[exit r'] s' | s' | |] eqn:E;
    [| vm_compute in E; discriminate E ..].
  exists exit, r', s'. split; [reflexivity |].
  exact (switch_lowering 7 _ _ _ _ _ _ _ _ _ E).
Defined.

(** A [case] met with an empty flow-control stack fails, and leaves the
    session as it found it: no message is recorded. *)
Theorem case_outside_a_switch_fails_silently f h x scope bb r s :
  control_flow_stack s = [] ->
  emit_element (S f) (case_e h x scope) bb r s = Failed s.
Proof.
  intros Hst. rewrite emit_element_S. unfold emit_element_body, emit_case_e.
  cbv zeta. unfold bind at 1. rewrite current_flow_control_index, Hst.
  reflexivity.
Qed.

Lemma case_outside_a_switch_fails_silently_witness :
  emit_element 1
    (case_e (example_header 7 "case_7" None) None
            (block (example_header 9 "block_9" None) false false [] []))
    0%nat empty_result start_session
  = Failed start_session /\
  messages start_session = [].
Proof.
  split; [| reflexivity].
  apply (case_outside_a_switch_fails_silently 0). reflexivity.
Defined.

Lemma fails_with_defer {A} cleanup (body : M A) s (Q : session -> Prop) :
  fails body s (fun s' => Q (cleanup s')) -> fails (with_defer cleanup body) s Q.
Proof.
  intros (s' & E & H). exists (cleanup s'). split; [| exact H].
  unfold with_defer. rewrite E. reflexivity.
Qed.

Lemma fails_mono {A} (m : M A) s (Q Q' : session -> Prop) :
  fails m s Q -> (forall s', Q s' -> Q' s') -> fails m s Q'.
Proof. intros (s' & E & H) HQ. exists s'. split; [exact E | apply HQ, H]. Qed.

(** The top record after the statement loop has written to it. *)
Lemma top_after_write f s fc :
  top_flow_control s = Some fc ->
  top_flow_control
    (set_control_flow_stack (alter f (Nat.pred (length (control_flow_stack s)))) s)
  = Some (f fc).
Proof.
  unfold top_flow_control. cbn [control_flow_stack set_control_flow_stack].
  destruct (control_flow_stack s) as [| x st _] using rev_ind;
    [discriminate |].
  rewrite last_snoc. intros [= ->].
  rewrite length_app. cbn [length].
  replace (Nat.pred (length st + 1)) with (length st + 0)%nat by lia.
  rewrite alter_app_r_alt by lia.
  replace (length st + 0 - length st)%nat with 0%nat by lia.
  cbn [alter list_alter]. apply last_snoc.
Qed.

Lemma current_flow_control_top s fc :
  top_flow_control s = Some fc ->
  current_flow_control s = Ok (Some (Nat.pred (length (control_flow_stack s)))) s.
Proof.
  unfold top_flow_control, current_flow_control, bind, get, ret.
  destruct (control_flow_stack s); [discriminate | reflexivity].
Qed.

(** An unlabelled [continue] among the statements of a block, after
    statements of straight-line code, under a top record without a
    continue label. *)
Lemma continue_among_statements d f (items : list statement_t) hs hc rest :
  Forall (plain_statement d) items -> (d <= S f)%nat ->
  forall prev bb s fc,
    top_flow_control s = Some fc -> continue_label fc = None ->
    fails (emit_statements (emit_element (S (S f))) prev
             (map statement_of items
              ++ statement hs [] (Some (continue_e hc None)) :: rest) bb) s
          (fun s' =>
             messages s'
             = messages s ++ [{| code := "P081";
                                 message := "no valid continue label on stack." |}]).
Proof.
  intros Hitems Hf. induction Hitems as [| [[h e] ins] items Hx _ IH];
    intros prev bb s fc Htop Hnone.
  - cbn [map app emit_statements emit_each].
    apply fails_after. apply runs_ret. cbv beta iota.
    apply fails_after. eapply runs_eq;
      [apply (current_flow_control_top _ _ Htop) |]. cbv beta iota.
    apply fails_after. unfold write_flow_control. apply runs_modify.
    apply fails_bind.
    rewrite emit_element_S. unfold emit_element_body, emit_optional.
    apply fails_bind, fails_bind.
    rewrite emit_element_S. unfold emit_element_body, emit_continue_e.
    match goal with
    | |- fails (emit_jump_out continue_label "continue" None ?b ?r0) ?S _ =>
        pose proof (emit_jump_out_jumps continue_label "continue" None b r0 S) as Hj;
        assert (Ht : jump_target continue_label None S = None)
    end.
    { unfold jump_target. rewrite (top_after_write _ _ _ Htop). exact Hnone. }
    rewrite Ht in Hj. unfold jumps_to in Hj.
    eexists. split; [exact Hj |]. reflexivity.
  - unfold plain_statement in Hx. cbn [fst snd] in Hx.
    cbn [map app]. unfold statement_of at 1.
    cbn [fst snd emit_statements emit_each].
    apply fails_after. apply runs_ret. cbv beta iota.
    rewrite defer_match_element.
    destruct (is_defer e) eqn:Hdefer.
    + apply (IH _ _ _ _ Htop Hnone).
    + specialize (Hx eq_refl).
      apply fails_after. eapply runs_eq;
        [apply (current_flow_control_top _ _ Htop) |]. cbv beta iota.
      apply fails_after. unfold write_flow_control. apply runs_modify.
      apply fails_after.
      rewrite emit_element_S. unfold emit_element_body, emit_optional.
      apply runs_bind, runs_bind.
      match goal with
      | |- runs (emit_element _ e ?b ?r0) ?s0 _ =>
          destruct (Hx (S f) b s0 Hf) as (res & E);
          pose proof (with_instructions_post 0%N b ins s0) as Hpost;
          pose proof (top_after_write
                        (set_next_previous
                           (head (map statement_of items
                                  ++ statement hs [] (Some (continue_e hc None))
                                  :: rest)) prev) s fc Htop) as Htop'
      end.
      eapply runs_eq; [exact E |]. apply runs_ret, runs_ret. cbv beta iota.
      eapply fails_mono.
      * eapply (IH _ _ _ (set_next_previous _ _ fc)); [| exact Hnone].
        unfold top_flow_control. rewrite (post_stack _ _ _ _ _ _ Hpost).
        exact Htop'.
      * intros s' Hs'. rewrite Hs', (post_messages _ _ _ _ _ _ Hpost). reflexivity.
Qed.

(** A [continue] without a label among the statements of the block that
    is the scope of a [switch], after statements without labels whose
    expressions append straight-line code, fails with P081 whatever the
    flow-control stack holds below, whatever follows it in the block and
    whatever the block's frame and defer stack are: the record the [switch]
    pushes has no continue label, the statement loop writes only to the
    record's values, and only the top record is asked. *)
Theorem continue_directly_in_a_switch_fails d f h x hb sf pd
        (items : list statement_t) hs hc rest defers bb r s :
  Forall (plain_statement d) items -> (d <= S f)%nat ->
  exists s',
    emit_element (S (S (S (S f))))
      (switch_e h x
         (block hb sf pd
            (map statement_of items
             ++ statement hs [] (Some (continue_e hc None)) :: rest)
            defers))
      bb r s
    = Failed s' /\
    messages s'
    = messages s ++ [{| code := "P081";
                        message := "no valid continue label on stack." |}].
Proof.
  intros Hitems Hf.
  match goal with
  | |- exists s', ?m s = Failed s' /\ ?Q =>
      change (fails m s
                (fun s' =>
                   messages s'
                   = messages s
                     ++ [{| code := "P081";
                            message := "no valid continue label on stack." |}]))
  end.
  rewrite emit_element_S. unfold emit_element_body, emit_switch_e. cbv zeta.
  fold (switch_record h x).
  apply fails_after. apply runs_modify.
  apply fails_with_defer.
  apply fails_after. runs_steps.
  apply fails_after. runs_steps.
  apply fails_after. runs_steps.
  apply fails_after. runs_steps.
  apply fails_bind.
  rewrite emit_element_S. unfold emit_element_body, emit_block.
  apply fails_bind.
  apply fails_after.
  assert (Hbegin : forall b0 s0,
    runs (begin_stack_frame b0 sf pd) s0
         (fun _ s1 => control_flow_stack s1 = control_flow_stack s0 /\
                      messages s1 = messages s0)).
  { intros b0 s0. unfold begin_stack_frame.
    destruct pd, sf; runs_steps; split; reflexivity. }
  eapply runs_mono; [apply Hbegin |]. clear Hbegin.
  intros [] s1 [Hst Hms]. cbv beta.
  apply fails_bind.
  eapply fails_mono.
  - eapply (continue_among_statements d f items hs hc rest Hitems Hf
              None _ s1 (switch_record h x)); [| reflexivity].
    unfold top_flow_control. rewrite Hst.
    cbn [control_flow_stack set_blocks set_labels_map push_flow_control
         set_control_flow_stack].
    apply last_snoc.
  - intros s' Hs'. rewrite pop_flow_control_id, Hs', Hms. reflexivity.
Qed.

Lemma continue_directly_in_a_switch_fails_witness :
  match emit_element 5 switch_with_continue 0%nat empty_result start_session with
  | Failed s' =>
      messages s'
      = [{| code := "P081"; message := "no valid continue label on stack." |}]
  | _ => False
  end.
Proof.
  destruct (continue_directly_in_a_switch_fails
              2 1 (example_header 30 "switch_30" None)
              (Some (example_identifier 31 "i" (numeric_type s32)))
              (example_header 32 "block_32" None) false false
              [(example_header 40 "statement" None,
                binary_operator (example_header 41 "binary_operator" None)
                  assignment (example_identifier 42 "b" (numeric_type s32))
                  (s32_literal 43 1) false,
                [inst store [identifier_operand "b" (numeric_type s32);
                             operand_integer 1 dword]])]
              (example_header 33 "statement" None)
              (example_header 34 "continue_34" None) [] []
              0%nat empty_result start_session)
    as (s' & E & Hm).
  - constructor; [| constructor].
    intros _ f bb s Hf. eexists.
    apply (assignment_emits _ _ _ _ 1 1 (numeric_type s32)
             (identifier_operand "b" (numeric_type s32)) (numeric_type s32)
             (operand_integer 1 dword) []).
    + apply emits_identifier. reflexivity.
    + apply emits_integer_literal. reflexivity.
    + reflexivity.
    + reflexivity.
    + exact Hf.
  - lia.
  - change (emit_element 5 switch_with_continue 0%nat empty_result start_session)
      with (emit_element 5
              (switch_e (example_header 30 "switch_30" None)
                 (Some (example_identifier 31 "i" (numeric_type s32)))
                 (block (example_header 32 "block_32" None) false false
                    (map statement_of
                       [(example_header 40 "statement" None,
                         binary_operator (example_header 41 "binary_operator" None)
                           assignment (example_identifier 42 "b" (numeric_type s32))
                           (s32_literal 43 1) false,
                         [inst store [identifier_operand "b" (numeric_type s32);
                                      operand_integer 1 dword]])]
                     ++ statement (example_header 33 "statement" None) []
                          (Some (continue_e (example_header 34 "continue_34" None)
                                   None))
                        :: []) []))
              0%nat empty_result start_session).
    rewrite E. exact Hm.
Defined.

(** *** Unary operators *)

(** A negation, a binary not or a logical not of a straight-line operand:
    the block receives the operand's instructions and then the operator's,
    a [neg], a [not], or for the logical not a [cmp] of the operand with 1
    followed by a [setnz]; the result is a temporary of the size of the
    operator's own type. *)
Theorem unary_lowering f h op rhs d tr o ins t uins bb res s :
  inferred_type h = Some t ->
  unary_instructions op
    (operand_named_ref (make_named_ref ref_local ""
                          (op_size_for_byte_size (type_size_in_bytes t)))) o
  = Some uins ->
  emits rhs d tr o ins -> (S d <= f)%nat -> (bb < length (blocks s))%nat ->
  let tmp := operand_named_ref
               (make_named_ref ref_local ""
                  (op_size_for_byte_size (type_size_in_bytes t))) in
  exists s',
    emit_element f (unary_operator h op rhs) bb res s
    = Ok (bb, emplace_back tmp (infer_type (unary_operator h op rhs) res)) s' /\
    instructions_of s' bb = instructions_of s bb ++ ins ++ uins /\
    length (blocks s') = length (blocks s).
Proof.
  intros Ht Hu Hrhs Hf Hbb tmp. subst tmp.
  destruct f as [| f]; [lia |].
  enough (Hruns :
    runs (emit_element (S f) (unary_operator h op rhs) bb res) s
         (fun out s' =>
            out = (bb, emplace_back
                         (operand_named_ref
                            (make_named_ref ref_local ""
                               (op_size_for_byte_size (type_size_in_bytes t))))
                         (infer_type (unary_operator h op rhs) res)) /\
            instructions_of s' bb = instructions_of s bb ++ ins ++ uins /\
            length (blocks s') = length (blocks s))).
  { destruct Hruns as (out & s' & E & -> & H). exists s'. split; [exact E | exact H]. }
  rewrite emit_element_S. unfold emit_element_body, emit_unary_operator.
  assert (Hty : er_type (infer_type (unary_operator h op rhs) res) = Some t)
    by (unfold infer_type; cbn [header]; rewrite Ht; reflexivity).
  runs_steps.
  eapply runs_emits; [exact Hrhs | lia |].
  intros s1 [Hblk1 _ _ _ _ _ _ _].
  assert (Hlen1 : length (blocks s1) = length (blocks s))
    by (rewrite Hblk1; norm_goal; lia).
  runs_steps.
  eapply runs_deref; [reflexivity |]. runs_steps.
  eapply runs_deref; [exact Hty |]. runs_steps.
  assert (Hnd : bool_decide (op = pointer_dereference) = false)
    by (destruct op; try discriminate Hu; reflexivity).
  rewrite Hnd. cbn [andb]. runs_steps.
  destruct op; try discriminate Hu; injection Hu as <-; runs_steps;
    (split; [reflexivity |]); (split; [| norm_goal; lia]);
    read_known; rewrite <- ?app_assoc; reflexivity.
Qed.

(** A pointer dereference of a straight-line operand, the operator's own
    type being a pointer type: when the operand's type is not composite,
    the block receives a [load] of the operand into a temporary of the size
    of the base the pointer chain ends in; when it is composite, nothing is
    appended and the operand itself is the result. *)
Theorem dereference_lowering f h rhs d tr o ins base void bb res s :
  inferred_type h = Some (pointer_type base void) ->
  emits rhs d tr o ins -> (S d <= f)%nat -> (bb < length (blocks s))%nat ->
  let tmp := operand_named_ref
               (make_named_ref ref_local ""
                  (op_size_for_byte_size (type_size_in_bytes (base_type_ref base)))) in
  exists s',
    emit_element f (unary_operator h pointer_dereference rhs) bb res s
    = Ok (bb, emplace_back (if is_composite_type tr then o else tmp)
                           (infer_type (unary_operator h pointer_dereference rhs) res))
         s' /\
    instructions_of s' bb
    = instructions_of s bb ++ ins
      ++ (if is_composite_type tr then [] else [inst load [tmp; o]]) /\
    length (blocks s') = length (blocks s).
Proof.
  intros Ht Hrhs Hf Hbb tmp. subst tmp.
  destruct f as [| f]; [lia |].
  enough (Hruns :
    runs (emit_element (S f) (unary_operator h pointer_dereference rhs) bb res) s
         (fun out s' =>
            out = (bb,
                   emplace_back
                     (if is_composite_type tr then o
                      else operand_named_ref
                             (make_named_ref ref_local ""
                                (op_size_for_byte_size
                                   (type_size_in_bytes (base_type_ref base)))))
                     (infer_type (unary_operator h pointer_dereference rhs) res)) /\
            instructions_of s' bb
            = instructions_of s bb ++ ins
              ++ (if is_composite_type tr then []
                  else [inst load
                          [operand_named_ref
                             (make_named_ref ref_local ""
                                (op_size_for_byte_size
                                   (type_size_in_bytes (base_type_ref base))));
                           o]]) /\
            length (blocks s') = length (blocks s))).
  { destruct Hruns as (out & s' & E & -> & H). exists s'. split; [exact E | exact H]. }
  rewrite emit_element_S. unfold emit_element_body, emit_unary_operator.
  assert (Hty : er_type (infer_type (unary_operator h pointer_dereference rhs) res)
                = Some (pointer_type base void))
    by (unfold infer_type; cbn [header]; rewrite Ht; reflexivity).
  runs_steps.
  eapply runs_emits; [exact Hrhs | lia |].
  intros s1 [Hblk1 _ _ _ _ _ _ _].
  assert (Hlen1 : length (blocks s1) = length (blocks s))
    by (rewrite Hblk1; norm_goal; lia).
  runs_steps.
  eapply runs_deref; [reflexivity |]. runs_steps.
  eapply runs_deref; [exact Hty |]. runs_steps.
  rewrite (bool_decide_eq_true_2 _ (eq_refl pointer_dereference)).
  destruct (is_composite_type tr); cbn [andb negb]; runs_steps;
    (split; [reflexivity |]); (split; [| norm_goal; lia]);
    read_known; rewrite ?app_nil_r, <- ?app_assoc; reflexivity.
Qed.

Lemma unary_lowering_witness :
  exists s',
    emit_element 2
      (unary_operator (example_header 2 "unary_operator_2" (Some (numeric_type s32)))
                      negate (example_identifier 3 "i" (numeric_type s32)))
      0%nat empty_result start_session
    = Ok (0%nat,
          result_of (numeric_type s32)
                    (operand_named_ref (make_named_ref ref_local "" dword))) s' /\
    instructions_of s' 0
    = [inst neg [operand_named_ref (make_named_ref ref_local "" dword);
                 identifier_operand "i" (numeric_type s32)]].
Proof.
  destruct (unary_lowering 2
              (example_header 2 "unary_operator_2" (Some (numeric_type s32)))
              negate (example_identifier 3 "i" (numeric_type s32)) 1
              (numeric_type s32) (identifier_operand "i" (numeric_type s32)) []
              (numeric_type s32)
              [inst neg [operand_named_ref (make_named_ref ref_local "" dword);
                         identifier_operand "i" (numeric_type s32)]]
              0%nat empty_result start_session)
    as (s' & E & I & _).
  - reflexivity.
  - reflexivity.
  - apply emits_identifier. reflexivity.
  - lia.
  - cbn. lia.
  - exists s'. split; [exact E | exact I].
Defined.

Lemma dereference_lowering_witness :
  exists s',
    emit_element 2
      (unary_operator
         (example_header 2 "unary_operator_2"
            (Some (pointer_type (pointer_type (numeric_type u8) false) false)))
         pointer_dereference
         (example_identifier 3 "p"
            (pointer_type (pointer_type (numeric_type u8) false) false)))
      0%nat empty_result start_session
    = Ok (0%nat,
          result_of (pointer_type (pointer_type (numeric_type u8) false) false)
                    (operand_named_ref (make_named_ref ref_local "" byte))) s' /\
    instructions_of s' 0
    = [inst load [operand_named_ref (make_named_ref ref_local "" byte);
                  identifier_operand "p"
                    (pointer_type (pointer_type (numeric_type u8) false) false)]].
Proof.
  destruct (dereference_lowering 2
              (example_header 2 "unary_operator_2"
                 (Some (pointer_type (pointer_type (numeric_type u8) false) false)))
              (example_identifier 3 "p"
                 (pointer_type (pointer_type (numeric_type u8) false) false))
              1 (pointer_type (pointer_type (numeric_type u8) false) false)
              (identifier_operand "p"
                 (pointer_type (pointer_type (numeric_type u8) false) false))
              [] (pointer_type (numeric_type u8) false) false
              0%nat empty_result start_session)
    as (s' & E & I & _).
  - reflexivity.
  - apply emits_identifier. reflexivity.
  - lia.
  - cbn. lia.
  - exists s'. split; [exact E | exact I].
Defined.

(** *** While *)

(** The lowering of a [while] whose emission returns: it returns in the
    last block it makes, the only one labelled [_exit], which holds a
    [nop].  The block made first starts with the label [_entry]; the
    predicate is emitted from it, with the [while]'s record (exit label
    [_exit], continue label [_entry]) pushed on the flow-control stack, and
    the [bz] on the predicate's last operand to [_exit] is appended to this
    block, wherever the predicate's emission ended.  The block made after
    the predicate starts with the label [_body]; the body is emitted from
    it, on the flow-control stack the predicate left, and the jump back to
    [_entry] is appended to this block, wherever the body's emission
    ended. *)
Theorem while_lowering f h p body bb r s exit r' s' :
  emit_element (S f) (while_e h p body) bb r s = Ok (exit, r') s' ->
  exists s_p end_p r_p o s1 body_block s_b r_b end_b r_e s_e,
    let n := length (blocks s) in
    let entry := make_named_ref ref_label (label_name h +:+ "_entry") qword in
    let leave := make_named_ref ref_label (label_name h +:+ "_exit") qword in
    emit_element f p n empty_result s_p = Ok (end_p, r_p) s1 /\
    last (er_operands r_p) = Some o /\
    control_flow_stack s_p
    = control_flow_stack s ++ [make_flow_control (Some leave) (Some entry)] /\
    head (labels_of s' n) = Some (label_name h +:+ "_entry") /\
    instructions_of s' n
    = instructions_of s1 n ++ [inst bz [o; operand_named_ref leave]] /\
    (n < body_block < exit)%nat /\
    emit_element f body body_block r_b s_b = Ok (end_b, r_e) s_e /\
    control_flow_stack s_b = control_flow_stack s1 /\
    head (labels_of s' body_block) = Some (label_name h +:+ "_body") /\
    instructions_of s' body_block
    = instructions_of s_e body_block ++ [jump_direct (operand_named_ref entry)] /\
    length (blocks s') = S exit /\
    labels_of s' exit = [label_name h +:+ "_exit"] /\
    instructions_of s' exit = [inst nop []].
Proof.
  destruct (emit_element_block_safe f) as [Hsafe _].
  revert exit r' s'.
  enough (Hok :
    ok_then (emit_element (S f) (while_e h p body) bb r) s
         (fun out s' =>
            exists s_p end_p r_p o s1 body_block s_b r_b end_b r_e s_e,
              emit_element f p (length (blocks s)) empty_result s_p
              = Ok (end_p, r_p) s1 /\
              last (er_operands r_p) = Some o /\
              control_flow_stack s_p
              = control_flow_stack s
                ++ [make_flow_control
                      (Some (make_named_ref ref_label
                               (label_name h +:+ "_exit") qword))
                      (Some (make_named_ref ref_label
                               (label_name h +:+ "_entry") qword))] /\
              head (labels_of s' (length (blocks s)))
              = Some (label_name h +:+ "_entry") /\
              instructions_of s' (length (blocks s))
              = instructions_of s1 (length (blocks s))
                ++ [inst bz [o; operand_named_ref
                                  (make_named_ref ref_label
                                     (label_name h +:+ "_exit") qword)]] /\
              (length (blocks s) < body_block < fst out)%nat /\
              emit_element f body body_block r_b s_b = Ok (end_b, r_e) s_e /\
              control_flow_stack s_b = control_flow_stack s1 /\
              head (labels_of s' body_block) = Some (label_name h +:+ "_body") /\
              instructions_of s' body_block
              = instructions_of s_e body_block
                ++ [jump_direct (operand_named_ref
                                   (make_named_ref ref_label
                                      (label_name h +:+ "_entry") qword))] /\
              length (blocks s') = S (fst out) /\
              labels_of s' (fst out) = [label_name h +:+ "_exit"] /\
              instructions_of s' (fst out) = [inst nop []])).
  { intros exit r' s' E. exact (Hok (exit, r') s' E). }
  rewrite emit_element_S. unfold emit_element_body, emit_while_e. cbv zeta.
  ok_steps.
  (* the predicate *)
  match goal with
  | |- ok_then (bind (emit_element f p _ _) _) ?S _ =>
      remember S as s_p eqn:Hs_p
  end.
  ok_call Hsafe end_p r_p s1 Ep Hxp.
  assert (Hlenp : length (blocks s_p) = S (length (blocks s)))
    by (rewrite Hs_p; norm_goal; lia).
  assert (Hstackp : control_flow_stack s_p
                    = control_flow_stack s
                      ++ [make_flow_control
                            (Some (make_named_ref ref_label
                                     (label_name h +:+ "_exit") qword))
                            (Some (make_named_ref ref_label
                                     (label_name h +:+ "_entry") qword))])
    by (rewrite Hs_p; reflexivity).
  destruct Hxp as (Hep & _ & _). rewrite Hlenp in Hep.
  ok_steps.
  (* the body *)
  match goal with
  | |- ok_then (bind (emit_element f body _ ?r0) _) ?S _ =>
      remember S as s_b eqn:Hs_b; remember r0 as r_b eqn:Hr_b
  end.
  ok_call Hsafe end_b r_e s_e Eb Hxb.
  match goal with
  | Hb : ?b = length (blocks s1) |- _ =>
      assert (Hlenb : length (blocks s_b) = S b)
        by (rewrite Hs_b; norm_goal; lia)
  end.
  assert (Hstackb : control_flow_stack s_b = control_flow_stack s1)
    by (rewrite Hs_b; reflexivity).
  destruct Hxb as (Heb & _ & _). rewrite Hlenb in Heb.
  ok_steps.
  cbn [fst].
  match goal with
  | Hb : ?b = length (blocks s1) |- _ =>
      exists s_p, end_p, r_p, o, s1, b, s_b, r_b, end_b, r_e, s_e
  end.
  repeat match goal with
         | |- _ /\ _ => split
         end;
    try assumption; try (norm_goal; lenlia);
    try (subst b; exact Ep);
    read_all; try reflexivity.
Qed.

(** The loop of the specification's third scenario. *)
Lemma while_lowering_witness :
  exists exit r' s',
    emit_element 8 while_with_break 0%nat empty_result start_session
    = Ok (exit, r') s' /\
    exists s_p end_p r_p o s1 body_block s_b r_b end_b r_e s_e,
      let n := length (blocks start_session) in
      let entry := make_named_ref ref_label "while_7_entry" qword in
      let leave := make_named_ref ref_label "while_7_exit" qword in
      emit_element 7
        (binary_operator (example_header 2 "binary_operator_2"
                                         (Some (other_type bool_type "bool" 1)))
           less_than (example_identifier 3 "a" (numeric_type s32))
           (s32_literal 4 10) false) n empty_result s_p
      = Ok (end_p, r_p) s1 /\
      last (er_operands r_p) = Some o /\
      control_flow_stack s_p
      = control_flow_stack start_session
        ++ [make_flow_control (Some leave) (Some entry)] /\
      head (labels_of s' n) = Some "while_7_entry" /\
      instructions_of s' n
      = instructions_of s1 n ++ [inst bz [o; operand_named_ref leave]] /\
      (n < body_block < exit)%nat /\
      (exists body,
         while_with_break
         = while_e (example_header 7 "while_7" None)
             (binary_operator (example_header 2 "binary_operator_2"
                                              (Some (other_type bool_type "bool" 1)))
                less_than (example_identifier 3 "a" (numeric_type s32))
                (s32_literal 4 10) false) body /\
         emit_element 7 body body_block r_b s_b = Ok (end_b, r_e) s_e) /\
      control_flow_stack s_b = control_flow_stack s1 /\
      head (labels_of s' body_block) = Some "while_7_body" /\
      instructions_of s' body_block
      = instructions_of s_e body_block ++ [jump_direct (operand_named_ref entry)] /\
      length (blocks s') = S exit /\
      labels_of s' exit = ["while_7_exit"] /\
      instructions_of s' exit = [inst nop []].
Proof.
  eassert (E : emit_element 8 while_with_break 0%nat empty_result start_session
               = Ok (_, _) _) by (vm_compute; reflexivity).
  eexists _, _, _. split; [exact E |].
  destruct (while_lowering 7 _ _ _ _ _ _ _ _ _ E)
    as (s_p & end_p & r_p & o & s1 & body_block & s_b & r_b & end_b & r_e & s_e
        & H1 & H2 & H3 & H4 & H5 & H6 & H7 & H8).
  exists s_p, end_p, r_p, o, s1, body_block, s_b, r_b, end_b, r_e, s_e.
  repeat (split; [assumption |]).
  split; [| exact H8].
  eexists. split; [reflexivity | exact H7].
Defined.

(** *** If *)



(** *** For over a range *)

(** A comparison of two straight-line operands. *)
Lemma comparison_emits h op cc l r n dl dr tl lo insl tr ro insr f bb res s :
  comparison_op_code op (type_is_signed tl) = Some cc ->
  emits l dl tl lo insl ->
  emits r dr tr ro insr ->
  (S (Nat.max dl dr) <= f)%nat ->
  let tmp := operand_named_ref (make_named_ref ref_local "" byte) in
  let exit_block := length (blocks s) in
  emit_element f (binary_operator h op l r n) bb res s
  = Ok (exit_block,
        emplace_back tmp (infer_type (binary_operator h op l r n) res))
       (with_instruction exit_block (inst nop [])
          (set_blocks (alter (append_label (label_name h +:+ "_exit")) exit_block)
             (set_labels_map (fun ls => ls ++ [(label_name h +:+ "_exit", bb)])
                (set_blocks (alter (append_successors [exit_block]) bb)
                   (set_blocks (alter (append_predecessors [bb]) exit_block)
                      (set_blocks (fun bs => bs ++ [empty_block])
                         (with_instructions bb
                            (insl ++ insr ++ [inst cmp [lo; ro]; inst cc [tmp]])
                            s))))))).
Proof.
  intros Hcc Hl Hr Hf tmp exit_block. destruct f as [| f]; [lia |].
  cbn [emit_element]. unfold emit_element_body, emit_binary_operator.
  assert (Hrel :
    emit_relational_operator (emit_element f) h op l r bb
      (infer_type (binary_operator h op l r n) res) s
    = Ok (exit_block,
          emplace_back tmp (infer_type (binary_operator h op l r n) res))
         (with_instruction exit_block (inst nop [])
            (set_blocks (alter (append_label (label_name h +:+ "_exit")) exit_block)
               (set_labels_map (fun ls => ls ++ [(label_name h +:+ "_exit", bb)])
                  (set_blocks (alter (append_successors [exit_block]) bb)
                     (set_blocks (alter (append_predecessors [bb]) exit_block)
                        (set_blocks (fun bs => bs ++ [empty_block])
                           (with_instructions bb
                              (insl ++ insr ++ [inst cmp [lo; ro]; inst cc [tmp]])
                              s)))))))).
  { unfold emit_relational_operator. cbn [bind].
    rewrite (Hl f bb s) by lia. cbn [bind].
    rewrite (Hr f bb _) by lia.
    cbn [bind deref ret er_type er_operands result_of].
    assert (Hlog : is_logical_conjunction_operator op = false)
      by (destruct op; try reflexivity; discriminate Hcc).
    rewrite Hlog, Hcc.
    cbn [bind deref ret back last instruction update_block modify make_block
         add_predecessors add_successors block_label blocks set_blocks
         set_labels_map].
    rewrite !length_alter, !blocks_with_instructions, !length_alter.
    rewrite !with_instructions_app. reflexivity. }
  destruct op; try discriminate Hcc; exact Hrel.
Qed.

Lemma runs_comparison h op cc l r n dl dr tl lo insl tr ro insr f bb res s
      (Q : nat * emit_result_t -> session -> Prop) :
  comparison_op_code op (type_is_signed tl) = Some cc ->
  emits l dl tl lo insl ->
  emits r dr tr ro insr ->
  (S (Nat.max dl dr) <= f)%nat ->
  (forall x, x = length (blocks s) ->
     Q (x, emplace_back (operand_named_ref (make_named_ref ref_local "" byte))
                        (infer_type (binary_operator h op l r n) res))
       (with_instruction x (inst nop [])
          (set_blocks (alter (append_label (label_name h +:+ "_exit")) x)
             (set_labels_map (fun ls => ls ++ [(label_name h +:+ "_exit", bb)])
                (set_blocks (alter (append_successors [x]) bb)
                   (set_blocks (alter (append_predecessors [bb]) x)
                      (set_blocks (fun bs => bs ++ [empty_block])
                         (with_instructions bb
                            (insl ++ insr
                             ++ [inst cmp [lo; ro];
                                 inst cc [operand_named_ref
                                            (make_named_ref ref_local "" byte)]])
                            s)))))))) ->
  runs (emit_element f (binary_operator h op l r n) bb res) s Q.
Proof.
  intros Hcc Hl Hr Hf HQ. eapply runs_eq; [| apply (HQ _ eq_refl)].
  eapply comparison_emits; eassumption.
Qed.

(** The lowering of [for i in range(start, stop, step, dir, kind)] whose
    emission returns, over a scalar induction variable that appends no
    instruction and straight-line [start], [stop] and [step], [start] a
    scalar too, with [dir] and [kind] integer literals of value 0 or 1: the
    block made first holds
    the instructions of [start] and the store of its operand to the
    induction variable; the next, the instructions of [stop], the
    comparison of the induction variable with its operand by the operator
    the pair [(dir, kind)] selects ([<] for (0,1), [<=] for (0,0), [>] for
    (1,1), [>=] for (1,0)), in its signed or unsigned form after the
    induction variable's type, and the [bz] to the exit label; the block
    after the comparison's own starts with the label [_body], and the body
    is emitted from it; the step block holds the instructions of [step],
    the addition (for [dir = 0]) or subtraction (for [dir = 1]) of its
    operand, the store to the induction variable and the jump back to the
    entry label.  The emission returns in the last block it makes, the
    only one labelled [_exit]. *)
Theorem for_range_lowering d f h ii ti io rh start ts so ins_start
        stop te eo ins_stop step tp po ins_step
        dir dv kind kv body bb r s exit r' s' :
  emits ii d ti io [] -> inferred_type (header ii) = Some ti ->
  emits start d ts so ins_start -> emits stop d te eo ins_stop ->
  emits step d tp po ins_step ->
  is_composite_type ti = false -> is_composite_type ts = false ->
  as_integer dir = Some dv -> as_integer kind = Some kv ->
  (dv = 0 \/ dv = 1) -> (kv = 0 \/ kv = 1) ->
  (S (S d) <= f)%nat ->
  emit_element (S f)
               (for_e h ii (range_intrinsic rh start stop step dir kind) body)
               bb r s
  = Ok (exit, r') s' ->
  exists cmp_op step_op cc ac,
    spec_cmp_op dv kv = Some cmp_op /\ spec_step_op dv = Some step_op /\
    comparison_op_code cmp_op (type_is_signed ti) = Some cc /\
    arithmetic_op_code step_op = Some ac /\
    exists body_block r_b s_b end_b r_e s_e step_block,
      let n := length (blocks s) in
      let flag := operand_named_ref (make_named_ref ref_local "" byte) in
      let acc := operand_named_ref
                   (make_named_ref ref_local ""
                      (op_size_for_byte_size (type_size_in_bytes ti))) in
      instructions_of s' n = ins_start ++ [inst store [io; so]] /\
      instructions_of s' (S n)
      = ins_stop
        ++ [inst cmp [io; eo]; inst cc [flag];
            inst bz [flag; label_operand (label_name h +:+ "_exit")]] /\
      body_block = S (S (S n)) /\
      emit_element f body body_block r_b s_b = Ok (end_b, r_e) s_e /\
      head (labels_of s' body_block) = Some (label_name h +:+ "_body") /\
      (body_block < step_block < exit)%nat /\
      instructions_of s' step_block
      = ins_step
        ++ [inst ac [acc; io; po]; inst store [io; acc];
            jump_direct (label_operand (label_name h +:+ "_entry"))] /\
      length (blocks s') = S exit /\
      labels_of s' exit = [label_name h +:+ "_exit"].
Proof.
  intros Hii Hty Hstart Hstop Hstep Hci Hcs Hdir Hkind Hdv Hkv Hfuel.
  destruct (emit_element_block_safe f) as [Hsafe _].
  assert (Hops : exists cc ac,
             spec_cmp_op dv kv = Some (cmp_op_type dv kv) /\
             spec_step_op dv = Some (step_op_type dv) /\
             comparison_op_code (cmp_op_type dv kv) (type_is_signed ti) = Some cc /\
             arithmetic_op_code (step_op_type dv) = Some ac).
  { destruct Hdv as [-> | ->], Hkv as [-> | ->];
      eexists _, _; repeat split; reflexivity. }
  destruct Hops as (cc & ac & Hc & Hs & Hcc & Hac).
  intros E.
  exists (cmp_op_type dv kv), (step_op_type dv), cc, ac.
  repeat (split; [assumption |]).
  revert exit r' s' E.
  enough (Hok :
    ok_then (emit_element (S f)
            (for_e h ii (range_intrinsic rh start stop step dir kind) body) bb r) s
         (fun out s' =>
            exists body_block r_b s_b end_b r_e s_e step_block,
              instructions_of s' (length (blocks s))
              = ins_start ++ [inst store [io; so]] /\
              instructions_of s' (S (length (blocks s)))
              = ins_stop
                ++ [inst cmp [io; eo];
                    inst cc [operand_named_ref (make_named_ref ref_local "" byte)];
                    inst bz [operand_named_ref (make_named_ref ref_local "" byte);
                             label_operand (label_name h +:+ "_exit")]] /\
              body_block = S (S (S (length (blocks s)))) /\
              emit_element f body body_block r_b s_b = Ok (end_b, r_e) s_e /\
              head (labels_of s' body_block) = Some (label_name h +:+ "_body") /\
              (body_block < step_block < fst out)%nat /\
              instructions_of s' step_block
              = ins_step
                ++ [inst ac [operand_named_ref
                               (make_named_ref ref_local ""
                                  (op_size_for_byte_size (type_size_in_bytes ti)));
                             io; po];
                    inst store [io; operand_named_ref
                                      (make_named_ref ref_local ""
                                         (op_size_for_byte_size (type_size_in_bytes ti)))];
                    jump_direct (label_operand (label_name h +:+ "_entry"))] /\
              length (blocks s') = S (fst out) /\
              labels_of s' (fst out) = [label_name h +:+ "_exit"])).
  { intros exit r' s' E. exact (Hok (exit, r') s' E). }
  rewrite emit_element_S.
  unfold emit_element_body, emit_for_e, emit_for_range. cbv zeta.
  ok_steps.
  (* the initialisation *)
  apply ok_then_after.
  eapply (runs_assignment _ ii start _ d d ti io ts so ins_start);
    [assumption .. | lia |].
  known_session s_i Hki Hli.
  ok_steps.
  (* the comparison *)
  apply ok_then_after.
  eapply (runs_comparison _ _ cc ii stop _ d d ti io [] te eo ins_stop);
    [assumption .. | lia |]. intros x Hx. norm_len_in Hx.
  known_session s_c Hkc Hlc.
  ok_steps.
  (* the body *)
  match goal with
  | |- ok_then (bind (emit_element f body _ ?r0) _) ?S _ =>
      remember S as s_b eqn:Hs_b; remember r0 as r_b eqn:Hr_b
  end.
  ok_call Hsafe end_b r_e s_e Eb Hxb.
  destruct Hxb as (Heb & _ & _).
  match type of Heb with
  | extends ?n _ _ _ =>
      remember n as nb eqn:Hnb; rewrite Hs_b in Hnb; norm_len_in Hnb
  end.
  ok_steps.
  (* the step *)
  apply ok_then_after.
  match goal with
  | |- runs (emit_element f (binary_operator ?ha assignment ii
                               (binary_operator ?hs ?op ii step ?n) ?m) _ _) _ _ =>
      pose proof (emits_arithmetic hs op ac ii step n d d ti io [] tp po ins_step ti
                    (eq_trans (arithmetic_infer_type op ac ii step Hac) Hty)
                    Hac Hii Hstep) as Hsum;
      eapply (runs_assignment ha ii _ m d _ ti io ti _ _ f);
        [exact Hii | exact Hsum | exact Hci | exact Hci | lia |]
  end.
  known_session s_u Hku Hlu.
  ok_steps.
  cbn [fst].
  exists b1, r_b, s_b, end_b, r_e, s_e, b2.
  repeat match goal with
         | |- _ /\ _ => split
         end;
    try exact Eb; try lenlia; try (norm_goal; lenlia).
  all: read_all; rewrite <- ?app_assoc; reflexivity.
Qed.

Lemma for_range_lowering_witness :
  exists exit r' s',
    emit_element 5 count_up_and_leave 0%nat empty_result busy_session = Ok (exit, r') s' /\
    exists cmp_op step_op cc ac,
      spec_cmp_op 0 1 = Some cmp_op /\ spec_step_op 0 = Some step_op /\
      comparison_op_code cmp_op (type_is_signed (numeric_type u32)) = Some cc /\
      arithmetic_op_code step_op = Some ac /\
      exists body_block r_b s_b end_b r_e s_e step_block,
        let n := length (blocks busy_session) in
        let flag := operand_named_ref (make_named_ref ref_local "" byte) in
        let acc := operand_named_ref
                     (make_named_ref ref_local ""
                        (op_size_for_byte_size
                           (type_size_in_bytes (numeric_type u32)))) in
        instructions_of s' n
        = [] ++ [inst store [identifier_operand "i" (numeric_type u32);
                             operand_integer 0 dword]] /\
        instructions_of s' (S n)
        = [] ++ [inst cmp [identifier_operand "i" (numeric_type u32);
                           operand_integer 10 dword];
                 inst cc [flag];
                 inst bz [flag; label_operand "for_20_exit"]] /\
        body_block = S (S (S n)) /\
        emit_element 4
          (block (example_header 17 "block_17" None) false false
             [statement (example_header 18 "statement" None) []
                (Some (break_e (example_header 19 "break_19" None) None))] [])
          body_block r_b s_b
        = Ok (end_b, r_e) s_e /\
        head (labels_of s' body_block) = Some "for_20_body" /\
        (body_block < step_block < exit)%nat /\
        instructions_of s' step_block
        = [] ++ [inst ac [acc; identifier_operand "i" (numeric_type u32);
                          operand_integer 1 dword];
                 inst store [identifier_operand "i" (numeric_type u32); acc];
                 jump_direct (label_operand "for_20_entry")] /\
        length (blocks s') = S exit /\
        labels_of s' exit = ["for_20_exit"].
Proof.
  eassert (E : emit_element 5 count_up_and_leave 0%nat empty_result busy_session
               = Ok (_, _) _) by (vm_compute; reflexivity).
  eexists _, _, _. split; [exact E |].
  eapply (for_range_lowering 1 4 (example_header 20 "for_20" None)
           (example_identifier 10 "i" (numeric_type u32)) (numeric_type u32)
           (identifier_operand "i" (numeric_type u32))
           (example_header 11 "range_11" None)
           (u32_literal 12 0) (numeric_type u32) (operand_integer 0 dword) []
           (u32_literal 13 10) (numeric_type u32) (operand_integer 10 dword) []
           (u32_literal 14 1) (numeric_type u32) (operand_integer 1 dword) []
           (u32_literal 15 0) 0 (u32_literal 16 1) 1
           (block (example_header 17 "block_17" None) false false
              [statement (example_header 18 "statement" None) []
                 (Some (break_e (example_header 19 "break_19" None) None))] [])
           0%nat empty_result busy_session).
  - apply (emits_identifier (example_header 10 "i" (Some (numeric_type u32)))).
    reflexivity.
  - reflexivity.
  - apply (emits_integer_literal (example_header 12 "lit" (Some (numeric_type u32)))).
    reflexivity.
  - apply (emits_integer_literal (example_header 13 "lit" (Some (numeric_type u32)))).
    reflexivity.
  - apply (emits_integer_literal (example_header 14 "lit" (Some (numeric_type u32)))).
    reflexivity.
  - reflexivity.
  - reflexivity.
  - reflexivity.
  - reflexivity.
  - left. reflexivity.
  - right. reflexivity.
  - lia.
  - exact E.
Defined.



(** *** Calls, foreign or not *)




(** *** What every emission keeps *)

(** A successful emission only appends: the session it leaves has lost no
    block; the label map, and the labels and the instructions of every
    block, have grown at their ends at most; the blocks there were, other
    than the one the emission was given, have the labels and the
    instructions they had; and the block the emission ends in is the one
    it was given or one it made, and exists when the one given does. *)
Theorem emission_only_appends fuel e bb r s bb' r' s' :
  emit_element fuel e bb r s = Ok (bb', r') s' ->
  block_post bb s bb' s'.
Proof.
  intros E. pose proof (proj1 (emit_element_block_safe fuel) e bb r s) as H.
  rewrite E in H. exact H.
Qed.

Lemma emission_only_appends_witness :
  exists bb' r' s',
    emit_element 6 if_a_positive 0%nat empty_result start_session = Ok (bb', r') s' /\
    block_post 0 start_session bb' s'.
Proof.
  eassert (E : emit_element 6 if_a_positive 0%nat empty_result start_session
               = Ok (_, _) _) by (vm_compute; reflexivity).
  eexists _, _, _. split; [exact E |].
  exact (emission_only_appends _ _ _ _ _ _ _ _ E).
Defined.

(** An emission, whether it succeeds or fails, takes nothing back from the
    session: no record leaves the flow-control stack, the id pool does not
    go back, and the element map is as it was, provided the map holds no
    element with an id the pool has yet to hand out. *)
Theorem emission_takes_nothing_back fuel e bb r s :
  fresh s ->
  match emit_element fuel e bb r s with
  | Ok _ s' | Failed s' =>
      elements_map s' = elements_map s /\
      (id_pool s <= id_pool s')%N /\
      (length (control_flow_stack s) <= length (control_flow_stack s'))%nat
  | _ => True
  end.
Proof.
  intros Hf. pose proof (proj1 (emit_element_sess_safe fuel) e bb r s) as H.
  destruct (emit_element fuel e bb r s); try exact I;
    destruct H as (Hid & Hstack & Hmap); auto.
Qed.

Lemma emission_takes_nothing_back_witness :
  fresh start_session /\
  match emit_element 6 if_a_positive 0%nat empty_result start_session with
  | Ok _ s' =>
      elements_map s' = elements_map start_session /\
      (id_pool start_session <= id_pool s')%N /\
      (length (control_flow_stack start_session)
       <= length (control_flow_stack s'))%nat
  | _ => False
  end.
Proof.
  assert (Hf : fresh start_session) by (intros k _; reflexivity).
  split; [exact Hf |].
  pose proof (emission_takes_nothing_back 6 if_a_positive 0%nat empty_result
                start_session Hf) as H.
  revert H. vm_compute. intros H. exact H.
Defined.


End EmitterFacts.

(** ** Pointers to pointers and foreign types *)

Module TypeQueries.
Import Types.

(** The base [pointer_type::base_type_ref] arrives at is no pointer, and a
    pointer type is a composite type exactly when that base is one, however
    many pointers lie between. *)
Theorem base_type_ref_ends_the_chain (base : type) (void : bool) :
  is_pointer_type (base_type_ref base) = false /\
  is_composite_type (pointer_type base void) = is_composite_type (base_type_ref base).
Proof.
  induction base as [k | b IH bv | s fs | i s fs | s z | k s z];
    try (split; reflexivity).
  destruct IH as [IH1 IH2]. split; [exact IH1 | exact IH2].
Qed.

(** [to_ffi_type] reads the number class and the size of a numeric type
    and not its sign: two numeric types of one class and one size go to
    the same foreign type. *)
Theorem to_ffi_type_ignores_the_sign (a b : numeric_kind) :
  number_class (properties a) = number_class (properties b) ->
  size_in_bytes (properties a) = size_in_bytes (properties b) ->
  to_ffi_type (numeric_type a) = to_ffi_type (numeric_type b).
Proof.
  intros Hc Hs. unfold to_ffi_type.
  cbn [element_type as_numeric_type type_size_in_bytes].
  rewrite Hc, Hs. reflexivity.
Qed.

Lemma to_ffi_type_ignores_the_sign_witness :
  is_signed (properties s32) = true /\ is_signed (properties u32) = false /\
  to_ffi_type (numeric_type s32) = to_ffi_type (numeric_type u32) /\
  to_ffi_type (numeric_type u32) = ffi_int_type.
Proof.
  split; [reflexivity |]. split; [reflexivity |].
  split; [| reflexivity].
  apply (to_ffi_type_ignores_the_sign s32 u32); reflexivity.
Defined.

(** The types [to_ffi_type] sends to [void]: among the numeric types only
    [u0]; every tuple and array type, tuples being composite types all the
    same; and the types of kinds other than bool and rune that keep the
    defaults of [type].  A composite type goes to [struct] when its size
    is 16 bytes at most and to [pointer] otherwise, never to [void]. *)
Theorem to_ffi_type_void (t : type) :
  to_ffi_type t = ffi_void_type <->
  match t with
  | numeric_type k => k = u0
  | pointer_type _ _ | composite_type _ _ => False
  | tuple_type _ _ _ | array_type _ _ => True
  | other_type k _ _ => k <> bool_type /\ k <> rune_type
  end.
Proof.
  destruct t as [k | b bv | s fs | i s fs | s z | k s z].
  - destruct k; cbn; split; intros H; try reflexivity; discriminate H.
  - cbn. split; [discriminate | contradiction].
  - unfold to_ffi_type. cbn [element_type].
    destruct (_ <=? 16); split; try discriminate; contradiction.
  - cbn. split; auto.
  - cbn. split; auto.
  - destruct k; cbn; split; intros H; try reflexivity; try discriminate H;
      try (destruct H; congruence);
      split; discriminate.
Qed.

End TypeQueries.

(** ** Fields of fields, and the other flags of a variable *)

Module VariableWalk.
Import CompilerVariable.

Lemma walk_fields_nest (layers : list layer_t) :
  forall root offset stack,
    walk_fields (nest root layers) offset stack
    = walk_fields root (offset + offsets layers) (names layers ++ stack).
Proof.
  induction layers as [| l ls IH]; intros root offset stack.
  - cbn. rewrite Z.add_0_r. reflexivity.
  - cbn [nest]. rewrite IH. cbn [walk_fields]. unfold offsets, names.
    cbn [map foldr app]. f_equal. lia.
Qed.

Lemma nest_parent (layers : list layer_t) :
  forall root, layers <> [] -> exists p, _parent (nest root layers) = Some p.
Proof.
  induction layers as [| l ls IH]; intros root Hne; [contradiction |].
  cbn [nest]. destruct ls as [| l' ls'].
  - eexists. reflexivity.
  - apply IH. discriminate.
Qed.

(** [walk_to_root_and_calculate_offset] on a field of a field ... of a
    root that is no field itself: it answers [true], finds the root's
    identifier, adds up the start offsets of the fields on the way, and
    joins their names with dots, the root's field first. *)
Theorem walk_adds_the_offsets (root : variable) (layers : list layer_t) :
  _field root = None -> layers <> [] ->
  walk_to_root_and_calculate_offset (nest root layers)
  = Some (true,
          {| rot_identifier := identifier_of root;
             rot_path := String.concat "." (names layers);
             rot_offset := offsets layers |}).
Proof.
  intros Hroot Hne. unfold walk_to_root_and_calculate_offset.
  destruct (nest_parent layers root Hne) as [p ->].
  rewrite walk_fields_nest.
  destruct root as [fl e p' f v ad]. cbn in Hroot. subst f.
  cbn. rewrite app_nil_r. reflexivity.
Qed.

Lemma walk_adds_the_offsets_witness :
  walk_to_root_and_calculate_offset
    (nest (Build_variable 0 (identifier "player") None None
                          (example_register 0) (example_register 1))
          [example_layer "position" 8; example_layer "y" 4])
  = Some (true, {| rot_identifier := Some "player"; rot_path := "position.y";
                   rot_offset := 12 |}).
Proof.
  apply (walk_adds_the_offsets
           (Build_variable 0 (identifier "player") None None
                           (example_register 0) (example_register 1))
           [example_layer "position" 8; example_layer "y" 4]).
  - reflexivity.
  - discriminate.
Defined.

Section WithFlags.
Context `{F : flags_t}.
Hypothesis wf : flags_wf.

(** [write(uint64_t)] sets [f_written] and leaves [f_read] as it finds
    it: unlike [write()], it can leave both flags set. *)
Theorem write_constant_leaves_f_read (value : Z) (v : variable) (a : assembler)
        b v' a' :
  flag v f_written = false ->
  write_constant value v a = Some (b, v', a') ->
  b = true /\ flag v' f_written = true /\ flag v' f_read = flag v f_read.
Proof.
  intros Hw. unfold write_constant. rewrite Hw.
  destruct (address v a) as [[[b1 v1] a1] |] eqn:Ha; cbn; [| discriminate].
  destruct (VariableFacts.address_flags wf v a b1 v1 a1 Ha) as [Hr _].
  destruct (current_block a1); cbn; [| discriminate].
  destruct (walk_to_root_and_calculate_offset v1) as [[w rot] |]; cbn;
    [| discriminate].
  destruct (if w then _ else _) as [c |]; cbn; [| discriminate].
  intros [= <- <- <-]. destruct wf.
  split; [reflexivity |]. split.
  - apply VariableFacts.flag_set_same. assumption.
  - rewrite VariableFacts.flag_set_other by assumption. exact Hr.
Qed.

(** [address()] loads the address once: after a call with a current
    block the flag [f_addressed] is set, and a second call returns
    [false] and leaves the variable and the block as they are. *)
Theorem address_loads_once (v : variable) (a : assembler) b v' a' :
  f_addressed <> 0 -> current_block a <> None ->
  address v a = Some (b, v', a') ->
  flag v' f_addressed = true /\ address v' a' = Some (false, v', a').
Proof.
  intros Hnz Hblock Ha.
  assert (Hflag : flag v' f_addressed = true).
  { revert Ha. unfold address. destruct (flag v f_addressed) eqn:Hf.
    - intros [= <- <- <-]. exact Hf.
    - destruct (current_block a); [| contradiction].
      destruct (walk_to_root_and_calculate_offset v) as [[w rot] |]; cbn;
        [| discriminate].
      intros [= <- <- <-]. apply VariableFacts.flag_set_same. exact Hnz. }
  split; [exact Hflag |]. unfold address. rewrite Hflag. reflexivity.
Qed.

End WithFlags.

Lemma write_constant_leaves_f_read_witness :
  match @read one_bit_flags VariableFacts.fresh_variable VariableFacts.one_block with
  | Some (_, v1, a1) =>
      match @write_constant one_bit_flags 5 v1 a1 with
      | Some (_, v2, _) =>
          @flag v2 (@f_written one_bit_flags) = true /\
          @flag v2 (@f_read one_bit_flags) = true
      | None => False
      end
  | None => False
  end.
Proof.
  destruct (@read one_bit_flags VariableFacts.fresh_variable VariableFacts.one_block)
    as [[[b1 v1] a1] |] eqn:E1; [| vm_compute in E1; discriminate E1].
  vm_compute in E1. injection E1 as <- <- <-.
  destruct (@write_constant one_bit_flags 5 _ _) as [[[b2 v2] a2] |] eqn:E2;
    [| vm_compute in E2; discriminate E2].
  pose proof (fun H => @write_constant_leaves_f_read one_bit_flags
                          VariableFacts.one_bit_flags_wf 5 _ _ _ _ _ H E2) as H.
  destruct (H eq_refl) as (_ & Hw & Hr).
  split; [exact Hw | rewrite Hr; reflexivity].
Defined.

Lemma address_loads_once_witness :
  exists v' a',
    @address one_bit_flags VariableFacts.fresh_variable VariableFacts.one_block
    = Some (true, v', a') /\
    @flag v' (@f_addressed one_bit_flags) = true /\
    @address one_bit_flags v' a' = Some (false, v', a').
Proof.
  eexists _, _. split; [reflexivity |].
  apply (@address_loads_once one_bit_flags VariableFacts.fresh_variable
           VariableFacts.one_block true).
  - discriminate.
  - discriminate.
  - reflexivity.
Defined.

End VariableWalk.
